(** * Strongvelope: a shallow embedding of the chat-message protocol handler

  The development follows [strongvelope] (the group capable encryption
  module for chat messages): its binary TLV message container, the
  key-identifier scheme, and the two entry points of
  [strongvelope.ProtocolHandler], [encryptTo] and [decryptFrom].

  Conventions of the embedding.
  - A JavaScript string is the list of its character codes
    ([jsstring]); a binary string is one whose codes are below 256.
  - A value that may be [undefined] or [null] is an [option]; the two
    coercions the source relies on (to a property name, to a string by
    [+]) are written out ([null_key], [undefined_key]).
  - Objects used as dictionaries ([participantKeys], the public key
    caches) are finite maps; a property holding [undefined] reads like
    an absent one and is represented by absence ([js_assign]).
  - The handler, the ambient key caches, the clock, the random source
    and the logger form a [World]; a method is a function from worlds to
    an outcome (value or thrown exception) and a world.
  - Cryptographic primitives and text codecs of the platform are the
    operations of the class [Primitives]; what a proof needs of them is
    a named law stated as a hypothesis. *)

From stdpp Require Import gmap list strings sorting.
From Stdlib Require Import ZArith Lia.

Local Open Scope Z_scope.

(** ** JavaScript values *)

Abbreviation jsstring := (list Z).

(** A JavaScript number as the code uses it: an integer, or [NaN]
  (what [charCodeAt] gives past the end of a string). *)
Inductive jsnum : Type :=
| Num (z : Z)
| NaN.

#[global] Instance jsnum_eq_dec : EqDecision jsnum.
Proof. solve_decision. Defined.

Module Js.

(** The character codes of a literal. *)
Definition str (s : string) : jsstring :=
  (λ a, Z.of_N (Ascii.N_of_ascii a)) <$> String.list_ascii_of_string s.

(** [s.charCodeAt(i)] *)
Definition charCodeAt (s : jsstring) (i : nat) : jsnum :=
  match s !! i with
  | Some c => Num c
  | None => NaN
  end.

(** [String.fromCharCode(n)] *)
Definition fromCharCode (n : Z) : jsstring := [n mod 65536].

(** [s.substring(0, n)] and [s.substring(n)] *)
Definition substring_to (s : jsstring) (n : nat) : jsstring := take n s.
Definition substring_from (s : jsstring) (n : nat) : jsstring := drop n s.

(** Truthiness of a string-or-undefined value: [undefined], [null] and
    the empty string are falsy. *)
Definition truthy (v : option jsstring) : bool :=
  match v with
  | Some (_ :: _) => true
  | _ => false
  end.

(** [null] and [undefined] as property names and under string [+]. *)
Definition null_key (v : option jsstring) : jsstring :=
  match v with
  | Some s => s
  | None => str "null"
  end.
Definition undefined_key (v : option jsstring) : jsstring :=
  match v with
  | Some s => s
  | None => str "undefined"
  end.

(** [o[k] = v] on a dictionary of strings. *)
Definition js_assign (o : gmap jsstring jsstring) (k : jsstring)
    (v : option jsstring) : gmap jsstring jsstring :=
  match v with
  | Some s => <[k := s]> o
  | None => delete k o
  end.

(** 32-bit integer conversions and the bit operators on them. *)
Definition to_int32 (z : Z) : Z := (z + 2 ^ 31) mod 2 ^ 32 - 2 ^ 31.
Definition to_uint32 (z : Z) : Z := z mod 2 ^ 32.
Definition shl (a n : Z) : Z := to_int32 (Z.shiftl (to_int32 a) n).
Definition ushr (a n : Z) : Z := Z.shiftr (to_uint32 a) n.
Definition bitor (a b : Z) : Z := Z.lor (to_int32 a) (to_int32 b).
Definition bitand (a b : Z) : Z := Z.land (to_int32 a) (to_int32 b).

(** The loop [while (s.length > 0) { out.push(s.substring(0, n));
    s = s.substring(n); }].  Each round removes [n > 0] characters, so
    [length s] rounds are enough. *)
Fixpoint chunks_go (fuel n : nat) (s : jsstring) : list jsstring :=
  match fuel with
  | O => []
  | S fuel' =>
      match s with
      | [] => []
      | _ :: _ => substring_to s n :: chunks_go fuel' n (substring_from s n)
      end
  end.
Definition chunks (n : nat) (s : jsstring) : list jsstring :=
  chunks_go (length s) n s.

End Js.

(** ** The TLV container *)

Module tlvstore.

(** Modelled from the spec: [tlvstore.toTlvRecord], which the sources
    call but do not contain.  A record is its one-byte type, the length
    of the value in two bytes (big-endian), and the value. *)
Definition toTlvRecord (key value : jsstring) : jsstring :=
  key ++ [Z.of_nat (length value) / 256 mod 256;
          Z.of_nat (length value) mod 256] ++ value.

Record SplitResult : Type := {
  record : jsstring * jsstring;
  rest : jsstring
}.

(** Modelled from the spec: [tlvstore.splitSingleTlvRecord], which the
    sources call but do not contain.  It takes the first record off a
    stream and fails ([None], [MalformedRecord]) on a truncated length
    or value. *)
Definition splitSingleTlvRecord (tlvContainer : jsstring) : option SplitResult :=
  match tlvContainer with
  | t :: hi :: lo :: tl =>
      let len := Z.to_nat (hi * 256 + lo) in
      if decide (len ≤ length tl)%nat
      then Some {| record := ([t], take len tl); rest := drop len tl |}
      else None
  | _ => None
  end.

End tlvstore.


(** ** Platform primitives

    The text codec of the platform and the primitives of the two
    cryptographic libraries the module calls.  A primitive that can raise
    an exception (a key or a block of the wrong size, say) returns an
    [option].  [Text] is the type of the messages of a chat: the
    well-formed texts, on which [unescape(encodeURIComponent(_))] is
    defined. *)
Class Primitives : Type := {
  Text : Type;
  (** [unescape(encodeURIComponent(message))] *)
  utf8_encode : Text → jsstring;
  (** [decodeURIComponent(escape(bytes))]; [None] is a [URIError] *)
  utf8_decode : jsstring → option Text;
  (** [asmCrypto.AES_CTR.encrypt(data, key, nonce)] and [decrypt] *)
  AES_CTR_encrypt : jsstring → jsstring → jsstring → option jsstring;
  AES_CTR_decrypt : jsstring → jsstring → jsstring → option jsstring;
  (** [asmCrypto.AES_CBC.encrypt(data, key, false, iv)] and [decrypt] *)
  AES_CBC_encrypt : jsstring → jsstring → jsstring → option jsstring;
  AES_CBC_decrypt : jsstring → jsstring → jsstring → option jsstring;
  (** [asmCrypto.SHA256.bytes(data)] *)
  SHA256 : jsstring → jsstring;
  (** [nacl.scalarMult(n, p)] *)
  scalarMult : jsstring → jsstring → option jsstring;
  (** [nacl.sign.detached(message, secretKey)] *)
  sign_detached : jsstring → jsstring → option jsstring;
  (** [nacl.sign.detached.verify(message, signature, publicKey)] *)
  sign_detached_verify : jsstring → jsstring → jsstring → option bool;
  (** [base64urlencode] and [base64urldecode], on user handles *)
  base64urlencode : jsstring → jsstring;
  base64urldecode : jsstring → jsstring;
  (** [crypt.getPubKeyFromPrivKey(key, 'Ed25519')] *)
  getPubKeyFromPrivKey : jsstring → jsstring
}.

(** ** The module *)

Module strongvelope.

Definition NONCE_SIZE : nat := 12.
Definition KEY_SIZE : nat := 16.
Definition IV_SIZE : nat := 16.

(** Epoch time stamp granularity from [Date.now()]. *)
Definition _ONE_DAY : Z := 1000 * 24 * 60 * 60.

(** Size in bytes of a key ID. *)
Definition _KEY_ID_SIZE : nat := 4.

(** Version of the protocol implemented. *)
Definition PROTOCOL_VERSION : Z := 0.

(** After how many messages our symmetric sender key is rotated. *)
Definition ROTATE_KEY_EVERY : Z := 16.
Definition SEND_KEY_EVERY_RECEIVED : Z := 24.

(** Size (in bytes) of the secret/symmetric encryption key. *)
Definition SECRET_KEY_SIZE : nat := 16.

(** [TLV_TYPES] *)
Module TLV_TYPES.
Definition _UNUSED_SEPARATOR_ : Z := 0.
Definition SIGNATURE : Z := 1.
Definition MESSAGE_TYPE : Z := 2.
Definition NONCE : Z := 3.
Definition RECIPIENT : Z := 4.
Definition KEYS : Z := 5.
Definition KEY_IDS : Z := 6.
Definition PAYLOAD : Z := 7.
End TLV_TYPES.

(** [MESSAGE_TYPES] *)
Module MESSAGE_TYPES.
Definition GROUP_KEYED : Z := 0.
Definition GROUP_FOLLOWUP : Z := 1.
Definition SIMPLE_TWO_PARTY : Z := 2.
End MESSAGE_TYPES.

(** *** Key identifiers *)

(** Modelled from the spec: [a32_to_str] on a one-element array, which
    the sources call but do not contain.  The 32-bit number in four
    bytes, most significant first. *)
Definition a32_to_str (keyIdNumber : Z) : jsstring :=
  [Z.land (Z.shiftr keyIdNumber 24) 255;
   Z.land (Z.shiftr keyIdNumber 16) 255;
   Z.land (Z.shiftr keyIdNumber 8) 255;
   Z.land keyIdNumber 255].

(** Modelled from the spec: [str_to_a32(s)[0]], which the sources call
    but do not contain.  Each of the first four characters of the string
    is shifted to its place, the first one to the top, and or-ed into a
    32-bit integer; where the string ends nothing is or-ed in, and the
    empty string, which has no first number, counts as zero in the
    32-bit operations of [_splitKeyId]. *)
Definition str_to_a32_0 (s : jsstring) : Z :=
  let charCode (i : nat) := default 0 (s !! i) in
  Js.bitor
    (Js.bitor
       (Js.bitor (Js.shl (charCode 0%nat) 24) (Js.shl (charCode 1%nat) 16))
       (Js.shl (charCode 2%nat) 8))
    (Js.shl (charCode 3%nat) 0).

(** [_splitKeyId]: the date stamp and the counter of a key ID. *)
Definition _splitKeyId (keyId : jsstring) : Z * Z :=
  let keyIdNumber := str_to_a32_0 keyId in
  let dateStamp := Js.ushr keyIdNumber 16 in
  let counter := Js.bitand keyIdNumber 65535 in
  (dateStamp, counter).

(** [_encodeKeyId] *)
Definition _encodeKeyId (dateStamp counter : Z) : jsstring :=
  let keyIdNumber := Js.bitor (Js.shl dateStamp 16) counter in
  a32_to_str keyIdNumber.

(** The date stamp and counter of the key ID that follows [keyId] on the
    day [newDateStamp], as [_updateSenderKey] computes them: a fresh day
    or no key so far starts at counter 0, otherwise the counter goes up
    by one in 16 bits. *)
Definition nextKeyIdComponents (newDateStamp : Z) (keyId : option jsstring) : Z * Z :=
  if Js.truthy keyId then
    let '(dateStamp, counter) := _splitKeyId (Js.null_key keyId) in
    if decide (newDateStamp ≠ dateStamp)
    then (newDateStamp, 0)
    else (dateStamp, Js.bitand (counter + 1) 65535)
  else (newDateStamp, 0).

Definition nextKeyId (newDateStamp : Z) (keyId : option jsstring) : jsstring :=
  let '(dateStamp, counter) := nextKeyIdComponents newDateStamp keyId in
  _encodeKeyId dateStamp counter.

(** *** Parsed messages *)

(** The object [_parseMessageContent] builds.  [undefined_slot] is the
    property named "undefined", which a record of a type outside
    [_TLV_MAPPING] lands in; nothing reads it. *)
Record ParsedContent : Type := {
  protocolVersion : jsnum;
  signature : option jsstring;
  signedContent : option jsstring;
  type : option jsnum;
  nonce : option jsstring;
  recipients : list jsstring;
  keys : list jsstring;
  keyIds : list jsstring;
  payload : option jsstring;
  undefined_slot : option jsstring
}.

(** *** The handler and its world *)

Record ProtocolHandler : Type := {
  ownHandle : jsstring;
  privCu25519 : jsstring;
  privEd25519 : jsstring;
  pubEd25519 : jsstring;
  rotateKeyEvery : Z;
  sendKeyEveryReceived : Z;
  _keyEncryptionCount : Z;
  keyId : option jsstring;
  previousKeyId : option jsstring;
  _sentKeyId : option jsstring;
  participants : list jsstring;
  participantKeys : gmap jsstring (gmap jsstring jsstring)
}.

(** The messages handed to [logger.error]. *)
Inductive LogEntry : Type :=
| UnexpectedTlvType          (* 'Received unexpected TLV type.' *)
| KeysRecipientsMismatch     (* 'Number of keys does not match number of recipients.' *)
| MessageNotUsable           (* 'Incoming message not usable.' *)
| IncompatibleVersion        (* 'Message not compatible with current protocol version.' *)
| SignatureInvalid           (* 'Message signature invalid.' *)
| MismatchingSenderKey       (* "Mismatching statement on sender's previous key." *)
| KeyUnavailable (sender keyId : jsstring)
                             (* 'Encryption key for message from ... unavailable.' *)
| CouldNotDecrypt            (* 'Could not decrypt message, probably a wrong key/nonce.' *)
| NoCachedChatKey (userhandle : jsstring).
                             (* 'No cached chat key for user: ...' *)

(** The exceptions that can leave a method. *)
Inductive exn : Type :=
| TypeError                  (* a property or method of [undefined] or [null] *)
| AssertionFailed            (* [assert(false, ...)] *)
| NoChatKeyError             (* [new Error('No cached chat key for user!')] *)
| MalformedRecord            (* the TLV codec on a truncated record *)
| LibraryError.              (* raised inside a cryptographic primitive *)

Inductive outcome (A : Type) : Type :=
| Ok (a : A)
| Throw (e : exn).
Arguments Ok {A} a.
Arguments Throw {A} e.

(** Everything a method can read or change: the handler it is called on,
    the ambient caches of public keys ([pubCu25519] and [pubEd25519] of
    the page), the clock, the random source with the number of bytes
    drawn so far, and what was logged. *)
Record World : Type := {
  this : ProtocolHandler;
  global_pubCu25519 : gmap jsstring jsstring;
  global_pubEd25519 : gmap jsstring jsstring;
  now : Z;
  entropy : nat → Z;
  drawn : nat;
  logged : list LogEntry
}.

Definition M (A : Type) : Type := World → outcome A * World.

#[global] Instance M_ret : MRet M := λ A a w, (Ok a, w).
#[global] Instance M_bind : MBind M := λ A B f m w,
  match m w with
  | (Ok a, w') => f a w'
  | (Throw e, w') => (Throw e, w')
  end.

Definition throw {A : Type} (e : exn) : M A := λ w, (Throw e, w).
Definition get_world : M World := λ w, (Ok w, w).
Definition get_this : M ProtocolHandler := λ w, (Ok (this w), w).

Definition set_this (h : ProtocolHandler) (w : World) : World :=
  {| this := h;
     global_pubCu25519 := global_pubCu25519 w;
     global_pubEd25519 := global_pubEd25519 w;
     now := now w; entropy := entropy w; drawn := drawn w;
     logged := logged w |}.

Definition put_this (h : ProtocolHandler) : M unit := λ w, (Ok tt, set_this h w).

Definition set_logged (entries : list LogEntry) (w : World) : World :=
  {| this := this w;
     global_pubCu25519 := global_pubCu25519 w;
     global_pubEd25519 := global_pubEd25519 w;
     now := now w; entropy := entropy w; drawn := drawn w;
     logged := entries |}.

(** [logger.error(entry)] *)
Definition logger_error (entry : LogEntry) : M unit := λ w,
  (Ok tt, set_logged (logged w ++ [entry]) w).

Definition set_drawn (n : nat) (w : World) : World :=
  {| this := this w;
     global_pubCu25519 := global_pubCu25519 w;
     global_pubEd25519 := global_pubEd25519 w;
     now := now w; entropy := entropy w; drawn := n;
     logged := logged w |}.

(** The next [n] bytes of the random source. *)
Definition random_bytes (w : World) (n : nat) : jsstring :=
  (λ i, entropy w (drawn w + i)%nat mod 256) <$> seq 0 n.

(** [asmCrypto.getRandomValues(new Uint8Array(n))] *)
Definition getRandomValues (n : nat) : M jsstring := λ w,
  (Ok (random_bytes w n), set_drawn (drawn w + n) w).

(** A primitive that may raise. *)
Definition library {A : Type} (r : option A) : M A :=
  match r with
  | Some a => mret a
  | None => throw LibraryError
  end.

(** A value whose property or method is used: [undefined] raises. *)
Definition defined {A : Type} (v : option A) : M A :=
  match v with
  | Some a => mret a
  | None => throw TypeError
  end.

(** Field updates of the handler. *)
Definition set_keyId (v : option jsstring) (h : ProtocolHandler) : ProtocolHandler :=
  {| ownHandle := ownHandle h; privCu25519 := privCu25519 h;
     privEd25519 := privEd25519 h; pubEd25519 := pubEd25519 h;
     rotateKeyEvery := rotateKeyEvery h;
     sendKeyEveryReceived := sendKeyEveryReceived h;
     _keyEncryptionCount := _keyEncryptionCount h;
     keyId := v; previousKeyId := previousKeyId h;
     _sentKeyId := _sentKeyId h; participants := participants h;
     participantKeys := participantKeys h |}.

Definition set_previousKeyId (v : option jsstring) (h : ProtocolHandler) : ProtocolHandler :=
  {| ownHandle := ownHandle h; privCu25519 := privCu25519 h;
     privEd25519 := privEd25519 h; pubEd25519 := pubEd25519 h;
     rotateKeyEvery := rotateKeyEvery h;
     sendKeyEveryReceived := sendKeyEveryReceived h;
     _keyEncryptionCount := _keyEncryptionCount h;
     keyId := keyId h; previousKeyId := v;
     _sentKeyId := _sentKeyId h; participants := participants h;
     participantKeys := participantKeys h |}.

Definition set_sentKeyId (v : option jsstring) (h : ProtocolHandler) : ProtocolHandler :=
  {| ownHandle := ownHandle h; privCu25519 := privCu25519 h;
     privEd25519 := privEd25519 h; pubEd25519 := pubEd25519 h;
     rotateKeyEvery := rotateKeyEvery h;
     sendKeyEveryReceived := sendKeyEveryReceived h;
     _keyEncryptionCount := _keyEncryptionCount h;
     keyId := keyId h; previousKeyId := previousKeyId h;
     _sentKeyId := v; participants := participants h;
     participantKeys := participantKeys h |}.

Definition set_keyEncryptionCount (v : Z) (h : ProtocolHandler) : ProtocolHandler :=
  {| ownHandle := ownHandle h; privCu25519 := privCu25519 h;
     privEd25519 := privEd25519 h; pubEd25519 := pubEd25519 h;
     rotateKeyEvery := rotateKeyEvery h;
     sendKeyEveryReceived := sendKeyEveryReceived h;
     _keyEncryptionCount := v;
     keyId := keyId h; previousKeyId := previousKeyId h;
     _sentKeyId := _sentKeyId h; participants := participants h;
     participantKeys := participantKeys h |}.

Definition set_participantKeys (v : gmap jsstring (gmap jsstring jsstring))
    (h : ProtocolHandler) : ProtocolHandler :=
  {| ownHandle := ownHandle h; privCu25519 := privCu25519 h;
     privEd25519 := privEd25519 h; pubEd25519 := pubEd25519 h;
     rotateKeyEvery := rotateKeyEvery h;
     sendKeyEveryReceived := sendKeyEveryReceived h;
     _keyEncryptionCount := _keyEncryptionCount h;
     keyId := keyId h; previousKeyId := previousKeyId h;
     _sentKeyId := _sentKeyId h; participants := participants h;
     participantKeys := v |}.

(** [this.f = v] for a field updater [f]. *)
Definition update_this (f : ProtocolHandler → ProtocolHandler) : M unit :=
  h ← get_this; put_this (f h).

(** [this.participantKeys[handle]], used as an object. *)
Definition participant (handle : jsstring) : M (gmap jsstring jsstring) :=
  h ← get_this; defined (participantKeys h !! handle).

(** [if (!this.participantKeys[handle]) { this.participantKeys[handle] = {}; }] *)
Definition init_participant (handle : jsstring) : M unit :=
  h ← get_this;
  if bool_decide (participantKeys h !! handle = None)
  then put_this (set_participantKeys (<[handle := ∅]> (participantKeys h)) h)
  else mret tt.

(** [this.participantKeys[handle][id] = key] *)
Definition store_key (handle id : jsstring) (key : option jsstring) : M unit :=
  h ← get_this;
  ks ← defined (participantKeys h !! handle);
  put_this (set_participantKeys (<[handle := Js.js_assign ks id key]> (participantKeys h)) h).

(** Field updates of the object under construction in the parser. *)
Definition set_signature (sig content : option jsstring) (p : ParsedContent) : ParsedContent :=
  {| protocolVersion := protocolVersion p; signature := sig;
     signedContent := content; type := type p; nonce := nonce p;
     recipients := recipients p; keys := keys p; keyIds := keyIds p;
     payload := payload p; undefined_slot := undefined_slot p |}.

Definition set_type (v : option jsnum) (p : ParsedContent) : ParsedContent :=
  {| protocolVersion := protocolVersion p; signature := signature p;
     signedContent := signedContent p; type := v; nonce := nonce p;
     recipients := recipients p; keys := keys p; keyIds := keyIds p;
     payload := payload p; undefined_slot := undefined_slot p |}.

Definition set_nonce (v : option jsstring) (p : ParsedContent) : ParsedContent :=
  {| protocolVersion := protocolVersion p; signature := signature p;
     signedContent := signedContent p; type := type p; nonce := v;
     recipients := recipients p; keys := keys p; keyIds := keyIds p;
     payload := payload p; undefined_slot := undefined_slot p |}.

Definition set_recipients (v : list jsstring) (p : ParsedContent) : ParsedContent :=
  {| protocolVersion := protocolVersion p; signature := signature p;
     signedContent := signedContent p; type := type p; nonce := nonce p;
     recipients := v; keys := keys p; keyIds := keyIds p;
     payload := payload p; undefined_slot := undefined_slot p |}.

Definition set_keys (v : list jsstring) (p : ParsedContent) : ParsedContent :=
  {| protocolVersion := protocolVersion p; signature := signature p;
     signedContent := signedContent p; type := type p; nonce := nonce p;
     recipients := recipients p; keys := v; keyIds := keyIds p;
     payload := payload p; undefined_slot := undefined_slot p |}.

Definition set_keyIds (v : list jsstring) (p : ParsedContent) : ParsedContent :=
  {| protocolVersion := protocolVersion p; signature := signature p;
     signedContent := signedContent p; type := type p; nonce := nonce p;
     recipients := recipients p; keys := keys p; keyIds := v;
     payload := payload p; undefined_slot := undefined_slot p |}.

Definition set_payload (v : option jsstring) (p : ParsedContent) : ParsedContent :=
  {| protocolVersion := protocolVersion p; signature := signature p;
     signedContent := signedContent p; type := type p; nonce := nonce p;
     recipients := recipients p; keys := keys p; keyIds := keyIds p;
     payload := v; undefined_slot := undefined_slot p |}.

Definition set_undefined_slot (v : option jsstring) (p : ParsedContent) : ParsedContent :=
  {| protocolVersion := protocolVersion p; signature := signature p;
     signedContent := signedContent p; type := type p; nonce := nonce p;
     recipients := recipients p; keys := keys p; keyIds := keyIds p;
     payload := payload p; undefined_slot := v |}.

(** [a < b] on numbers: false as soon as one side is [NaN]. *)
Definition js_lt (a b : jsnum) : bool :=
  match a, b with
  | Num x, Num y => bool_decide (x < y)
  | _, _ => false
  end.

Section methods.
Context `{Primitives}.

(** [StrongvelopeMessage]: the data of a successfully decrypted message. *)
Record StrongvelopeMessage : Type := {
  sender : jsstring;
  msg_type : option jsnum;
  msg_payload : Text
}.

(** What [decryptFrom] returns: [false], or the message. *)
Inductive DecryptResult : Type :=
| RFalse
| RMessage (m : StrongvelopeMessage).

(** The object [_symmetricEncryptMessage] returns. *)
Record EncryptedMessage : Type := {
  ciphertext : jsstring;
  key : jsstring;
  em_nonce : jsstring
}.

(** [_dateStampNow] *)
Definition _dateStampNow : M Z :=
  w ← get_world; mret (now w / _ONE_DAY).

(** [_symmetricEncryptMessage(message, key, nonce)] *)
Definition _symmetricEncryptMessage (message : Text) (key nonce : option jsstring)
    : M EncryptedMessage :=
  keyBytes ← (if Js.truthy key then defined key
              else getRandomValues KEY_SIZE);
  nonceBytes ← (if Js.truthy nonce
                then n ← defined nonce; mret (Js.substring_to n NONCE_SIZE)
                else getRandomValues NONCE_SIZE);
  let clearBytes := utf8_encode message in
  cipherBytes ← library (AES_CTR_encrypt clearBytes keyBytes nonceBytes);
  mret {| ciphertext := cipherBytes; key := keyBytes; em_nonce := nonceBytes |}.

(** [_symmetricDecryptMessage(cipher, key, nonce)]; [None] is the
    [false] it returns on a [URIError]. *)
Definition _symmetricDecryptMessage (cipher key nonce : option jsstring)
    : M (option Text) :=
  keyBytes ← defined key;
  n ← defined nonce;
  let nonceBytes := Js.substring_to n NONCE_SIZE in
  cipherBytes ← defined cipher;
  clearBytes ← library (AES_CTR_decrypt cipherBytes keyBytes nonceBytes);
  match utf8_decode clearBytes with
  | Some clearText => mret (Some clearText)
  | None => logger_error CouldNotDecrypt;; mret None
  end.

(** [_signMessage(message, privKey, pubKey)] *)
Definition _signMessage (message privKey pubKey : jsstring) : M jsstring :=
  library (sign_detached message (privKey ++ pubKey)).

(** [_verifyMessage(message, signature, pubKey)] *)
Definition _verifyMessage (message signature pubKey : option jsstring) : M bool :=
  messageBytes ← defined message;
  signatureBytes ← defined signature;
  keyBytes ← defined pubKey;
  library (sign_detached_verify messageBytes signatureBytes keyBytes).

(** The [switch] of the parser: where the value of a record goes. *)
Definition store_record (tlvType : jsnum) (part : tlvstore.SplitResult)
    (parsedContent : ParsedContent) : ParsedContent :=
  let value := (tlvstore.record part).2 in
  if decide (tlvType = Num TLV_TYPES.SIGNATURE) then
    set_signature (Some value) (Some (tlvstore.rest part)) parsedContent
  else if decide (tlvType = Num TLV_TYPES.MESSAGE_TYPE) then
    set_type (Some (Js.charCodeAt value 0)) parsedContent
  else if decide (tlvType = Num TLV_TYPES.RECIPIENT) then
    set_recipients (recipients parsedContent ++ [base64urlencode value]) parsedContent
  else if decide (tlvType = Num TLV_TYPES.KEYS) then
    set_keys (keys parsedContent ++ [value]) parsedContent
  else if decide (tlvType = Num TLV_TYPES.KEY_IDS) then
    set_keyIds (keyIds parsedContent ++ Js.chunks _KEY_ID_SIZE value) parsedContent
  else if decide (tlvType = Num TLV_TYPES.NONCE) then
    set_nonce (Some value) parsedContent
  else if decide (tlvType = Num TLV_TYPES.PAYLOAD) then
    set_payload (Some value) parsedContent
  else
    set_undefined_slot (Some value) parsedContent.

(** The [while (rest.length > 0)] loop of the parser; [None] is its
    [return false].  A record takes at least three characters off
    [rest], so [length rest] rounds are enough. *)
Fixpoint parse_records (fuel : nat) (rest : jsstring) (lastTlvType : jsnum)
    (parsedContent : ParsedContent) : M (option ParsedContent) :=
  match fuel with
  | O => mret (Some parsedContent)
  | S fuel' =>
      if bool_decide (0 < length rest)%nat then
        match tlvstore.splitSingleTlvRecord rest with
        | None => throw MalformedRecord
        | Some part =>
            let tlvType := Js.charCodeAt (tlvstore.record part).1 0 in
            if js_lt tlvType lastTlvType then
              logger_error UnexpectedTlvType;; mret None
            else
              parse_records fuel' (tlvstore.rest part) tlvType
                (store_record tlvType part parsedContent)
        end
      else mret (Some parsedContent)
  end.

(** [_parseMessageContent(binaryMessage)]; [None] is [false]. *)
Definition _parseMessageContent (binaryMessage : jsstring) : M (option ParsedContent) :=
  let parsedContent :=
    {| protocolVersion := Js.charCodeAt binaryMessage 0;
       signature := None; signedContent := None; type := None;
       nonce := None; recipients := []; keys := []; keyIds := [];
       payload := None; undefined_slot := None |} in
  let rest := Js.substring_from binaryMessage 1 in
  r ← parse_records (length rest) rest (Num (-1)) parsedContent;
  match r with
  | None => mret None
  | Some parsedContent =>
      if bool_decide (0 < length (recipients parsedContent))%nat
         && bool_decide (length (recipients parsedContent)
                         ≠ length (keys parsedContent))
      then logger_error KeysRecipientsMismatch;; mret None
      else mret (Some parsedContent)
  end.

(** [new strongvelope.ProtocolHandler(ownHandle, privCu25519,
    privEd25519, pubEd25519)] for a handle and private keys that are
    given and not empty: for a missing or empty one the constructor
    takes the global [u_handle], [u_privCu25519] or [u_privEd25519] of
    the page, which the sources do not contain, and the handler is then
    the one described here for that value. *)
Definition ProtocolHandler_new (ownHandle privCu25519 privEd25519 : jsstring)
    (pubEd25519 : option jsstring) : ProtocolHandler :=
  {| ownHandle := ownHandle;
     privCu25519 := privCu25519;
     privEd25519 := privEd25519;
     pubEd25519 := if Js.truthy pubEd25519 then Js.null_key pubEd25519
                   else getPubKeyFromPrivKey privEd25519;
     rotateKeyEvery := ROTATE_KEY_EVERY;
     sendKeyEveryReceived := SEND_KEY_EVERY_RECEIVED;
     _keyEncryptionCount := 0;
     keyId := None;
     previousKeyId := None;
     _sentKeyId := None;
     participants := [];
     participantKeys := {[ ownHandle := ∅ ]} |}.

(** [_updateSenderKey]: refreshes our own sender key. *)
Definition _updateSenderKey : M unit :=
  h ← get_this;
  (if Js.truthy (keyId h)
   then update_this (set_previousKeyId (keyId h))
   else mret tt);;
  newDateStamp ← _dateStampNow;
  update_this (set_keyId (Some (nextKeyId newDateStamp (keyId h))));;
  secretKey ← getRandomValues SECRET_KEY_SIZE;
  h ← get_this;
  store_key (ownHandle h) (Js.null_key (keyId h)) (Some secretKey);;
  update_this (set_keyEncryptionCount 0).

(** [_computeSymmetricKey(userhandle)] *)
Definition _computeSymmetricKey (userhandle : jsstring) : M jsstring :=
  w ← get_world;
  let pubKey := global_pubCu25519 w !! userhandle in
  if negb (Js.truthy pubKey) then
    logger_error (NoCachedChatKey userhandle);; throw NoChatKeyError
  else
    pubKey ← defined pubKey;
    sharedSecret ← library (scalarMult (privCu25519 (this w)) pubKey);
    mret (SHA256 sharedSecret).

(** [_encryptKeysFor(keys, nonce, destination)] *)
Definition _encryptKeysFor (keys : list (option jsstring))
    (nonce destination : jsstring) : M jsstring :=
  (if bool_decide (0 < length keys)%nat then mret tt
   else throw AssertionFailed);;
  let clearText := concat (Js.undefined_key <$> keys) in
  let ivBytes := take IV_SIZE (SHA256 (base64urldecode destination ++ nonce)) in
  symmetricKey ← _computeSymmetricKey destination;
  let keyBytes := Js.substring_to symmetricKey KEY_SIZE in
  library (AES_CBC_encrypt clearText keyBytes ivBytes).

(** [_decryptKeysFor(encryptedKeys, nonce, otherParty, iAmSender)].
    [base64urldecode] takes the length of its argument, so an undefined
    receiver raises. *)
Definition _decryptKeysFor (encryptedKeys : jsstring) (nonce : option jsstring)
    (otherParty : option jsstring) (iAmSender : bool) : M (list jsstring) :=
  h ← get_this;
  let receiver := if iAmSender then otherParty else Some (ownHandle h) in
  receiver ← defined receiver;
  let ivBytes :=
    take IV_SIZE (SHA256 (base64urldecode receiver ++ Js.undefined_key nonce)) in
  symmetricKey ← _computeSymmetricKey (Js.undefined_key otherParty);
  let keyBytes := Js.substring_to symmetricKey KEY_SIZE in
  clear ← library (AES_CBC_decrypt encryptedKeys keyBytes ivBytes);
  (if bool_decide (length clear `mod` KEY_SIZE = 0)%nat then mret tt
   else throw AssertionFailed);;
  mret (Js.chunks KEY_SIZE clear).

(** [encryptTo(message, destination)], from below the check for a due
    rotation to its end. *)
Definition encrypt_with_current_key (message : Text) (destination : jsstring)
    : M jsstring :=
  h ← get_this;
  own ← participant (ownHandle h);
  let senderKey := own !! Js.null_key (keyId h) in
  encryptedMessage ← _symmetricEncryptMessage message senderKey None;
  let keyIds := keyId h in
  '(messageType, encryptedKeys, keyIds) ←
    (if decide (_sentKeyId h = keyId h) then
       (* Use a (leaner) followup message if the sender key's been sent already. *)
       mret (MESSAGE_TYPES.GROUP_FOLLOWUP, None, keyIds)
     else
       (* Default keyed message. *)
       let '(keysIncluded, keyIds) :=
         if Js.truthy (previousKeyId h)
         then ([senderKey; own !! Js.null_key (previousKeyId h)],
               Some (Js.null_key keyIds ++ Js.null_key (previousKeyId h)))
         else ([senderKey], keyIds) in
       encryptedKeys ← _encryptKeysFor keysIncluded (em_nonce encryptedMessage)
                                        destination;
       mret (MESSAGE_TYPES.GROUP_KEYED, Some encryptedKeys, keyIds));
  (* Assemble message content. *)
  let content :=
    tlvstore.toTlvRecord (Js.fromCharCode TLV_TYPES.MESSAGE_TYPE)
                         (Js.fromCharCode messageType)
    ++ tlvstore.toTlvRecord (Js.fromCharCode TLV_TYPES.NONCE)
                            (em_nonce encryptedMessage) in
  content ←
    (if Js.truthy encryptedKeys then
       (* Include recipient(s) and sender key(s). *)
       encryptedKeys ← defined encryptedKeys;
       let content :=
         content
         ++ tlvstore.toTlvRecord (Js.fromCharCode TLV_TYPES.RECIPIENT)
                                 (base64urldecode destination)
         ++ tlvstore.toTlvRecord (Js.fromCharCode TLV_TYPES.KEYS) encryptedKeys in
       update_this (set_sentKeyId (keyId h));;
       keyIds ← defined keyIds;
       mret (content ++ tlvstore.toTlvRecord (Js.fromCharCode TLV_TYPES.KEY_IDS)
                                             keyIds)
     else
       keyId ← defined (keyId h);
       mret (content ++ tlvstore.toTlvRecord (Js.fromCharCode TLV_TYPES.KEY_IDS)
                                             keyId));
  let content :=
    content ++ tlvstore.toTlvRecord (Js.fromCharCode TLV_TYPES.PAYLOAD)
                                    (ciphertext encryptedMessage) in
  (* Sign message. *)
  signature ← _signMessage content (privEd25519 h) (pubEd25519 h);
  let content :=
    tlvstore.toTlvRecord (Js.fromCharCode TLV_TYPES.SIGNATURE) signature
    ++ content in
  h ← get_this;
  put_this (set_keyEncryptionCount (_keyEncryptionCount h + 1) h);;
  (* Return assembled total message. *)
  mret (Js.fromCharCode PROTOCOL_VERSION ++ content).

(** [encryptTo(message, destination)] *)
Definition encryptTo (message : Text) (destination : jsstring) : M jsstring :=
  h ← get_this;
  (* Check and rotate key if due. *)
  (if bool_decide (rotateKeyEvery h ≤ _keyEncryptionCount h)
   then _updateSenderKey
   else mret tt);;
  encrypt_with_current_key message destination.

(** The [for] loop of [decryptFrom] over the decrypted keys, from index
    [i] on; [false] is its [return false]. *)
Fixpoint cache_sender_keys (sender : jsstring) (keyIds : list jsstring)
    (i : nat) (decryptedKeys : list jsstring) : M bool :=
  match decryptedKeys with
  | [] => mret true
  | decryptedKey :: decryptedKeys' =>
      let id := Js.undefined_key (keyIds !! i) in
      cached ← participant sender;
      let previousSenderKey := cached !! id in
      if Js.truthy previousSenderKey
         && bool_decide (previousSenderKey ≠ Some decryptedKey)
      then
        (* Bail out on inconsistent information. *)
        logger_error MismatchingSenderKey;; mret false
      else
        store_key sender id (Some decryptedKey);;
        cache_sender_keys sender keyIds (S i) decryptedKeys'
  end.

(** The block [// Get sender key.] of [decryptFrom]: the sender key of
    the message, taken from its KEYS record (and cached) or from the
    cache.  [None] is the [return false] of the block; the key itself
    may be [undefined]. *)
Definition get_sender_key (parsedMessage : ParsedContent) (sender : jsstring)
    : M (option (option jsstring)) :=
  let keyId := keyIds parsedMessage !! 0%nat in
  match keys parsedMessage with
  | encryptedKeys :: _ =>
      h ← get_this;
      let isOwnMessage := bool_decide (sender = ownHandle h) in
      let otherHandle :=
        if isOwnMessage then recipients parsedMessage !! 0%nat
        else Some sender in
      (* Decrypt message key(s). *)
      decryptedKeys ← _decryptKeysFor encryptedKeys (nonce parsedMessage)
                                      otherHandle isOwnMessage;
      let senderKey := decryptedKeys !! 0%nat in
      (* Update local sender key cache. *)
      init_participant sender;;
      consistent ← cache_sender_keys sender (keyIds parsedMessage) 0 decryptedKeys;
      if (consistent : bool) then
        store_key sender (Js.undefined_key keyId) senderKey;;
        mret (Some senderKey)
      else mret None
  | [] =>
      h ← get_this;
      let cached :=
        participantKeys h !! sender
        ≫= (λ ks : gmap jsstring jsstring, ks !! Js.undefined_key keyId) in
      if Js.truthy cached then mret (Some cached)
      else
        logger_error (KeyUnavailable sender
                        (base64urlencode (Js.undefined_key keyId)));;
        mret None
  end.

(** [decryptFrom(message, sender)] *)
Definition decryptFrom (message sender : jsstring) : M DecryptResult :=
  parsedMessage ← _parseMessageContent message;
  match parsedMessage with
  | None =>
      (* Bail out on parse error. *)
      logger_error MessageNotUsable;; mret RFalse
  | Some parsedMessage =>
      (* Verify protocol version. *)
      if bool_decide (protocolVersion parsedMessage ≠ Num PROTOCOL_VERSION) then
        logger_error IncompatibleVersion;; mret RFalse
      else
        (* Verify signature. *)
        w ← get_world;
        verified ← _verifyMessage (signedContent parsedMessage)
                                  (signature parsedMessage)
                                  (global_pubEd25519 w !! sender);
        if negb verified then
          logger_error SignatureInvalid;; mret RFalse
        else
          (* Get sender key. *)
          senderKey ← get_sender_key parsedMessage sender;
          match senderKey with
          | None => mret RFalse
          | Some senderKey =>
              (* Decrypt message payload. *)
              cleartext ← _symmetricDecryptMessage (payload parsedMessage)
                                                   senderKey
                                                   (nonce parsedMessage);
              match cleartext with
              | None =>
                  (* Bail out if decryption failed. *)
                  mret RFalse
              | Some cleartext =>
                  mret (RMessage {| sender := sender;
                                    msg_type := type parsedMessage;
                                    msg_payload := cleartext |})
              end
          end
  end.

End methods.

End strongvelope.

(** ** A small instance of the primitives

    Executable stand-ins for the platform, used to run the module on
    concrete messages: texts are Latin-1 strings under genuine UTF-8,
    the ciphers are xor streams that insist on the key, IV and block
    sizes of AES, signatures are keyed digests of the message, and key
    agreement is multiplication modulo [2^255 - 19]. *)
Module Toy.

Definition byte_of_ascii (a : Ascii.ascii) : Z := Z.of_N (Ascii.N_of_ascii a).
Definition ascii_of_byte (b : Z) : Ascii.ascii := Ascii.ascii_of_N (Z.to_N b).

(** UTF-8 of the code points below 256. *)
Fixpoint encode_text (t : string) : jsstring :=
  match t with
  | EmptyString => []
  | String a t' =>
      let c := byte_of_ascii a in
      if bool_decide (c < 128) then c :: encode_text t'
      else (192 + c / 64) :: (128 + c mod 64) :: encode_text t'
  end.

Fixpoint decode_text (s : jsstring) : option string :=
  match s with
  | [] => Some EmptyString
  | b :: s' =>
      if bool_decide (0 ≤ b < 128) then String (ascii_of_byte b) <$> decode_text s'
      else
        match s' with
        | b' :: s'' =>
            if bool_decide (194 ≤ b ≤ 195) && bool_decide (128 ≤ b' < 192)
            then String (ascii_of_byte (64 * (b - 192) + (b' - 128)))
                   <$> decode_text s''
            else None
        | [] => None
        end
  end.

(** A digest of 32 bytes. *)
Definition checksum (s : jsstring) : Z :=
  fold_left (λ acc c, (acc * 31 + c) mod 65521) s (Z.of_nat (length s)).
Definition digest (s : jsstring) : jsstring :=
  let h := checksum s in
  (λ j, (h * (Z.of_nat j + 1) + h / 256 + Z.of_nat j) mod 256) <$> seq 0 32.

(** The xor of a stream with a pad that depends on the key, the nonce or
    IV and the position. *)
Definition pad (key iv : jsstring) (i : nat) : Z :=
  Z.lxor (key !!! (i `mod` 16)%nat)
         (Z.lxor (iv !!! (i `mod` length iv)%nat) (Z.of_nat i mod 256)).
Definition xor_stream (key iv data : jsstring) : jsstring :=
  imap (λ i x, Z.lxor x (pad key iv i)) data.

Definition stream_cipher (data key nonce : jsstring) : option jsstring :=
  if bool_decide (length key = 16%nat) then Some (xor_stream key nonce data)
  else None.

Definition block_cipher (data key iv : jsstring) : option jsstring :=
  if bool_decide (length key = 16%nat) && bool_decide (length iv = 16%nat)
     && bool_decide (length data `mod` 16 = 0)%nat
  then Some (xor_stream key iv data)
  else None.

(** Big-endian numbers. *)
Definition num (s : jsstring) : Z := fold_left (λ acc c, acc * 256 + c mod 256) s 0.
Definition bytes_of (n : nat) (z : Z) : jsstring :=
  (λ i, z / 256 ^ Z.of_nat (n - 1 - i) mod 256) <$> seq 0 n.

Definition field : Z := 2 ^ 255 - 19.
Definition base_point : Z := 9.
Definition public_of (priv : jsstring) : jsstring :=
  bytes_of 32 (num priv * base_point mod field).
Definition agree (n p : jsstring) : option jsstring :=
  if bool_decide (length n = 32%nat) && bool_decide (length p = 32%nat)
  then Some (bytes_of 32 (num n * num p mod field))
  else None.

(** Signatures: two digests of the message under the public half of the
    secret key. *)
Definition tag (message pubKey : jsstring) : jsstring :=
  digest (pubKey ++ message) ++ digest (message ++ pubKey).
Definition sign (message secretKey : jsstring) : option jsstring :=
  if bool_decide (length secretKey = 64%nat)
  then Some (tag message (drop 32 secretKey))
  else None.
Definition verify (message signature publicKey : jsstring) : option bool :=
  if bool_decide (length signature = 64%nat) && bool_decide (length publicKey = 32%nat)
  then Some (bool_decide (signature = tag message publicKey))
  else None.

Definition primitives : Primitives :=
  {| Text := string;
     utf8_encode := encode_text;
     utf8_decode := decode_text;
     AES_CTR_encrypt := stream_cipher;
     AES_CTR_decrypt := stream_cipher;
     AES_CBC_encrypt := block_cipher;
     AES_CBC_decrypt := block_cipher;
     SHA256 := digest;
     scalarMult := agree;
     sign_detached := sign;
     sign_detached_verify := verify;
     base64urlencode := id;
     base64urldecode := id;
     getPubKeyFromPrivKey := public_of |}.

End Toy.

(** * Vocabulary of the statements *)

Module Spec.
Import strongvelope.

(** A computation preserves a preorder on worlds when every run of it,
    returning or raising, ends in a world related to the one it started
    from. *)
Definition preserves {A} (R : relation World) (m : M A) : Prop :=
  ∀ w, R w (m w).2.

(** A wire message: the version byte, then the records, each a type
    code and a value. *)
Fixpoint encode_records (records : list (Z * jsstring)) : jsstring :=
  match records with
  | [] => []
  | (tlvType, value) :: records' =>
      tlvstore.toTlvRecord [tlvType] value ++ encode_records records'
  end.

Definition wire_message (version : Z) (records : list (Z * jsstring)) : jsstring :=
  version :: encode_records records.

(** A record that fits the container: its type code is a byte and the
    length of its value fits in two bytes. *)
Definition fits_record (r : Z * jsstring) : Prop :=
  0 ≤ r.1 < 256 ∧ Z.of_nat (length r.2) < 65536.

(** The type codes of a stream never go down, starting from [last]. *)
Fixpoint ascending_from (last : Z) (types : list Z) : bool :=
  match types with
  | [] => true
  | t :: types' => bool_decide (last ≤ t) && ascending_from t types'
  end.

(** What the parser has collected after the records of a stream. *)
Fixpoint store_records `{Primitives} (records : list (Z * jsstring))
    (parsedContent : ParsedContent) : ParsedContent :=
  match records with
  | [] => parsedContent
  | (tlvType, value) :: records' =>
      store_records records'
        (store_record (Num tlvType)
           {| tlvstore.record := ([tlvType], value);
              tlvstore.rest := encode_records records' |}
           parsedContent)
  end.

(** The loop of [decryptFrom] over the decrypted keys as a function on
    the keys cached for the sender: whether it ran to its end, and the
    cache it leaves.  It stops, before writing, at the first key that
    contradicts a non-empty cached one. *)
Fixpoint write_keys (keyIds : list jsstring) (i : nat)
    (decryptedKeys : list jsstring) (cached : gmap jsstring jsstring)
    : bool * gmap jsstring jsstring :=
  match decryptedKeys with
  | [] => (true, cached)
  | decryptedKey :: decryptedKeys' =>
      let id := Js.undefined_key (keyIds !! i) in
      if Js.truthy (cached !! id) && bool_decide (cached !! id ≠ Some decryptedKey)
      then (false, cached)
      else write_keys keyIds (S i) decryptedKeys' (<[id := decryptedKey]> cached)
  end.

(** The world in which [cached] are the keys held for [handle]. *)
Definition set_cache (handle : jsstring) (cached : gmap jsstring jsstring)
    (w : World) : World :=
  set_this (set_participantKeys (<[handle := cached]> (participantKeys (this w)))
                                (this w)) w.

(** [this.participantKeys[handle][id]], read through both dictionaries. *)
Definition cached_key (w : World) (handle id : jsstring) : option jsstring :=
  participantKeys (this w) !! handle ≫= (λ ks : gmap jsstring jsstring, ks !! id).

(** Every non-empty key bound in [w] is bound to the same value in [w']. *)
Definition bindings_kept (w w' : World) : Prop :=
  ∀ handle id key,
    key ≠ [] → cached_key w handle id = Some key → cached_key w' handle id = Some key.

(** The world after [entries] were logged. *)
Definition after_logging (entries : list LogEntry) (w : World) : World :=
  set_logged (logged w ++ entries) w.

(** The errors [decryptFrom] logs when it gives up on a message: one for
    each cause of failure. *)
Definition failure_cause (entry : LogEntry) : Prop :=
  match entry with
  | MessageNotUsable | IncompatibleVersion | SignatureInvalid
  | MismatchingSenderKey | KeyUnavailable _ _ | CouldNotDecrypt => True
  | _ => False
  end.

(** The world after [_updateSenderKey]: the next key ID is current, the
    one before is the previous one, a key of 16 random bytes is bound to
    the new key ID, and the count of encryptions starts again. *)
Definition rotated (w : World) : World :=
  let h := this w in
  let newKeyId := nextKeyId (now w / _ONE_DAY) (keyId h) in
  let own := default ∅ (participantKeys h !! ownHandle h) in
  set_this
    (set_keyEncryptionCount 0
       (set_participantKeys
          (<[ownHandle h := <[newKeyId := random_bytes w SECRET_KEY_SIZE]> own]>
             (participantKeys h))
          (set_keyId (Some newKeyId)
             (if Js.truthy (keyId h) then set_previousKeyId (keyId h) h else h))))
    (set_drawn (drawn w + SECRET_KEY_SIZE) w).

(** The world in which [encryptTo] encrypts: the one it is called in,
    after the rotation of the sender key if it is due. *)
Definition rotation_checked (w : World) : World :=
  if bool_decide (rotateKeyEvery (this w) ≤ _keyEncryptionCount (this w))
  then rotated w
  else w.

(** The ID and the key that a keyed message adds for the previous
    sender key: nothing when there is none. *)
Definition previous_id (h : ProtocolHandler) : jsstring :=
  if Js.truthy (previousKeyId h) then Js.null_key (previousKeyId h) else [].
Definition previous_key (own : gmap jsstring jsstring) (h : ProtocolHandler)
    : jsstring :=
  if Js.truthy (previousKeyId h)
  then Js.undefined_key (own !! Js.null_key (previousKeyId h))
  else [].

(** The records that [encryptTo] signs, in a follow-up message and in a
    keyed message. *)
Definition followup_records (nonce keyId ciphertext : jsstring)
    : list (Z * jsstring) :=
  [(TLV_TYPES.MESSAGE_TYPE, [MESSAGE_TYPES.GROUP_FOLLOWUP]);
   (TLV_TYPES.NONCE, nonce);
   (TLV_TYPES.KEY_IDS, keyId);
   (TLV_TYPES.PAYLOAD, ciphertext)].

Definition keyed_records (nonce recipient encryptedKeys keyIds ciphertext : jsstring)
    : list (Z * jsstring) :=
  [(TLV_TYPES.MESSAGE_TYPE, [MESSAGE_TYPES.GROUP_KEYED]);
   (TLV_TYPES.NONCE, nonce);
   (TLV_TYPES.RECIPIENT, recipient);
   (TLV_TYPES.KEYS, encryptedKeys);
   (TLV_TYPES.KEY_IDS, keyIds);
   (TLV_TYPES.PAYLOAD, ciphertext)].

Section laws.
Context `{Primitives}.

(** The key-encryption key and the IV under which the sender keys
    travel between the holder of [priv] and the holder of [pub], to
    [receiver]. *)
Definition key_encryption_key (priv pub : jsstring) : option jsstring :=
  (λ sharedSecret, take KEY_SIZE (SHA256 sharedSecret)) <$> scalarMult priv pub.
Definition key_encryption_iv (receiver nonce : jsstring) : jsstring :=
  take IV_SIZE (SHA256 (base64urldecode receiver ++ nonce)).

(** Decryption undoes encryption, and neither changes the length. *)
Definition ctr_inverts : Prop :=
  ∀ data key nonce c,
    AES_CTR_encrypt data key nonce = Some c →
    AES_CTR_decrypt c key nonce = Some data ∧ length c = length data.
Definition cbc_inverts : Prop :=
  ∀ data key iv c,
    AES_CBC_encrypt data key iv = Some c →
    AES_CBC_decrypt c key iv = Some data ∧ length c = length data.


(** A text is read back from its encoding. *)
Definition utf8_inverts : Prop :=
  ∀ text, utf8_decode (utf8_encode text) = Some text.

(** [pub] verifies what [priv] signs, and a signature fits in a record. *)
Definition signing_pair (priv pub : jsstring) : Prop :=
  ∀ message signature,
    sign_detached message (priv ++ pub) = Some signature →
    sign_detached_verify message signature pub = Some true
    ∧ Z.of_nat (length signature) < 65536.

(** The two parties derive the same shared secret, each from its
    private key and the public key it holds of the other. *)
Definition chat_keys_agree (priv pub priv' pub' : jsstring) : Prop :=
  ∀ sharedSecret,
    scalarMult priv pub = Some sharedSecret →
    scalarMult priv' pub' = Some sharedSecret.

End laws.

(** Calls of [encryptTo] one after the other, each with its message and
    its destination: the messages they return, if every one returns. *)
Fixpoint encryptTo_all `{Primitives} (calls : list (Text * jsstring))
    : M (list jsstring) :=
  match calls with
  | [] => mret []
  | (message, destination) :: calls' =>
      wire ← encryptTo message destination;
      wires ← encryptTo_all calls';
      mret (wire :: wires)
  end.

(** The handler holds a current sender key, and its previous one if it
    has rotated: 4-byte key IDs bound to 16-byte keys. *)
Definition holds_sender_key (w : World) : Prop :=
  ∃ own currentKeyId senderKey,
    participantKeys (this w) !! ownHandle (this w) = Some own
    ∧ keyId (this w) = Some currentKeyId
    ∧ length currentKeyId = 4%nat
    ∧ own !! currentKeyId = Some senderKey
    ∧ length senderKey = 16%nat
    ∧ match previousKeyId (this w) with
      | None => True
      | Some previous =>
          length previous = 4%nat
          ∧ ∃ previousKey, own !! previous = Some previousKey
                           ∧ length previousKey = 16%nat
      end.

(** [w'] is [w] with some more entries in the log. *)
Definition only_logged (w w' : World) : Prop :=
  ∃ entries, w' = after_logging entries w.

(** The log of [w'] is the log of [w] and some more entries. *)
Definition log_grows (w w' : World) : Prop :=
  ∃ entries, logged w' = logged w ++ entries.

(** The log of [w'] is the log of [w], some more entries, and then the
    error of a cause of failure. *)
Definition ends_with_cause (w w' : World) : Prop :=
  ∃ entries cause,
    failure_cause cause ∧ logged w' = logged w ++ entries ++ [cause].

(** What [decryptFrom] on a message of [sender] leaves alone: every
    field of the handler apart from [participantKeys], the entries of
    [participantKeys] of everybody but [sender], and the rest of the
    world apart from the log. *)
Record sending_state_kept (sender : jsstring) (w w' : World) : Prop := {
  kept_ownHandle : ownHandle (this w') = ownHandle (this w);
  kept_privCu25519 : privCu25519 (this w') = privCu25519 (this w);
  kept_privEd25519 : privEd25519 (this w') = privEd25519 (this w);
  kept_pubEd25519 : pubEd25519 (this w') = pubEd25519 (this w);
  kept_rotateKeyEvery : rotateKeyEvery (this w') = rotateKeyEvery (this w);
  kept_sendKeyEveryReceived :
    sendKeyEveryReceived (this w') = sendKeyEveryReceived (this w);
  kept_keyEncryptionCount :
    _keyEncryptionCount (this w') = _keyEncryptionCount (this w);
  kept_keyId : keyId (this w') = keyId (this w);
  kept_previousKeyId : previousKeyId (this w') = previousKeyId (this w);
  kept_sentKeyId : _sentKeyId (this w') = _sentKeyId (this w);
  kept_participants : participants (this w') = participants (this w);
  kept_participantKeys : ∀ handle, handle ≠ sender →
    participantKeys (this w') !! handle = participantKeys (this w) !! handle;
  kept_pubCu25519 : global_pubCu25519 w' = global_pubCu25519 w;
  kept_global_pubEd25519 : global_pubEd25519 w' = global_pubEd25519 w;
  kept_now : now w' = now w;
  kept_entropy : entropy w' = entropy w;
  kept_drawn : drawn w' = drawn w
}.

(** What [encryptTo] leaves alone: the handle, the long-term keys and the
    settings of the handler, the list of participants, the keys held of
    every participant other than the handler's own user, the caches of
    public keys, the clock and the random source, of which it only
    draws more; and it removes none of the handler's own keys. *)
Record receiving_state_kept (w w' : World) : Prop := {
  still_ownHandle : ownHandle (this w') = ownHandle (this w);
  still_privCu25519 : privCu25519 (this w') = privCu25519 (this w);
  still_privEd25519 : privEd25519 (this w') = privEd25519 (this w);
  still_pubEd25519 : pubEd25519 (this w') = pubEd25519 (this w);
  still_rotateKeyEvery : rotateKeyEvery (this w') = rotateKeyEvery (this w);
  still_sendKeyEveryReceived :
    sendKeyEveryReceived (this w') = sendKeyEveryReceived (this w);
  still_participants : participants (this w') = participants (this w);
  still_participantKeys : ∀ handle, handle ≠ ownHandle (this w) →
    participantKeys (this w') !! handle = participantKeys (this w) !! handle;
  still_own_keys : ∀ id,
    is_Some (cached_key w (ownHandle (this w)) id) →
    is_Some (cached_key w' (ownHandle (this w)) id);
  still_pubCu25519 : global_pubCu25519 w' = global_pubCu25519 w;
  still_global_pubEd25519 : global_pubEd25519 w' = global_pubEd25519 w;
  still_now : now w' = now w;
  still_entropy : entropy w' = entropy w;
  still_drawn : (drawn w ≤ drawn w')%nat
}.

(** The handle of the handler, its key IDs and the keys it holds are
    the same in [w'] as in [w]. *)
Definition keys_unchanged (w w' : World) : Prop :=
  ownHandle (this w') = ownHandle (this w)
  ∧ keyId (this w') = keyId (this w)
  ∧ previousKeyId (this w') = previousKeyId (this w)
  ∧ participantKeys (this w') = participantKeys (this w).

(** The values of the records of type [tlvType] in a stream, in order. *)
Definition values_of (tlvType : Z) (records : list (Z * jsstring))
    : list jsstring :=
  snd <$> filter (λ r, r.1 = tlvType) records.

End Spec.

(** * A concrete conversation

    Two participants, "A" and "B", with key material for the small
    instance of the primitives, on 2 November 2025. *)
Module Scenario.
Import strongvelope.

#[local] Existing Instance Toy.primitives.

Definition handleA : jsstring := Js.str "A".
Definition handleB : jsstring := Js.str "B".
Definition privCuA : jsstring := Js.str "AAAAAAAAaaaaaaaaAAAAAAAAaaaaaaaa".
Definition privCuB : jsstring := Js.str "BBBBBBBBbbbbbbbbBBBBBBBBbbbbbbbb".
Definition privEdA : jsstring := Js.str "EEEEEEEEeeeeeeeeEEEEEEEEeeeeeeee".
Definition privEdB : jsstring := Js.str "FFFFFFFFffffffffFFFFFFFFffffffff".

(** The handlers as their constructor leaves them. *)
Definition freshA : ProtocolHandler :=
  ProtocolHandler_new handleA privCuA privEdA None.
Definition freshB : ProtocolHandler :=
  ProtocolHandler_new handleB privCuB privEdB None.

(** The caches of public keys, the same on both sides. *)
Definition chatKeys : gmap jsstring jsstring :=
  {[ handleA := Toy.public_of privCuA; handleB := Toy.public_of privCuB ]}.
Definition signingKeys : gmap jsstring jsstring :=
  {[ handleA := pubEd25519 freshA; handleB := pubEd25519 freshB ]}.

Definition world_of (h : ProtocolHandler) (seed : nat) : World :=
  {| this := h;
     global_pubCu25519 := chatKeys;
     global_pubEd25519 := signingKeys;
     now := 1762041600000;
     entropy := λ i, Z.of_nat (seed * i + 3);
     drawn := 0;
     logged := [] |}.

Definition worldA : World := world_of freshA 7.
Definition worldB : World := world_of freshB 5.

(** "A" once it has a sender key, and a second device of "A" that drew
    another sender key for the same key ID. *)
Definition keyedA : World := (_updateSenderKey worldA).2.
Definition otherKeyedA : World := (_updateSenderKey (world_of freshA 11)).2.

(** The key ID of the first sender key of the day, and of the next. *)
Definition keyId0 : jsstring := [79; 170; 0; 0].
Definition keyId1 : jsstring := [79; 170; 0; 1].

(** [encryptTo] for each of [messages] in turn, to "B": the outcomes and
    the world at the end. *)
Fixpoint send_all (messages : list string) (w : World)
    : list (outcome jsstring) * World :=
  match messages with
  | [] => ([], w)
  | message :: messages' =>
      let '(r, w') := encryptTo message handleB w in
      let '(rs, w'') := send_all messages' w' in
      (r :: rs, w'')
  end.

(** Whether a call returned. *)
Definition succeeded {A} (r : outcome A) : bool :=
  match r with
  | Ok _ => true
  | Throw _ => false
  end.

(** The message an outcome carries. *)
Definition sent (r : outcome jsstring) : jsstring :=
  match r with
  | Ok message => message
  | Throw _ => []
  end.

(** The first two messages of "A" to "B": a keyed one, then a
    follow-up. *)
Definition hello : outcome jsstring := (encryptTo "hello" handleB keyedA).1.
Definition afterHello : World := (encryptTo "hello" handleB keyedA).2.
Definition world : outcome jsstring := (encryptTo "world" handleB afterHello).1.


(** "A" after sixteen messages to "B", and the seventeenth. *)
Definition sixteen : list string :=
  ["1"; "2"; "3"; "4"; "5"; "6"; "7"; "8"; "9"; "10"; "11"; "12"; "13"; "14";
   "15"; "16"]%string.
Definition afterSixteen : World := (send_all sixteen keyedA).2.
Definition seventeenth : outcome jsstring :=
  (encryptTo "17" handleB afterSixteen).1.
Definition afterSeventeen : World := (encryptTo "17" handleB afterSixteen).2.

(** "B" after the first message of "A", and "B" after the first message
    of the other device of "A". *)
Definition heardHello : World := (decryptFrom (sent hello) handleA worldB).2.
Definition heardOther : World :=
  (decryptFrom (sent (encryptTo "hi" handleB otherKeyedA).1) handleA worldB).2.

(** The first sender key of "A", and the records of its first two
    messages to "B". *)
Definition senderKey0 : jsstring :=
  [3; 10; 17; 24; 31; 38; 45; 52; 59; 66; 73; 80; 87; 94; 101; 108].
Definition helloNonce : jsstring :=
  [115; 122; 129; 136; 143; 150; 157; 164; 171; 178; 185; 192].
Definition helloKeys : jsstring :=
  [218; 83; 156; 225; 174; 79; 56; 165; 66; 123; 180; 73; 6; 135; 64; 29].
Definition helloPayload : jsstring := [24; 20; 254; 255; 251].
Definition helloSignature : jsstring :=
  [153; 18; 139; 4; 125; 246; 111; 232; 97; 218; 83; 204; 69; 190; 55; 176;
   41; 162; 27; 148; 13; 134; 255; 120; 241; 106; 227; 92; 213; 78; 199; 64;
   134; 254; 118; 238; 102; 222; 86; 206; 70; 190; 54; 174; 38; 158; 22; 142;
   6; 126; 246; 110; 230; 94; 214; 78; 198; 62; 182; 46; 166; 30; 150; 14].
Definition worldNonce : jsstring :=
  [199; 206; 213; 220; 227; 234; 241; 248; 255; 6; 13; 20].
Definition worldPayload : jsstring := [179; 170; 180; 171; 156].
Definition worldSignature : jsstring :=
  [73; 118; 163; 208; 253; 42; 87; 132; 177; 222; 11; 56; 101; 146; 191; 236;
   25; 70; 115; 160; 205; 250; 39; 84; 129; 174; 219; 8; 53; 98; 143; 188;
   251; 253; 255; 1; 3; 5; 7; 9; 11; 13; 15; 17; 19; 21; 23; 25; 27; 29; 31;
   33; 35; 37; 39; 41; 43; 45; 47; 49; 51; 53; 55; 57].

(** "B" with no public chat key in its cache. *)
Definition forgetfulB : World :=
  {| this := freshB;
     global_pubCu25519 := ∅;
     global_pubEd25519 := signingKeys;
     now := 1762041600000;
     entropy := λ i, Z.of_nat (5 * i + 3);
     drawn := 0;
     logged := [] |}.

(** A message signed by "A" whose KEYS record is empty. *)
Definition empty_keys_content : list (Z * jsstring) :=
  [(TLV_TYPES.MESSAGE_TYPE, [MESSAGE_TYPES.GROUP_KEYED]);
   (TLV_TYPES.NONCE, [1; 2; 3; 4; 5; 6; 7; 8; 9; 10; 11; 12]);
   (TLV_TYPES.RECIPIENT, handleB);
   (TLV_TYPES.KEYS, []);
   (TLV_TYPES.KEY_IDS, keyId0);
   (TLV_TYPES.PAYLOAD, [1; 2; 3])].
Definition empty_keys : jsstring :=
  Spec.wire_message 0
    ((TLV_TYPES.SIGNATURE,
      Toy.tag (Spec.encode_records empty_keys_content) (pubEd25519 freshA))
     :: empty_keys_content).

(** The first two messages of "A" to "B", record by record. *)
Definition helloWire : jsstring :=
  Spec.wire_message 0
    ((TLV_TYPES.SIGNATURE, helloSignature)
     :: Spec.keyed_records helloNonce handleB helloKeys keyId0 helloPayload).
Definition worldWire : jsstring :=
  Spec.wire_message 0
    ((TLV_TYPES.SIGNATURE, worldSignature)
     :: Spec.followup_records worldNonce keyId0 worldPayload).

(** The first message of "A" to "B" with another payload under the
    signature of the first. *)
Definition tampered : jsstring :=
  Spec.wire_message 0
    ((TLV_TYPES.SIGNATURE, helloSignature)
     :: Spec.keyed_records helloNonce handleB helloKeys keyId0 [1; 2; 3]).

(** The sender key the second device of "A" drew for the first key ID
    of the day. *)
Definition otherSenderKey0 : jsstring :=
  [3; 14; 25; 36; 47; 58; 69; 80; 91; 102; 113; 124; 135; 146; 157; 168].

(** A follow-up message signed by "A" whose payload does not decrypt to
    a text under the first sender key of "A". *)
Definition garbled_content : list (Z * jsstring) :=
  Spec.followup_records [1; 2; 3; 4; 5; 6; 7; 8; 9; 10; 11; 12] keyId0
    [255; 255].
Definition garbled : jsstring :=
  Spec.wire_message 0
    ((TLV_TYPES.SIGNATURE,
      Toy.tag (Spec.encode_records garbled_content) (pubEd25519 freshA))
     :: garbled_content).

(** "A" as its constructor leaves it, on day 70000 since the epoch: a
    day stamp that does not fit the 16 bits of a key ID. *)
Definition lateA : World :=
  {| this := freshA;
     global_pubCu25519 := chatKeys;
     global_pubEd25519 := signingKeys;
     now := 70000 * 86400000;
     entropy := λ i, Z.of_nat (7 * i + 3);
     drawn := 0;
     logged := [] |}.

(** A message of another version of the protocol. *)
Definition version_one : jsstring := Spec.wire_message 1 [].

(** A message whose KEY_IDS record (type 6) comes before its NONCE
    record (type 3). *)
Definition key_ids_before_nonce_records : list (Z * jsstring) :=
  [(TLV_TYPES.MESSAGE_TYPE, [MESSAGE_TYPES.GROUP_FOLLOWUP]);
   (TLV_TYPES.KEY_IDS, [79; 170; 0; 0]);
   (TLV_TYPES.NONCE, [1; 2; 3; 4; 5; 6; 7; 8; 9; 10; 11; 12])].
Definition key_ids_before_nonce : jsstring :=
  Spec.wire_message 0 key_ids_before_nonce_records.

(** A message with two NONCE records. *)
Definition nonce_twice : jsstring :=
  Spec.wire_message 0
    [(TLV_TYPES.NONCE, [1; 2; 3; 4; 5; 6; 7; 8; 9; 10; 11; 12]);
     (TLV_TYPES.NONCE, [21; 22; 23; 24; 25; 26; 27; 28; 29; 30; 31; 32])].

End Scenario.

(** * Properties *)

(** ** Key identifiers *)

Module KeyIdFacts.
Import strongvelope.

Lemma to_int32_small z : - 2 ^ 31 ≤ z < 2 ^ 31 → Js.to_int32 z = z.
Proof. unfold Js.to_int32. intros Hz. Z.div_mod_to_equations. lia. Qed.

Lemma to_int32_range z : - 2 ^ 31 ≤ Js.to_int32 z < 2 ^ 31.
Proof. unfold Js.to_int32. Z.div_mod_to_equations. lia. Qed.

Lemma to_int32_mod z : Js.to_int32 z mod 2 ^ 32 = z mod 2 ^ 32.
Proof. unfold Js.to_int32. Z.div_mod_to_equations. lia. Qed.

(** A number below [2^n] has no bits in common with a multiple of [2^n]. *)
Lemma land_high_low q c n :
  0 ≤ n → 0 ≤ c < 2 ^ n → Z.land (q * 2 ^ n) c = 0.
Proof.
  intros Hn Hc. apply Z.bits_inj'. intros m Hm.
  rewrite Z.land_spec, Z.bits_0.
  destruct (Z.lt_ge_cases m n) as [Hlt | Hge].
  - rewrite Z.mul_pow2_bits_low by lia. reflexivity.
  - rewrite <- (Z.mod_small c (2 ^ n)) by lia.
    rewrite Z.mod_pow2_bits_high by lia. apply andb_false_r.
Qed.

Lemma lor_high_low q c n :
  0 ≤ n → 0 ≤ c < 2 ^ n → Z.lor (q * 2 ^ n) c = q * 2 ^ n + c.
Proof.
  intros Hn Hc.
  rewrite <- Z.lxor_lor by (apply land_high_low; lia).
  symmetry. apply Z.add_nocarry_lxor, land_high_low; lia.
Qed.

(** The number of a key ID, modulo [2^32]. *)
Lemma encode_number dateStamp counter :
  0 ≤ dateStamp < 65536 → 0 ≤ counter < 65536 →
  Js.bitor (Js.shl dateStamp 16) counter mod 2 ^ 32 = dateStamp * 65536 + counter.
Proof.
  intros Hd Hc. unfold Js.bitor, Js.shl.
  rewrite (to_int32_small dateStamp), (to_int32_small counter) by lia.
  rewrite (to_int32_small (Js.to_int32 _)) by apply to_int32_range.
  rewrite Z.shiftl_mul_pow2 by lia.
  assert (∃ q, Js.to_int32 (dateStamp * 2 ^ 16) = q * 2 ^ 16
               ∧ (q * 2 ^ 16) mod 2 ^ 32 = dateStamp * 65536) as (q & -> & Hq).
  { exists (Js.to_int32 (dateStamp * 2 ^ 16) / 2 ^ 16).
    unfold Js.to_int32. Z.div_mod_to_equations. lia. }
  rewrite lor_high_low by lia.
  Z.div_mod_to_equations. lia.
Qed.

Lemma bitor_mod a b :
  Js.bitor a b mod 2 ^ 32 = Z.lor (a mod 2 ^ 32) (b mod 2 ^ 32).
Proof.
  unfold Js.bitor. rewrite <- !Z.land_ones by lia.
  rewrite Z.land_lor_distr_l, !Z.land_ones by lia.
  by rewrite !to_int32_mod.
Qed.

Lemma shl_mod a n : 0 ≤ n → Js.shl a n mod 2 ^ 32 = (a * 2 ^ n) mod 2 ^ 32.
Proof.
  intros Hn. unfold Js.shl. rewrite to_int32_mod, Z.shiftl_mul_pow2 by lia.
  rewrite Z.mul_mod, to_int32_mod, <- Z.mul_mod by lia. reflexivity.
Qed.

(** Reading back the four bytes of a number gives the number in 32 bits. *)
Lemma str_to_a32_to_str n :
  str_to_a32_0 (a32_to_str n) mod 2 ^ 32 = n mod 2 ^ 32.
Proof.
  unfold str_to_a32_0, a32_to_str. cbn [lookup list_lookup default].
  rewrite !bitor_mod, !shl_mod by lia.
  change 255 with (Z.ones 8). rewrite !Z.land_ones, !Z.shiftr_div_pow2 by lia.
  set (b0 := (n / 2 ^ 24) mod 2 ^ 8). set (b1 := (n / 2 ^ 16) mod 2 ^ 8).
  set (b2 := (n / 2 ^ 8) mod 2 ^ 8). set (b3 := n mod 2 ^ 8).
  assert (0 ≤ b0 < 2 ^ 8 ∧ 0 ≤ b1 < 2 ^ 8 ∧ 0 ≤ b2 < 2 ^ 8 ∧ 0 ≤ b3 < 2 ^ 8)
    as (H0 & H1 & H2 & H3)
    by (subst b0 b1 b2 b3; split_and!; apply Z.mod_pos_bound; lia).
  rewrite (Z.mod_small (b0 * 2 ^ 24)), (Z.mod_small (b1 * 2 ^ 16)),
    (Z.mod_small (b2 * 2 ^ 8)), (Z.mod_small (b3 * 2 ^ 0)) by lia.
  rewrite Z.mul_1_r.
  rewrite (lor_high_low b0 (b1 * 2 ^ 16) 24) by lia.
  replace (b0 * 2 ^ 24 + b1 * 2 ^ 16) with ((b0 * 2 ^ 8 + b1) * 2 ^ 16) by lia.
  rewrite (lor_high_low _ (b2 * 2 ^ 8) 16) by lia.
  replace ((b0 * 2 ^ 8 + b1) * 2 ^ 16 + b2 * 2 ^ 8)
    with ((b0 * 2 ^ 16 + b1 * 2 ^ 8 + b2) * 2 ^ 8) by lia.
  rewrite (lor_high_low _ b3 8) by lia.
  subst b0 b1 b2 b3. Z.div_mod_to_equations. lia.
Qed.

Lemma split_number n :
  _splitKeyId (a32_to_str n) = (n mod 2 ^ 32 / 65536, n mod 65536).
Proof.
  unfold _splitKeyId.
  unfold Js.ushr, Js.bitand, Js.to_uint32.
  rewrite str_to_a32_to_str, Z.shiftr_div_pow2 by lia.
  rewrite (to_int32_small 65535) by lia.
  change 65535 with (Z.ones 16). rewrite Z.land_ones by lia.
  f_equal.
  pose proof (to_int32_mod (str_to_a32_0 (a32_to_str n))) as Hm.
  pose proof (str_to_a32_to_str n) as Hn.
  Z.div_mod_to_equations. lia.
Qed.

(** [_splitKeyId] undoes [_encodeKeyId] on 16-bit components. *)
Lemma split_encode dateStamp counter :
  0 ≤ dateStamp < 65536 → 0 ≤ counter < 65536 →
  _splitKeyId (_encodeKeyId dateStamp counter) = (dateStamp, counter).
Proof.
  intros Hd Hc. unfold _encodeKeyId. rewrite split_number.
  pose proof (encode_number dateStamp counter Hd Hc) as E.
  rewrite E. f_equal; [ Z.div_mod_to_equations; lia | ].
  replace (Js.bitor (Js.shl dateStamp 16) counter mod 65536)
    with ((Js.bitor (Js.shl dateStamp 16) counter mod 2 ^ 32) mod 65536)
    by (Z.div_mod_to_equations; lia).
  rewrite E. Z.div_mod_to_equations. lia.
Qed.

(** The components [_splitKeyId] returns fit in 16 bits each. *)
Lemma split_range keyId :
  0 ≤ (_splitKeyId keyId).1 < 65536 ∧ 0 ≤ (_splitKeyId keyId).2 < 65536.
Proof.
  unfold _splitKeyId; cbn [fst snd].
  unfold Js.ushr, Js.bitand, Js.to_uint32.
  rewrite Z.shiftr_div_pow2 by lia.
  rewrite (to_int32_small 65535) by lia.
  change 65535 with (Z.ones 16). rewrite Z.land_ones by lia.
  split; Z.div_mod_to_equations; lia.
Qed.

Lemma length_encodeKeyId dateStamp counter :
  length (_encodeKeyId dateStamp counter) = 4%nat.
Proof. reflexivity. Qed.

Lemma counter_step counter :
  0 ≤ counter < 65536 → Js.bitand (counter + 1) 65535 = (counter + 1) mod 65536.
Proof.
  intros Hc. unfold Js.bitand. rewrite !to_int32_small by lia.
  change 65535 with (Z.ones 16). apply Z.land_ones. lia.
Qed.

End KeyIdFacts.

(** ** Running methods *)

Module Run.
Import strongvelope Spec.

Lemma run_ret {A} (a : A) w : (mret a : M A) w = (Ok a, w).
Proof. reflexivity. Qed.

Lemma run_bind {A B} (m : M A) (f : A → M B) w :
  (m ≫= f) w = match m w with
               | (Ok a, w') => f a w'
               | (Throw e, w') => (Throw e, w')
               end.
Proof. reflexivity. Qed.

Lemma run_bind_ok {A B} (m : M A) (f : A → M B) w a w' :
  m w = (Ok a, w') → (m ≫= f) w = f a w'.
Proof. intros E. rewrite run_bind, E. reflexivity. Qed.

Lemma run_bind_throw {A B} (m : M A) (f : A → M B) w e w' :
  m w = (Throw e, w') → (m ≫= f) w = (Throw e, w').
Proof. intros E. rewrite run_bind, E. reflexivity. Qed.

Section preserves.
Context (R : relation World) `{!PreOrder R}.

Lemma preserves_ret {A} (a : A) : preserves R (mret a : M A).
Proof. intros w. reflexivity. Qed.

Lemma preserves_throw {A} e : preserves R (throw e : M A).
Proof. intros w. reflexivity. Qed.

Lemma preserves_bind {A B} (m : M A) (f : A → M B) :
  preserves R m → (∀ a, preserves R (f a)) → preserves R (m ≫= f).
Proof.
  intros Hm Hf w. rewrite run_bind. specialize (Hm w).
  destruct (m w) as [[a | e] w']; cbn [snd] in *; [ | exact Hm ].
  etrans; [ exact Hm | apply Hf ].
Qed.

Lemma preserves_get_world : preserves R get_world.
Proof. intros w. reflexivity. Qed.

Lemma preserves_get_this : preserves R get_this.
Proof. intros w. reflexivity. Qed.

Lemma preserves_library {A} (r : option A) : preserves R (library r).
Proof. destruct r; [ apply preserves_ret | apply preserves_throw ]. Qed.

Lemma preserves_defined {A} (v : option A) : preserves R (defined v).
Proof. destruct v; [ apply preserves_ret | apply preserves_throw ]. Qed.

End preserves.

Lemma bind_ok_inv {A B} (m : M A) (f : A → M B) w b w' :
  (m ≫= f) w = (Ok b, w') → ∃ a w1, m w = (Ok a, w1) ∧ f a w1 = (Ok b, w').
Proof.
  rewrite run_bind. destruct (m w) as [[a | e] w1]; [ eauto | done ].
Qed.

Lemma ret_ok_inv {A} (a b : A) w w' :
  (mret a : M A) w = (Ok b, w') → a = b ∧ w = w'.
Proof. by intros [= -> ->]. Qed.

(** Unfolds the plumbing of the monad in the goal. *)
Ltac run_monad :=
  cbv [mbind M_bind mret M_ret throw defined library get_this get_world
       put_this update_this logger_error participant store_key
       init_participant set_this set_logged getRandomValues set_drawn];
  cbn [fst snd this global_pubCu25519 global_pubEd25519 now entropy drawn
       logged].

(** Runs the binds at the head of the run in [H]. *)
Ltac run_in H :=
  repeat (progress (rewrite ?run_bind, ?run_ret in H; cbv beta iota in H)).

(** One step of a proof that a method preserves a relation: [leaf] closes
    the calls that are particular to the relation, the rest is the
    structure of the method. *)
Ltac preserves_step leaf :=
  first
    [ leaf
    | apply preserves_ret; apply _
    | apply preserves_throw; apply _
    | apply preserves_get_world; apply _
    | apply preserves_get_this; apply _
    | apply preserves_library; apply _
    | apply preserves_defined; apply _
    | apply preserves_bind; [ apply _ | | intros ? ]
    | match goal with
      | |- preserves _ (if ?b then _ else _) => destruct b
      | |- preserves _ (match ?x with _ => _ end) => destruct x
      | |- preserves _ (let '(_, _) := ?x in _) => destruct x
      end ].

(** Closes an equation between closed terms by evaluating both sides. *)
Ltac by_evaluation :=
  lazymatch goal with
  | |- @eq ?T _ ?r => vm_cast_no_check (@eq_refl T r)
  end.

End Run.

(** ** What [decryptFrom] leaves alone *)

Module Frame.
Import strongvelope Spec Run.

#[export] Instance sending_state_kept_preorder sender :
  PreOrder (sending_state_kept sender).
Proof.
  split.
  - intros w. split; first [ reflexivity | intros; reflexivity ].
  - intros w1 w2 w3 H12 H23.
    split;
      lazymatch goal with
      | |- ∀ _, _ =>
          intros handle Hne;
          rewrite (kept_participantKeys _ _ _ H23 handle Hne);
          apply (kept_participantKeys _ _ _ H12 handle Hne)
      | _ => etrans; [ apply H23 | apply H12 ]
      end.
Qed.

Section frame.
Context `{Primitives} (sender : jsstring).

#[local] Abbreviation kept := (preserves (sending_state_kept sender)).

Lemma kept_logger_error entry : kept (logger_error entry).
Proof. intros w. split; first [ reflexivity | intros; reflexivity ]. Qed.

Lemma kept_init_participant : kept (init_participant sender).
Proof.
  intros w. run_monad.
  case_bool_decide; split; cbn; try reflexivity;
    intros handle Hne; by rewrite ?lookup_insert_ne.
Qed.

Lemma kept_store_key id key : kept (store_key sender id key).
Proof.
  intros w. run_monad.
  destruct (participantKeys (this w) !! sender); split; cbn; try reflexivity;
    intros handle Hne; by rewrite ?lookup_insert_ne.
Qed.

Lemma kept_participant handle : kept (participant handle).
Proof.
  apply preserves_bind; [ apply _ | apply preserves_get_this, _ | ].
  intros h. apply preserves_defined, _.
Qed.

(** One step of a proof that a method keeps the sending state. *)
Ltac kept_step :=
  preserves_step
    ltac:(first [ apply kept_logger_error
                | apply kept_init_participant
                | apply kept_store_key
                | apply kept_participant ]).

Lemma kept_parse_records fuel rest lastTlvType parsedContent :
  kept (parse_records fuel rest lastTlvType parsedContent).
Proof.
  revert rest lastTlvType parsedContent.
  induction fuel as [ | fuel IH ]; intros rest lastTlvType parsedContent;
    cbn [parse_records]; [ kept_step | ].
  repeat kept_step. apply IH.
Qed.

Lemma kept_parseMessageContent message : kept (_parseMessageContent message).
Proof.
  unfold _parseMessageContent.
  kept_step; [ apply kept_parse_records | ]. repeat kept_step.
Qed.

Lemma kept_computeSymmetricKey userhandle : kept (_computeSymmetricKey userhandle).
Proof. unfold _computeSymmetricKey. repeat kept_step. Qed.

Lemma kept_decryptKeysFor encryptedKeys nonce otherParty iAmSender :
  kept (_decryptKeysFor encryptedKeys nonce otherParty iAmSender).
Proof.
  unfold _decryptKeysFor.
  repeat first [ apply kept_computeSymmetricKey | kept_step ].
Qed.

Lemma kept_cache_sender_keys keyIds i decryptedKeys :
  kept (cache_sender_keys sender keyIds i decryptedKeys).
Proof.
  revert i. induction decryptedKeys as [ | k ks IH ]; intros i;
    cbn [cache_sender_keys]; [ kept_step | ].
  repeat kept_step. apply IH.
Qed.

Lemma kept_symmetricDecryptMessage cipher key nonce :
  kept (_symmetricDecryptMessage cipher key nonce).
Proof. unfold _symmetricDecryptMessage. repeat kept_step. Qed.

Lemma kept_verifyMessage message signature pubKey :
  kept (_verifyMessage message signature pubKey).
Proof. unfold _verifyMessage. repeat kept_step. Qed.

Lemma kept_get_sender_key parsedMessage :
  kept (get_sender_key parsedMessage sender).
Proof.
  unfold get_sender_key.
  repeat first
    [ apply kept_decryptKeysFor
    | apply kept_cache_sender_keys
    | kept_step ].
Qed.

Lemma kept_decryptFrom message : kept (decryptFrom message sender).
Proof.
  unfold decryptFrom.
  kept_step; [ apply kept_parseMessageContent | ].
  repeat first
    [ apply kept_verifyMessage
    | apply kept_get_sender_key
    | apply kept_symmetricDecryptMessage
    | kept_step ].
Qed.

End frame.

(** C10. [decryptFrom] never modifies the handler's own sending state:
    whatever the message and the sender, and whether the call returns a
    message, returns [false] or raises, afterwards [keyId],
    [previousKeyId], [_sentKeyId], the counter of encryptions, the own
    handle and the key fields of the handler are what they were, and so
    are the entries of [participantKeys] of every participant other than
    the sender of the message. *)
Theorem decryptFrom_keeps_sending_state `{Primitives}
    (message sender : jsstring) (w : World) :
  sending_state_kept sender w (decryptFrom message sender w).2.
Proof. apply kept_decryptFrom. Qed.

End Frame.
(** ** The parser *)

Module Parser.
Import strongvelope Spec Run.

(** The codec takes off a stream the record that was put on it. *)
Lemma split_toTlvRecord tlvType value rest :
  Z.of_nat (length value) < 65536 →
  tlvstore.splitSingleTlvRecord (tlvstore.toTlvRecord [tlvType] value ++ rest)
  = Some {| tlvstore.record := ([tlvType], value); tlvstore.rest := rest |}.
Proof.
  intros Hlen. unfold tlvstore.toTlvRecord, tlvstore.splitSingleTlvRecord.
  cbn [app].
  assert (Z.of_nat (length value) / 256 mod 256 * 256
          + Z.of_nat (length value) mod 256 = Z.of_nat (length value)) as ->
    by (Z.div_mod_to_equations; lia).
  rewrite Nat2Z.id.
  rewrite decide_True by (rewrite length_app; lia).
  by rewrite take_app_length, drop_app_length.
Qed.

Lemma length_toTlvRecord key value :
  length (tlvstore.toTlvRecord key value) = (length key + 2 + length value)%nat.
Proof. unfold tlvstore.toTlvRecord. rewrite !length_app. cbn. lia. Qed.

Lemma ascending_from_Sorted last types :
  ascending_from last types = true → Sorted Z.le types.
Proof.
  revert last. induction types as [ | t types IH ]; intros last; cbn.
  - constructor.
  - intros [Hle Hrest]%andb_prop. constructor; [ by eapply IH | ].
    destruct types as [ | t' types ]; constructor.
    cbn in Hrest. apply andb_prop in Hrest as [Hle' _].
    by apply bool_decide_eq_true in Hle'.
Qed.

Section parser.
Context `{Primitives}.

(** The loop of the parser on a well-formed stream: it stops with
    [false] and one log entry at the first type code that goes down, and
    otherwise collects every record. *)
Lemma parse_records_encode records fuel last parsedContent w :
  Forall fits_record records →
  (length (encode_records records) ≤ fuel)%nat →
  parse_records fuel (encode_records records) (Num last) parsedContent w
  = if ascending_from last records.*1
    then (Ok (Some (store_records records parsedContent)), w)
    else (Ok None, after_logging [UnexpectedTlvType] w).
Proof.
  intros Hfit. revert fuel last parsedContent.
  induction Hfit as [ | [tlvType value] records [_ Hlen] _ IH ];
    intros fuel last parsedContent Hfuel.
  - destruct fuel; reflexivity.
  - cbn [encode_records] in *. cbn [fst snd] in Hlen.
    rewrite length_app, length_toTlvRecord in Hfuel. cbn in Hfuel.
    destruct fuel as [ | fuel ]; [ lia | ]. cbn [parse_records].
    rewrite bool_decide_eq_true_2
      by (rewrite length_app, length_toTlvRecord; cbn; lia).
    rewrite split_toTlvRecord by done.
    cbn [tlvstore.record tlvstore.rest fst snd Js.charCodeAt lookup list_lookup].
    cbn [fmap list_fmap ascending_from fst].
    unfold js_lt. case_bool_decide as Hlt.
    + rewrite bool_decide_eq_false_2 by lia. reflexivity.
    + rewrite bool_decide_eq_true_2 by lia. cbn [andb].
      apply IH. lia.
Qed.

End parser.
End Parser.

Module Ordering.
Import strongvelope Spec Run Parser.

Lemma after_logging_app entries entries' w :
  after_logging entries' (after_logging entries w)
  = after_logging (entries ++ entries') w.
Proof. unfold after_logging, set_logged. cbn. by rewrite app_assoc. Qed.

(** C7. [decryptFrom] fails as on a malformed message (it returns
    [false] after the errors 'Received unexpected TLV type.' and
    'Incoming message not usable.', and changes nothing else) on every
    wire message whose record type codes are not in non-decreasing
    order; a message with KEY_IDS (6) before NONCE (3) is one. *)
Theorem decryptFrom_rejects_descending_types `{Primitives}
    (version : Z) (records : list (Z * jsstring)) (sender : jsstring) (w : World) :
  Forall fits_record records →
  ¬ Sorted Z.le records.*1 →
  decryptFrom (wire_message version records) sender w
  = (Ok RFalse, after_logging [UnexpectedTlvType; MessageNotUsable] w).
Proof.
  intros Hfit Hunsorted.
  unfold decryptFrom, _parseMessageContent, wire_message.
  cbn [Js.substring_from drop].
  rewrite !run_bind, !drop_0, parse_records_encode by done.
  destruct (ascending_from (-1) records.*1) eqn:Hasc.
  { destruct Hunsorted. by eapply ascending_from_Sorted. }
  rewrite run_ret. run_monad. unfold after_logging, set_logged. cbn.
  by rewrite <- app_assoc.
Qed.

Lemma decryptFrom_rejects_descending_types_witness :
  decryptFrom (H := Toy.primitives)
    Scenario.key_ids_before_nonce Scenario.handleA Scenario.worldB
  = (Ok RFalse,
     after_logging [UnexpectedTlvType; MessageNotUsable] Scenario.worldB).
Proof.
  apply (decryptFrom_rejects_descending_types (H := Toy.primitives)
           0 Scenario.key_ids_before_nonce_records).
  - repeat (apply Forall_cons; split); try apply Forall_nil;
      unfold fits_record; cbn; unfold TLV_TYPES.MESSAGE_TYPE,
        TLV_TYPES.KEY_IDS, TLV_TYPES.NONCE; lia.
  - intros Hs. apply Sorted_inv in Hs as [Hs _].
    apply Sorted_inv in Hs as [_ Hle]. apply HdRel_inv in Hle.
    cbn in Hle. unfold TLV_TYPES.KEY_IDS, TLV_TYPES.NONCE in Hle. lia.
Defined.

(** C8 fails on the code: the parser only rejects a type code that goes
    down, so a record type other than RECIPIENT and KEYS may repeat.  A
    message with two NONCE records is parsed without complaint, the
    second nonce replacing the first. *)
Theorem parser_accepts_repeated_nonce `{Primitives} (w : World) :
  ∃ parsedContent,
    _parseMessageContent Scenario.nonce_twice w = (Ok (Some parsedContent), w)
    ∧ nonce parsedContent
      = Some [21; 22; 23; 24; 25; 26; 27; 28; 29; 30; 31; 32].
Proof. eexists. split; reflexivity. Qed.

End Ordering.

(** ** Derivation of key IDs *)

Module Derivation.
Import strongvelope Spec Run KeyIdFacts.

Lemma updateSenderKey_keyId (w : World) :
  keyId (this (_updateSenderKey w).2)
  = Some (nextKeyId (now w / _ONE_DAY) (keyId (this w))).
Proof.
  unfold _updateSenderKey, _dateStampNow, getRandomValues. run_monad.
  destruct (Js.truthy (keyId (this w))); cbn;
    destruct (participantKeys (this w) !! ownHandle (this w)); reflexivity.
Qed.

Lemma nextKeyId_split (day : Z) (previous : option jsstring) :
  0 ≤ day < 65536 →
  _splitKeyId (nextKeyId day previous)
  = match previous with
    | Some (c :: k) =>
        let '(previousDay, previousCounter) := _splitKeyId (c :: k) in
        if decide (previousDay = day)
        then (day, (previousCounter + 1) mod 65536)
        else (day, 0)
    | _ => (day, 0)
    end.
Proof.
  intros Hday. unfold nextKeyId, nextKeyIdComponents.
  destruct previous as [ [ | c k ] | ]; cbn [Js.truthy Js.null_key];
    [ cbv beta iota; by rewrite split_encode by lia |
    | cbv beta iota; by rewrite split_encode by lia ].
  pose proof (split_range (c :: k)) as [Hd Hc].
  destruct (_splitKeyId (c :: k)) as [previousDay previousCounter].
  cbn [fst snd] in *.
  destruct (decide (day ≠ previousDay)) as [Hne | Heq].
  - rewrite decide_False by congruence. cbv beta iota.
    by rewrite split_encode by lia.
  - apply dec_stable in Heq. subst previousDay. rewrite decide_True by done.
    rewrite counter_step by done. cbv beta iota.
    rewrite split_encode; [ done | lia | apply Z.mod_pos_bound; lia ].
Qed.

(** C9, as amended.  On a day whose number fits the 16 bits of a key
    ID, the new key ID is a function of the current day and the previous
    key ID alone ([nextKeyId]): with no previous key it is [(day, 0)];
    if the day of the previous key ID is not the current day it is
    [(day, 0)]; otherwise it is [(day, (counter + 1) mod 65536)].  So two
    derivations on one day give counters [n] and [n + 1], and a new day
    starts at 0 again. *)
Theorem new_key_id_derivation (w : World) :
  0 ≤ now w / _ONE_DAY < 65536 →
  ∃ newKeyId,
    keyId (this (_updateSenderKey w).2) = Some newKeyId
    ∧ newKeyId = nextKeyId (now w / _ONE_DAY) (keyId (this w))
    ∧ _splitKeyId newKeyId
      = match keyId (this w) with
        | Some (c :: k) =>
            let '(previousDay, previousCounter) := _splitKeyId (c :: k) in
            if decide (previousDay = now w / _ONE_DAY)
            then (now w / _ONE_DAY, (previousCounter + 1) mod 65536)
            else (now w / _ONE_DAY, 0)
        | _ => (now w / _ONE_DAY, 0)
        end.
Proof.
  intros Hday. eexists. split; [ apply updateSenderKey_keyId | ].
  split; [ reflexivity | by apply nextKeyId_split ].
Qed.

Lemma new_key_id_derivation_witness :
  ∃ newKeyId,
    keyId (this (_updateSenderKey Scenario.keyedA).2) = Some newKeyId
    ∧ newKeyId = nextKeyId 20394 (Some [79; 170; 0; 0])
    ∧ _splitKeyId newKeyId = (20394, 1).
Proof.
  apply (new_key_id_derivation Scenario.keyedA). vm_compute.
  split; [ discriminate | reflexivity ].
Defined.

(** C9 fails on the code from day 65536 on, which the 16 bits of the
    date stamp do not hold.  On day 70000 the first key ID of a handler
    has the date stamp 4464 instead of the day; the next derivation on
    that day finds another day in the previous key ID and starts at
    counter 0 again, so that it gives the same key ID a second time. *)
Lemma key_ids_from_day_65536 :
  let first := (_updateSenderKey Scenario.lateA).2 in
  let second := (_updateSenderKey first).2 in
  now Scenario.lateA / _ONE_DAY = 70000
  ∧ keyId (this Scenario.lateA) = None
  ∧ _splitKeyId <$> keyId (this first) = Some (4464, 0)
  ∧ now first / _ONE_DAY = 70000
  ∧ _splitKeyId <$> keyId (this second) = Some (4464, 0)
  ∧ keyId (this second) = keyId (this first).
Proof. cbv zeta. split_and!; by_evaluation. Qed.

End Derivation.

(** ** The cache of sender keys *)

Module Cache.
Import strongvelope Spec Run.

Lemma set_cache_id handle cached w :
  participantKeys (this w) !! handle = Some cached → set_cache handle cached w = w.
Proof.
  intros Hc. destruct w as [h ? ? ? ? ? ?]. destruct h. cbn in *.
  unfold set_cache, set_this, set_participantKeys. cbn.
  by rewrite insert_id.
Qed.

Lemma set_cache_set_cache handle cached cached' w :
  set_cache handle cached' (set_cache handle cached w) = set_cache handle cached' w.
Proof.
  unfold set_cache, set_this, set_participantKeys. cbn.
  by rewrite insert_insert_eq.
Qed.

Lemma set_cache_lookup handle cached w :
  participantKeys (this (set_cache handle cached w)) !! handle = Some cached.
Proof. cbn. apply lookup_insert_eq. Qed.

Lemma after_logging_set_cache entries handle cached w :
  after_logging entries (set_cache handle cached w)
  = set_cache handle cached (after_logging entries w).
Proof. reflexivity. Qed.

Lemma store_key_run sender id key cached w :
  participantKeys (this w) !! sender = Some cached →
  store_key sender id key w = (Ok tt, set_cache sender (Js.js_assign cached id key) w).
Proof. intros Hc. run_monad. rewrite Hc. reflexivity. Qed.

(** The loop of [decryptFrom] does to the world what [write_keys] does
    to the cache of the sender, and logs the conflict that stops it. *)
Lemma cache_sender_keys_run sender keyIds decryptedKeys i cached w :
  participantKeys (this w) !! sender = Some cached →
  cache_sender_keys sender keyIds i decryptedKeys w
  = let '(consistent, cached') := write_keys keyIds i decryptedKeys cached in
    if consistent then (Ok true, set_cache sender cached' w)
    else (Ok false, after_logging [MismatchingSenderKey] (set_cache sender cached' w)).
Proof.
  revert i cached w.
  induction decryptedKeys as [ | k ks IH ]; intros i cached w Hc;
    cbn [cache_sender_keys write_keys].
  - by rewrite set_cache_id.
  - unfold participant. rewrite !run_bind. cbn [get_this]. rewrite Hc.
    cbn [defined]. rewrite run_ret.
    destruct (Js.truthy (cached !! Js.undefined_key (keyIds !! i))
              && bool_decide (cached !! Js.undefined_key (keyIds !! i) ≠ Some k)).
    + rewrite set_cache_id by done. reflexivity.
    + rewrite run_bind, (store_key_run _ _ _ cached) by done.
      cbn [Js.js_assign].
      rewrite (IH _ (<[Js.undefined_key (keyIds !! i) := k]> cached))
        by apply set_cache_lookup.
      destruct (write_keys keyIds (S i) ks _) as [[] cached'];
        by rewrite set_cache_set_cache.
Qed.

(** [write_keys] never touches a non-empty binding. *)
Lemma write_keys_kept keyIds decryptedKeys i cached id key :
  key ≠ [] → cached !! id = Some key →
  (write_keys keyIds i decryptedKeys cached).2 !! id = Some key.
Proof.
  intros Hkey. revert i cached.
  induction decryptedKeys as [ | k ks IH ]; intros i cached Hc;
    cbn [write_keys]; [ done | ].
  destruct (Js.truthy (cached !! Js.undefined_key (keyIds !! i))
            && bool_decide (cached !! Js.undefined_key (keyIds !! i) ≠ Some k))
    eqn:Hconflict; [ done | ].
  apply IH. destruct (decide (Js.undefined_key (keyIds !! i) = id)) as [Heq | Hne].
  - rewrite Heq in *. rewrite Hc in Hconflict. destruct key as [ | c key ]; [ done | ].
    cbn in Hconflict. case_bool_decide as Hk; [ done | ].
    injection Hk as <-. apply lookup_insert_eq.
  - by rewrite lookup_insert_ne.
Qed.

(** When [write_keys] runs to its end, the first key is bound to the
    first key ID. *)
Lemma write_keys_first keyIds k ks cached cached' :
  k ≠ [] →
  write_keys keyIds 0 (k :: ks) cached = (true, cached') →
  cached' !! Js.undefined_key (keyIds !! 0%nat) = Some k.
Proof.
  intros Hk. cbn [write_keys].
  destruct (Js.truthy (cached !! Js.undefined_key (keyIds !! 0%nat))
            && bool_decide (cached !! Js.undefined_key (keyIds !! 0%nat) ≠ Some k));
    [ done | ].
  intros Hw.
  pose proof (write_keys_kept keyIds ks 1
                (<[Js.undefined_key (keyIds !! 0%nat) := k]> cached)
                (Js.undefined_key (keyIds !! 0%nat)) k Hk
                (lookup_insert_eq _ _ _)) as Hkept.
  by rewrite Hw in Hkept.
Qed.

End Cache.

(** ** Methods that only log *)

Module Logs.
Import strongvelope Spec Run.

Lemma after_logging_nil w : after_logging [] w = w.
Proof.
  destruct w. unfold after_logging, set_logged. cbn. by rewrite app_nil_r.
Qed.

Lemma after_logging_after_logging entries entries' w :
  after_logging entries' (after_logging entries w)
  = after_logging (entries ++ entries') w.
Proof. unfold after_logging, set_logged. cbn. by rewrite app_assoc. Qed.

#[export] Instance only_logged_preorder : PreOrder only_logged.
Proof.
  split.
  - intros w. exists []. by rewrite after_logging_nil.
  - intros w1 w2 w3 [l1 ->] [l2 ->]. exists (l1 ++ l2).
    apply after_logging_after_logging.
Qed.

Section logs.
Context `{Primitives}.

#[local] Abbreviation logs := (preserves only_logged).

Lemma logs_logger_error entry : logs (logger_error entry).
Proof. intros w. by exists [entry]. Qed.

(** One step of a proof that a method only logs. *)
Ltac logs_step := preserves_step ltac:(apply logs_logger_error).

Lemma logs_parse_records fuel rest lastTlvType parsedContent :
  logs (parse_records fuel rest lastTlvType parsedContent).
Proof.
  revert rest lastTlvType parsedContent.
  induction fuel as [ | fuel IH ]; intros rest lastTlvType parsedContent;
    cbn [parse_records]; [ logs_step | ].
  repeat logs_step. apply IH.
Qed.

Lemma logs_parseMessageContent message : logs (_parseMessageContent message).
Proof.
  unfold _parseMessageContent.
  logs_step; [ apply logs_parse_records | ]. repeat logs_step.
Qed.

Lemma logs_computeSymmetricKey userhandle : logs (_computeSymmetricKey userhandle).
Proof. unfold _computeSymmetricKey. repeat logs_step. Qed.

Lemma logs_decryptKeysFor encryptedKeys nonce otherParty iAmSender :
  logs (_decryptKeysFor encryptedKeys nonce otherParty iAmSender).
Proof.
  unfold _decryptKeysFor.
  repeat first [ apply logs_computeSymmetricKey | logs_step ].
Qed.

Lemma logs_symmetricDecryptMessage cipher key nonce :
  logs (_symmetricDecryptMessage cipher key nonce).
Proof. unfold _symmetricDecryptMessage. repeat logs_step. Qed.

Lemma logs_verifyMessage message signature pubKey :
  logs (_verifyMessage message signature pubKey).
Proof. unfold _verifyMessage. repeat logs_step. Qed.

End logs.

(** The result of a run that only logs, in terms of the entries. *)
Lemma logs_run {A} (m : M A) w :
  preserves only_logged m → ∃ entries, (m w).2 = after_logging entries w.
Proof. intros Hm. apply Hm. Qed.

End Logs.

(** ** Bindings of the cache that stay *)

Module Bindings.
Import strongvelope Spec Run Cache Logs.

#[export] Instance bindings_kept_preorder : PreOrder bindings_kept.
Proof.
  split.
  - by intros w handle id key.
  - intros w1 w2 w3 H12 H23 handle id key Hk Hc. by apply H23, H12.
Qed.

Lemma bindings_kept_same_this w w' : this w' = this w → bindings_kept w w'.
Proof. intros Heq handle id key _. unfold cached_key. by rewrite Heq. Qed.

Lemma bindings_kept_only_logged w w' : only_logged w w' → bindings_kept w w'.
Proof. intros [entries ->]. by apply bindings_kept_same_this. Qed.

(** A chunk of a non-empty piece size is never empty. *)
Lemma chunks_go_nonempty fuel n s :
  (0 < n)%nat → Forall (λ k, k ≠ []) (Js.chunks_go fuel n s).
Proof.
  intros Hn. revert s. induction fuel as [ | fuel IH ]; intros s;
    cbn [Js.chunks_go]; [ constructor | ].
  destruct s as [ | c s ]; constructor; [ | apply IH ].
  destruct n; [ lia | done ].
Qed.

Section bindings.
Context `{Primitives}.

Lemma decryptKeysFor_nonempty encryptedKeys nonce otherParty iAmSender w keys w' :
  _decryptKeysFor encryptedKeys nonce otherParty iAmSender w = (Ok keys, w') →
  Forall (λ k, k ≠ []) keys.
Proof.
  unfold _decryptKeysFor. intros Hrun.
  apply bind_ok_inv in Hrun as (h & w0 & _ & Hrun).
  apply bind_ok_inv in Hrun as (receiver & w1 & _ & Hrun).
  apply bind_ok_inv in Hrun as (symmetricKey & w2 & _ & Hrun).
  apply bind_ok_inv in Hrun as (clear & w3 & _ & Hrun).
  apply bind_ok_inv in Hrun as ([] & w4 & _ & Hrun).
  apply ret_ok_inv in Hrun as [<- _].
  apply chunks_go_nonempty. unfold KEY_SIZE. lia.
Qed.

(** The block that gets the sender key of a message with a KEYS record:
    decrypt the keys, then do to the cache of the sender what
    [write_keys] says, then bind the first key ID to the first key. *)
Lemma get_sender_key_keyed_run parsedMessage sender encryptedKeys rest w :
  keys parsedMessage = encryptedKeys :: rest →
  get_sender_key parsedMessage sender w
  = let isOwnMessage := bool_decide (sender = ownHandle (this w)) in
    let otherHandle :=
      if isOwnMessage then recipients parsedMessage !! 0%nat else Some sender in
    match _decryptKeysFor encryptedKeys (nonce parsedMessage)
                          otherHandle isOwnMessage w with
    | (Throw e, w1) => (Throw e, w1)
    | (Ok decryptedKeys, w1) =>
        let cached := default ∅ (participantKeys (this w1) !! sender) in
        let written := write_keys (keyIds parsedMessage) 0 decryptedKeys cached in
        if written.1 then
          (Ok (Some (decryptedKeys !! 0%nat)),
           set_cache sender
             (Js.js_assign written.2
                (Js.undefined_key (keyIds parsedMessage !! 0%nat))
                (decryptedKeys !! 0%nat)) w1)
        else
          (Ok None,
           after_logging [MismatchingSenderKey] (set_cache sender written.2 w1))
    end.
Proof.
  intros Hkeys. unfold get_sender_key. rewrite Hkeys.
  rewrite run_bind. cbn [get_this]. rewrite run_bind.
  cbv zeta.
  destruct (_decryptKeysFor _ _ _ _ w) as [[decryptedKeys | e] w1]; [ | done ].
  rewrite run_bind.
  assert (∃ w2, init_participant sender w1 = (Ok tt, w2)
                ∧ w2 = set_cache sender
                         (default ∅ (participantKeys (this w1) !! sender)) w1
                ∧ participantKeys (this w2) !! sender
                  = Some (default ∅ (participantKeys (this w1) !! sender)))
    as (w2 & -> & Hw2 & Hc).
  { run_monad. case_bool_decide as Hnone.
    - rewrite Hnone. eexists. split; [ reflexivity | ].
      split; [ reflexivity | apply lookup_insert_eq ].
    - destruct (participantKeys (this w1) !! sender) as [cached | ] eqn:Hl;
        [ | done ].
      exists w1. split; [ reflexivity | ]. cbn [default].
      by rewrite set_cache_id. }
  rewrite run_bind, (cache_sender_keys_run _ _ _ _ _ _ Hc).
  destruct (write_keys _ _ _ _) as [[] cached']; cbn [fst snd].
  - rewrite run_bind.
    rewrite (store_key_run _ _ _ cached') by apply set_cache_lookup.
    rewrite run_ret, Hw2, !set_cache_set_cache. reflexivity.
  - rewrite run_ret, Hw2, !set_cache_set_cache. reflexivity.
Qed.

Lemma bindings_kept_set_cache sender cached w :
  (∀ id key, key ≠ [] → cached_key w sender id = Some key →
             cached !! id = Some key) →
  bindings_kept w (set_cache sender cached w).
Proof.
  intros Hc handle id key Hk Hb. unfold cached_key. cbn.
  destruct (decide (handle = sender)) as [-> | Hne].
  - rewrite lookup_insert_eq. cbn. by apply Hc.
  - by rewrite lookup_insert_ne.
Qed.

(** However the block ends, unless it yields an undefined key, the
    non-empty bindings of the cache are still there. *)
Lemma get_sender_key_kept parsedMessage sender w r w' :
  get_sender_key parsedMessage sender w = (Ok r, w') →
  r ≠ Some None →
  bindings_kept w w'.
Proof.
  destruct (keys parsedMessage) as [ | encryptedKeys rest ] eqn:Hkeys.
  - unfold get_sender_key. rewrite Hkeys. run_monad.
    destruct (Js.truthy _); intros [= <- <-] _; by apply bindings_kept_same_this.
  - rewrite (get_sender_key_keyed_run _ _ _ _ _ Hkeys). cbv zeta.
    destruct (_decryptKeysFor _ _ _ _ w) as [[decryptedKeys | e] w1] eqn:Hd;
      [ | done ].
    pose proof (decryptKeysFor_nonempty _ _ _ _ _ _ _ Hd) as Hne.
    destruct (logs_run _ w (logs_decryptKeysFor encryptedKeys
                (nonce parsedMessage)
                (if bool_decide (sender = ownHandle (this w))
                 then recipients parsedMessage !! 0%nat else Some sender)
                (bool_decide (sender = ownHandle (this w)))))
      as [entries Hw1].
    rewrite Hd in Hw1. cbn [snd] in Hw1. subst w1.
    destruct (write_keys _ _ _ _) as [consistent cached'] eqn:Hw.
    cbn [fst snd].
    assert (∀ id key, key ≠ [] →
              cached_key (after_logging entries w) sender id = Some key →
              cached' !! id = Some key) as Hkept.
    { intros id key Hk Hb.
      pose proof (write_keys_kept (keyIds parsedMessage) decryptedKeys 0
                    (default ∅ (participantKeys (this (after_logging entries w))
                                !! sender)) id key Hk) as Hwk.
      rewrite Hw in Hwk. apply Hwk. unfold cached_key in Hb.
      by destruct (participantKeys _ !! sender). }
    destruct consistent.
    + intros [= <- <-] Hr.
      destruct decryptedKeys as [ | k ks ]; [ done | ].
      apply Forall_cons in Hne as [Hk _]. cbn [lookup list_lookup Js.js_assign].
      rewrite insert_id by (by eapply write_keys_first).
      etrans; [ apply bindings_kept_only_logged; by eexists | ].
      by apply bindings_kept_set_cache.
    + intros [= <- <-] _.
      etrans; [ apply bindings_kept_only_logged; by eexists | ].
      etrans; [ by apply bindings_kept_set_cache | ].
      by apply bindings_kept_same_this.
Qed.

End bindings.
End Bindings.

(** ** Failing calls of [decryptFrom] *)

Module Failures.
Import strongvelope Spec Run Cache Logs Bindings.

Lemma logs_of_run {A} (m : M A) w r w' :
  preserves only_logged m → m w = (r, w') → only_logged w w'.
Proof. intros Hm Hrun. specialize (Hm w). by rewrite Hrun in Hm. Qed.

Section failures.
Context `{Primitives}.

Lemma symmetricDecryptMessage_key cipher key nonce w r w' :
  _symmetricDecryptMessage cipher key nonce w = (Ok r, w') → key ≠ None.
Proof. by destruct key. Qed.

(** A call of [decryptFrom] that returns, with a message or with
    [false], has left every non-empty binding of the cache in place. *)
Lemma decryptFrom_returns_kept message sender w r w' :
  decryptFrom message sender w = (Ok r, w') → bindings_kept w w'.
Proof.
  unfold decryptFrom. intros Hrun.
  apply bind_ok_inv in Hrun as (parsed & w1 & Hparse & Hrun).
  apply logs_of_run in Hparse; [ | apply logs_parseMessageContent ].
  etrans; [ by apply bindings_kept_only_logged | ]. clear Hparse.
  destruct parsed as [parsedMessage | ].
  { case_bool_decide.
    { apply bindings_kept_only_logged. eapply logs_of_run; [ | exact Hrun ].
      apply preserves_bind; [ apply _ | apply logs_logger_error | ].
      intros. apply preserves_ret, _. }
    apply bind_ok_inv in Hrun as (w1' & w2 & [= <- <-] & Hrun).
    apply bind_ok_inv in Hrun as (verified & w3 & Hverify & Hrun).
    apply logs_of_run in Hverify; [ | apply logs_verifyMessage ].
    etrans; [ by apply bindings_kept_only_logged | ]. clear Hverify.
    destruct verified; cbn [negb] in Hrun.
    - apply bind_ok_inv in Hrun as (senderKey & w4 & Hget & Hrun).
      destruct senderKey as [senderKey | ].
      + apply bind_ok_inv in Hrun as (cleartext & w5 & Hdecrypt & Hrun).
        pose proof (symmetricDecryptMessage_key _ _ _ _ _ _ Hdecrypt) as Hkey.
        apply logs_of_run in Hdecrypt; [ | apply logs_symmetricDecryptMessage ].
        etrans; [ eapply get_sender_key_kept; [ exact Hget | congruence ] | ].
        etrans; [ by apply bindings_kept_only_logged | ].
        destruct cleartext; apply ret_ok_inv in Hrun as [_ <-]; reflexivity.
      + apply ret_ok_inv in Hrun as [_ <-].
        eapply get_sender_key_kept; [ exact Hget | done ].
    - apply bindings_kept_only_logged. eapply logs_of_run; [ | exact Hrun ].
      apply preserves_bind; [ apply _ | apply logs_logger_error | ].
      intros. apply preserves_ret, _. }
  apply bindings_kept_only_logged. eapply logs_of_run; [ | exact Hrun ].
  apply preserves_bind; [ apply _ | apply logs_logger_error | ].
  intros. apply preserves_ret, _.
Qed.

End failures.

(** C5, as amended.  A call of [decryptFrom] that fails with a key
    conflict (or returns [false] for any other reason) checks each key
    just before it writes it: every non-empty binding that the cache
    held before the call is still there, with the same value,
    afterwards.  The keys of the message that come before the
    conflicting one are written, though. *)
Theorem failing_decryptFrom_keeps_bindings `{Primitives}
    (message sender : jsstring) (w w' : World) :
  decryptFrom message sender w = (Ok RFalse, w') → bindings_kept w w'.
Proof. apply decryptFrom_returns_kept. Qed.

Lemma failing_decryptFrom_keeps_bindings_witness :
  bindings_kept Scenario.heardOther
    (decryptFrom (H := Toy.primitives) (Scenario.sent Scenario.seventeenth)
       Scenario.handleA Scenario.heardOther).2.
Proof.
  apply (failing_decryptFrom_keeps_bindings (H := Toy.primitives)
           (Scenario.sent Scenario.seventeenth) Scenario.handleA
           Scenario.heardOther
           (decryptFrom (H := Toy.primitives)
              (Scenario.sent Scenario.seventeenth) Scenario.handleA
              Scenario.heardOther).2).
  by_evaluation.
Defined.

(** C5 fails on the code: the rotation message of "A" reaches "B", who
    holds another key under the previous key ID of "A".  The call fails
    on the conflict, at the second key of the message, and has bound the
    first key by then. *)
Lemma key_conflict_after_write :
  let before := Scenario.heardOther in
  let run := decryptFrom (H := Toy.primitives)
               (Scenario.sent Scenario.seventeenth) Scenario.handleA before in
  run.1 = Ok RFalse
  ∧ logged run.2 = [MismatchingSenderKey]
  ∧ cached_key before Scenario.handleA Scenario.keyId1 = None
  ∧ cached_key run.2 Scenario.handleA Scenario.keyId1
    = Some [179; 186; 193; 200; 207; 214; 221; 228; 235; 242; 249; 0; 7; 14;
            21; 28]
  ∧ cached_key Scenario.afterSeventeen Scenario.handleA Scenario.keyId1
    = Some [179; 186; 193; 200; 207; 214; 221; 228; 235; 242; 249; 0; 7; 14;
            21; 28].
Proof. cbv zeta. split_and!; by_evaluation. Qed.

(** C4 fails on the code: "B" holds the sender key of "A" and receives a
    message signed by "A" whose KEYS record is empty.  The list of
    decrypted keys is empty, the loop that checks for conflicts has
    nothing to check, and the assignment after it binds the key ID to
    [undefined]: the key is gone, and the call ends in a [TypeError]. *)
Theorem empty_keys_record_unbinds :
  let before := Scenario.heardHello in
  let run := decryptFrom (H := Toy.primitives)
               Scenario.empty_keys Scenario.handleA before in
  cached_key before Scenario.handleA Scenario.keyId0
  = Some [3; 10; 17; 24; 31; 38; 45; 52; 59; 66; 73; 80; 87; 94; 101; 108]
  ∧ cached_key Scenario.afterHello Scenario.handleA Scenario.keyId0
    = Some [3; 10; 17; 24; 31; 38; 45; 52; 59; 66; 73; 80; 87; 94; 101; 108]
  ∧ run.1 = Throw TypeError
  ∧ cached_key run.2 Scenario.handleA Scenario.keyId0 = None.
Proof. cbv zeta. split_and!; by_evaluation. Qed.

End Failures.

(** ** What a failing call tells the caller *)

Module Causes.
Import strongvelope Spec Run Cache Logs Bindings Failures.

#[export] Instance log_grows_preorder : PreOrder log_grows.
Proof.
  split.
  - intros w. exists []. by rewrite app_nil_r.
  - intros w1 w2 w3 [l1 H1] [l2 H2]. exists (l1 ++ l2).
    by rewrite H2, H1, app_assoc.
Qed.

Lemma only_logged_log_grows w w' : only_logged w w' → log_grows w w'.
Proof. intros [entries ->]. by exists entries. Qed.

Lemma log_grows_same_logged w w' : logged w' = logged w → log_grows w w'.
Proof. intros Heq. exists []. by rewrite app_nil_r. Qed.

Lemma ends_with_cause_after w w1 w' :
  log_grows w w1 → ends_with_cause w1 w' → ends_with_cause w w'.
Proof.
  intros [l Hl] (entries & cause & Hc & Hl').
  exists (l ++ entries), cause. split; [ done | ].
  by rewrite Hl', Hl, !app_assoc.
Qed.

Lemma run_preserved {A} R (m : M A) w r w' :
  preserves R m → m w = (r, w') → R w w'.
Proof. intros Hm Hrun. specialize (Hm w). by rewrite Hrun in Hm. Qed.

Lemma logger_error_cause cause {A} (a b : A) w w' :
  (logger_error cause ≫= λ _, mret a) w = (Ok b, w') →
  failure_cause cause → ends_with_cause w w'.
Proof.
  intros [= _ <-] Hc. exists [], cause. split; [ done | reflexivity ].
Qed.

Ltac cause_logged H := eapply logger_error_cause; [ exact H | exact I ].

Section causes.
Context `{Primitives}.

#[local] Abbreviation grows := (preserves log_grows).

Lemma grows_of_logs {A} (m : M A) : preserves only_logged m → grows m.
Proof. intros Hm w. apply only_logged_log_grows, Hm. Qed.

Lemma grows_init_participant handle : grows (init_participant handle).
Proof.
  intros w. run_monad. case_bool_decide; by apply log_grows_same_logged.
Qed.

Lemma grows_store_key handle id key : grows (store_key handle id key).
Proof.
  intros w. run_monad.
  destruct (participantKeys (this w) !! handle); by apply log_grows_same_logged.
Qed.

Ltac grows_step :=
  preserves_step
    ltac:(first [ apply grows_init_participant
                | apply grows_store_key
                | apply grows_of_logs, logs_logger_error
                | apply grows_of_logs, logs_decryptKeysFor ]).

Lemma grows_cache_sender_keys sender keyIds i decryptedKeys :
  grows (cache_sender_keys sender keyIds i decryptedKeys).
Proof.
  revert i. induction decryptedKeys as [ | k ks IH ]; intros i;
    cbn [cache_sender_keys]; [ grows_step | ].
  unfold participant. repeat grows_step. apply IH.
Qed.

Lemma grows_get_sender_key parsedMessage sender :
  grows (get_sender_key parsedMessage sender).
Proof.
  unfold get_sender_key.
  repeat first [ apply grows_cache_sender_keys | grows_step ].
Qed.


Lemma get_sender_key_none parsedMessage sender w w' :
  get_sender_key parsedMessage sender w = (Ok None, w') → ends_with_cause w w'.
Proof.
  destruct (keys parsedMessage) as [ | encryptedKeys rest ] eqn:Hkeys.
  - unfold get_sender_key. rewrite Hkeys.
    intros Hrun. apply bind_ok_inv in Hrun as (h & w1 & [= <- <-] & Hrun).
    destruct (Js.truthy _); [ done | ].
    cause_logged Hrun.
  - rewrite (get_sender_key_keyed_run _ _ _ _ _ Hkeys). cbv zeta.
    destruct (_decryptKeysFor _ _ _ _ w) as [[decryptedKeys | e] w1] eqn:Hd;
      [ | done ].
    apply logs_of_run in Hd; [ | apply logs_decryptKeysFor ].
    destruct (write_keys _ _ _ _).1; [ done | ].
    intros [= <-].
    eapply ends_with_cause_after; [ by apply only_logged_log_grows | ].
    exists [], MismatchingSenderKey. split; [ done | reflexivity ].
Qed.

Lemma symmetricDecryptMessage_none cipher key nonce w w' :
  _symmetricDecryptMessage cipher key nonce w = (Ok None, w') →
  ends_with_cause w w'.
Proof.
  unfold _symmetricDecryptMessage. intros Hrun.
  apply bind_ok_inv in Hrun as (keyBytes & w1 & Hk & Hrun).
  apply (run_preserved log_grows) in Hk; [ | apply preserves_defined, _ ].
  apply bind_ok_inv in Hrun as (n & w2 & Hn & Hrun).
  apply (run_preserved log_grows) in Hn; [ | apply preserves_defined, _ ].
  apply bind_ok_inv in Hrun as (cipherBytes & w3 & Hci & Hrun).
  apply (run_preserved log_grows) in Hci; [ | apply preserves_defined, _ ].
  apply bind_ok_inv in Hrun as (clearBytes & w4 & Hcl & Hrun).
  apply (run_preserved log_grows) in Hcl; [ | apply preserves_library, _ ].
  eapply ends_with_cause_after;
    [ etrans; [ exact Hk | etrans; [ exact Hn | etrans; [ exact Hci | exact Hcl ] ] ] | ].
  destruct (utf8_decode clearBytes); [ done | ].
  cause_logged Hrun.
Qed.

End causes.

(** C6 fails on the code: a message with type codes out of order and a
    message of another protocol version fail for different causes, as
    the log shows, and [decryptFrom] returns the same value, [false],
    for both. *)
Lemma failures_return_the_same_value :
  let malformed := decryptFrom (H := Toy.primitives)
                     Scenario.key_ids_before_nonce Scenario.handleA
                     Scenario.heardHello in
  let unsupported := decryptFrom (H := Toy.primitives)
                       Scenario.version_one Scenario.handleA
                       Scenario.heardHello in
  logged malformed.2 = [UnexpectedTlvType; MessageNotUsable]
  ∧ logged unsupported.2 = [IncompatibleVersion]
  ∧ malformed.1 = Ok RFalse
  ∧ unsupported.1 = Ok RFalse
  ∧ malformed.1 = unsupported.1.
Proof. cbv zeta. split_and!; by_evaluation. Qed.

End Causes.

(** ** The first message of a new handler *)

Module FirstMessage.
Import strongvelope Spec Run.

(** Without a key ID, and with none sent, [encryptTo] takes the branch
    of the follow-up message and raises; the handler is not changed. *)
Lemma encrypt_without_key_id `{Primitives} message destination w :
  keyId (this w) = None → _sentKeyId (this w) = None →
  ∃ e w', encrypt_with_current_key message destination w = (Throw e, w')
          ∧ this w' = this w.
Proof.
  intros Hkey Hsent.
  unfold encrypt_with_current_key, _symmetricEncryptMessage, getRandomValues.
  run_monad. rewrite Hkey, Hsent. cbn [Js.null_key].
  destruct (participantKeys (this w) !! ownHandle (this w)) as [own | ];
    [ | eauto ].
  destruct (Js.truthy (own !! Js.str "null")); cbn [Js.truthy];
    repeat (case_match; try done; simplify_eq; cbn [this] in * ); eauto.
Qed.

(** C2 fails on the code for a handler that has just been constructed.
    Its [keyId] and its [_sentKeyId] are both [null], so [encryptTo]
    finds them equal and takes the branch of the follow-up message: no
    sender key is made, none is wrapped for the destination, and
    [_sentKeyId] stays [null].  No message comes out: the null key ID
    cannot be put in a KEY_IDS record, and the call raises. *)
Theorem first_encryptTo_is_not_keyed `{Primitives}
    (handle privCu privEd : jsstring) (pubEd : option jsstring)
    (message : Text) (destination : jsstring) (w : World) :
  let fresh := set_this (ProtocolHandler_new handle privCu privEd pubEd) w in
  let run := encryptTo message destination fresh in
  (∃ e, run.1 = Throw e)
  ∧ keyId (this run.2) = None
  ∧ _sentKeyId (this run.2) = None
  ∧ participantKeys (this run.2) = {[ handle := ∅ ]}.
Proof.
  cbv zeta. unfold encryptTo. rewrite run_bind. cbn [get_this set_this this].
  rewrite bool_decide_eq_false_2
    by (cbn; unfold ROTATE_KEY_EVERY; lia).
  rewrite run_bind, run_ret.
  destruct (encrypt_without_key_id message destination
              (set_this (ProtocolHandler_new handle privCu privEd pubEd) w))
    as (e & w' & Hrun & Hthis); [ reflexivity .. | ].
  rewrite Hrun. cbn [fst snd]. rewrite Hthis. cbn. eauto.
Qed.

(** The handler of "A" in the concrete conversation. *)
Lemma first_encryptTo_of_A :
  (encryptTo (H := Toy.primitives) "hello" Scenario.handleB Scenario.worldA).1
  = Throw TypeError.
Proof. by_evaluation. Qed.

End FirstMessage.

(** ** Sending *)

Module Sending.
Import strongvelope Spec Run KeyIdFacts Derivation.

(** The one-character strings of the constants. *)
Ltac char_codes :=
  change (Js.fromCharCode PROTOCOL_VERSION) with [PROTOCOL_VERSION] in *;
  change (Js.fromCharCode TLV_TYPES.SIGNATURE) with [TLV_TYPES.SIGNATURE] in *;
  change (Js.fromCharCode TLV_TYPES.MESSAGE_TYPE)
    with [TLV_TYPES.MESSAGE_TYPE] in *;
  change (Js.fromCharCode TLV_TYPES.NONCE) with [TLV_TYPES.NONCE] in *;
  change (Js.fromCharCode TLV_TYPES.RECIPIENT) with [TLV_TYPES.RECIPIENT] in *;
  change (Js.fromCharCode TLV_TYPES.KEYS) with [TLV_TYPES.KEYS] in *;
  change (Js.fromCharCode TLV_TYPES.KEY_IDS) with [TLV_TYPES.KEY_IDS] in *;
  change (Js.fromCharCode TLV_TYPES.PAYLOAD) with [TLV_TYPES.PAYLOAD] in *;
  change (Js.fromCharCode MESSAGE_TYPES.GROUP_KEYED)
    with [MESSAGE_TYPES.GROUP_KEYED] in *;
  change (Js.fromCharCode MESSAGE_TYPES.GROUP_FOLLOWUP)
    with [MESSAGE_TYPES.GROUP_FOLLOWUP] in *.

Section sending.
Context `{Primitives}.

Lemma updateSenderKey_run w :
  is_Some (participantKeys (this w) !! ownHandle (this w)) →
  _updateSenderKey w = (Ok tt, rotated w).
Proof.
  intros [own Hown]. unfold _updateSenderKey, _dateStampNow, rotated.
  run_monad. rewrite Hown.
  destruct (Js.truthy (keyId (this w))); cbn; rewrite Hown; reflexivity.
Qed.

(** [encryptTo] is the encryption under the key that is current after
    the check for a due rotation. *)
Lemma encryptTo_run message destination w :
  is_Some (participantKeys (this w) !! ownHandle (this w)) →
  encryptTo message destination w
  = encrypt_with_current_key message destination (rotation_checked w).
Proof.
  intros Hown. unfold encryptTo, rotation_checked.
  rewrite run_bind. cbn [get_this]. rewrite run_bind.
  case_bool_decide; [ by rewrite updateSenderKey_run | by rewrite run_ret ].
Qed.

Lemma symmetricEncryptMessage_run message senderKey w :
  senderKey ≠ [] →
  _symmetricEncryptMessage message (Some senderKey) None w
  = match AES_CTR_encrypt (utf8_encode message) senderKey
            (random_bytes w NONCE_SIZE) with
    | Some c =>
        (Ok {| ciphertext := c; key := senderKey;
               em_nonce := random_bytes w NONCE_SIZE |},
         set_drawn (drawn w + NONCE_SIZE) w)
    | None => (Throw LibraryError, set_drawn (drawn w + NONCE_SIZE) w)
    end.
Proof.
  intros Hkey. destruct senderKey as [ | c senderKey ]; [ done | ].
  unfold _symmetricEncryptMessage. run_monad. cbn [Js.truthy].
  by destruct (AES_CTR_encrypt _ _ _).
Qed.

Lemma encryptKeysFor_inv keys nonce destination w encryptedKeys w' :
  _encryptKeysFor keys nonce destination w = (Ok encryptedKeys, w') →
  w' = w
  ∧ ∃ pubKey kek,
      global_pubCu25519 w !! destination = Some pubKey
      ∧ pubKey ≠ []
      ∧ key_encryption_key (privCu25519 (this w)) pubKey = Some kek
      ∧ AES_CBC_encrypt (concat (Js.undefined_key <$> keys)) kek
          (key_encryption_iv destination nonce) = Some encryptedKeys.
Proof.
  unfold _encryptKeysFor, _computeSymmetricKey, key_encryption_key. run_monad.
  case_bool_decide; [ | intros ?; simplify_eq ].
  destruct (global_pubCu25519 w !! destination) as [ [ | c pubKey ] | ];
    cbn [Js.truthy negb]; [ intros ?; simplify_eq | | intros ?; simplify_eq ].
  destruct (scalarMult _ _) as [sharedSecret | ] eqn:Hsm;
    [ | intros ?; simplify_eq ]. cbn.
  destruct (AES_CBC_encrypt _ _ _) as [c' | ] eqn:Hcbc; [ | intros ?; simplify_eq ].
  intros [= <- <-]. split; [ done | ].
  eexists _, _. split_and!; [ done | done | by rewrite Hsm | exact Hcbc ].
Qed.

Lemma participant_run handle own w :
  participantKeys (this w) !! handle = Some own →
  participant handle w = (Ok own, w).
Proof. intros Hown. run_monad. by rewrite Hown. Qed.

(** What [encryptTo] returns under a current sender key: the signed
    records of a follow-up message if the key was sent already, and of
    a keyed message otherwise. *)
Lemma encrypt_with_current_key_inv message destination w wire w'
    own currentKeyId senderKey :
  participantKeys (this w) !! ownHandle (this w) = Some own →
  keyId (this w) = Some currentKeyId →
  own !! currentKeyId = Some senderKey →
  senderKey ≠ [] →
  encrypt_with_current_key message destination w = (Ok wire, w') →
  ∃ c signature records,
    AES_CTR_encrypt (utf8_encode message) senderKey (random_bytes w NONCE_SIZE)
    = Some c
    ∧ sign_detached (encode_records records)
        (privEd25519 (this w) ++ pubEd25519 (this w)) = Some signature
    ∧ wire = wire_message PROTOCOL_VERSION
               ((TLV_TYPES.SIGNATURE, signature) :: records)
    ∧ if decide (_sentKeyId (this w) = Some currentKeyId) then
        records = followup_records (random_bytes w NONCE_SIZE) currentKeyId c
        ∧ this w' = set_keyEncryptionCount (_keyEncryptionCount (this w) + 1)
                      (this w)
      else
        ∃ pubKey kek encryptedKeys,
          global_pubCu25519 w !! destination = Some pubKey
          ∧ pubKey ≠ []
          ∧ key_encryption_key (privCu25519 (this w)) pubKey = Some kek
          ∧ AES_CBC_encrypt (senderKey ++ previous_key own (this w)) kek
              (key_encryption_iv destination (random_bytes w NONCE_SIZE))
            = Some encryptedKeys
          ∧ (encryptedKeys ≠ [] →
             records = keyed_records (random_bytes w NONCE_SIZE)
                         (base64urldecode destination) encryptedKeys
                         (currentKeyId ++ previous_id (this w)) c
             ∧ this w' = set_keyEncryptionCount
                           (_keyEncryptionCount (this w) + 1)
                           (set_sentKeyId (Some currentKeyId) (this w))).
Proof.
  intros Hown Hkey Hsk Hne. unfold encrypt_with_current_key.
  rewrite run_bind. cbn [get_this].
  rewrite run_bind, (participant_run _ own) by done.
  rewrite Hkey. cbn [Js.null_key]. rewrite Hsk.
  rewrite run_bind, symmetricEncryptMessage_run by done.
  destruct (AES_CTR_encrypt _ _ _) as [c | ] eqn:Hctr; [ | intros ?; simplify_eq ].
  cbn [em_nonce ciphertext].
  set (nonce := random_bytes w NONCE_SIZE) in *.
  set (w1 := set_drawn (drawn w + NONCE_SIZE) w).
  destruct (decide (_sentKeyId (this w) = Some currentKeyId)) as [Hsent | Hsent].
  - rewrite run_bind, run_ret. cbn [Js.truthy].
    intros Hrun. cbn [defined] in Hrun. run_in Hrun.
    unfold _signMessage in Hrun.
    destruct (sign_detached _ _) as [signature | ] eqn:Hsign;
      cbn [library] in Hrun; [ | simplify_eq ].
    run_in Hrun. unfold get_this, put_this in Hrun. run_in Hrun.
    apply ret_ok_inv in Hrun as [<- <-]. char_codes.
    exists c, signature, (followup_records nonce currentKeyId c).
    split_and!; try done.
    + rewrite <- Hsign. f_equal. unfold followup_records. cbn [encode_records].
      by rewrite app_nil_r, <- !app_assoc.
    + unfold wire_message, followup_records. cbn [encode_records].
      by rewrite app_nil_r, <- !app_assoc.
  - intros Hrun.
    apply bind_ok_inv in Hrun
      as ([[messageType encryptedKeys] keyIds] & w2 & Hwrap & Hrun).
    assert (∃ wrapped pubKey kek,
              encryptedKeys = Some wrapped
              ∧ messageType = MESSAGE_TYPES.GROUP_KEYED
              ∧ keyIds = Some (currentKeyId ++ previous_id (this w))
              ∧ w2 = w1
              ∧ global_pubCu25519 w !! destination = Some pubKey
              ∧ pubKey ≠ []
              ∧ key_encryption_key (privCu25519 (this w)) pubKey = Some kek
              ∧ AES_CBC_encrypt (senderKey ++ previous_key own (this w)) kek
                  (key_encryption_iv destination nonce) = Some wrapped)
      as (wrapped & pubKey & kek & -> & -> & -> & -> & Hpub & Hpubne & Hkek & Hcbc).
    { unfold previous_id, previous_key.
      destruct (Js.truthy (previousKeyId (this w)));
        apply bind_ok_inv in Hwrap as (wrapped & w3 & Hwrapped & Hret);
        apply ret_ok_inv in Hret as [[= <- <- <-] <-];
        apply encryptKeysFor_inv in Hwrapped
          as (-> & pubKey & kek & Hpub & Hpubne & Hkek & Hcbc);
        exists wrapped, pubKey, kek; split_and!; try done;
        first [ by rewrite app_nil_r
              | revert Hcbc; cbn; by rewrite ?app_nil_r ]. }
    destruct wrapped as [ | b wrapped ].
    + cbn [Js.truthy defined] in Hrun. run_in Hrun.
      unfold _signMessage in Hrun.
      destruct (sign_detached _ _) as [signature | ] eqn:Hsign;
        cbn [library] in Hrun; [ | simplify_eq ].
      run_in Hrun. unfold get_this, put_this in Hrun. run_in Hrun.
      apply ret_ok_inv in Hrun as [<- <-]. char_codes.
      exists c, signature,
        [(TLV_TYPES.MESSAGE_TYPE, [MESSAGE_TYPES.GROUP_KEYED]);
         (TLV_TYPES.NONCE, nonce);
         (TLV_TYPES.KEY_IDS, currentKeyId);
         (TLV_TYPES.PAYLOAD, c)].
      split_and!; try done.
      * rewrite <- Hsign. f_equal. cbn [encode_records].
        by rewrite app_nil_r, <- !app_assoc.
      * unfold wire_message. cbn [encode_records].
        by rewrite app_nil_r, <- !app_assoc.
      * exists pubKey, kek, []. split_and!; done.
    + cbn [Js.truthy defined] in Hrun. run_in Hrun.
      unfold update_this, get_this, put_this in Hrun. run_in Hrun.
      unfold _signMessage in Hrun.
      destruct (sign_detached _ _) as [signature | ] eqn:Hsign;
        cbn [library] in Hrun; [ | simplify_eq ].
      run_in Hrun. unfold get_this, put_this in Hrun. run_in Hrun.
      apply ret_ok_inv in Hrun as [<- <-]. char_codes.
      exists c, signature,
        (keyed_records nonce (base64urldecode destination) (b :: wrapped)
           (currentKeyId ++ previous_id (this w)) c).
      split_and!; try done.
      * rewrite <- Hsign. f_equal. unfold keyed_records. cbn [encode_records].
        by rewrite app_nil_r, <- !app_assoc.
      * unfold wire_message, keyed_records. cbn [encode_records].
        by rewrite app_nil_r, <- !app_assoc.
      * exists pubKey, kek, (b :: wrapped). split_and!; done.
Qed.

End sending.

Lemma length_random_bytes w n : length (random_bytes w n) = n.
Proof. unfold random_bytes. by rewrite length_fmap, length_seq. Qed.

Lemma length_nextKeyId day previous : length (nextKeyId day previous) = 4%nat.
Proof.
  unfold nextKeyId. by destruct (nextKeyIdComponents day previous).
Qed.

(** On a day that fits a key ID, the next key ID is not the one it
    follows. *)
Lemma nextKeyId_fresh day keyId :
  0 ≤ day < 65536 → keyId ≠ [] → nextKeyId day (Some keyId) ≠ keyId.
Proof.
  intros Hday Hne Heq. apply (f_equal _splitKeyId) in Heq.
  rewrite nextKeyId_split in Heq by done.
  destruct keyId as [ | c k ]; [ done | ].
  pose proof (split_range (c :: k)) as [_ Hc].
  destruct (_splitKeyId (c :: k)) as [previousDay previousCounter].
  cbn [fst snd] in *. case_decide as Hd; injection Heq as Hday' Hcounter.
  - revert Hc Hcounter. generalize previousCounter. intros n Hn Hmod.
    Z.div_mod_to_equations. lia.
  - by destruct Hd.
Qed.

(** A handler that holds a sender key holds one after the rotation: the
    new key is current, the old one previous. *)
Lemma rotated_holds_sender_key w :
  holds_sender_key w → 0 ≤ now w / _ONE_DAY < 65536 →
  ∃ own oldKeyId oldKey,
    participantKeys (this w) !! ownHandle (this w) = Some own
    ∧ keyId (this w) = Some oldKeyId
    ∧ own !! oldKeyId = Some oldKey
    ∧ let newKeyId := nextKeyId (now w / _ONE_DAY) (Some oldKeyId) in
      let newKey := random_bytes w SECRET_KEY_SIZE in
      newKeyId ≠ oldKeyId
      ∧ this (rotated w)
        = set_keyEncryptionCount 0
            (set_participantKeys
               (<[ownHandle (this w) := <[newKeyId := newKey]> own]>
                  (participantKeys (this w)))
               (set_keyId (Some newKeyId)
                  (set_previousKeyId (Some oldKeyId) (this w))))
      ∧ holds_sender_key (rotated w).
Proof.
  intros (own & oldKeyId & oldKey & Hown & Hkey & Hlen & Hold & Hlenk & Hprev)
    Hday.
  exists own, oldKeyId, oldKey. split_and!; try done. cbv zeta.
  assert (oldKeyId ≠ []) as Hne by (by destruct oldKeyId).
  pose proof (nextKeyId_fresh _ _ Hday Hne) as Hfresh.
  assert (this (rotated w)
          = set_keyEncryptionCount 0
              (set_participantKeys
                 (<[ownHandle (this w) :=
                      <[nextKeyId (now w / _ONE_DAY) (Some oldKeyId) :=
                          random_bytes w SECRET_KEY_SIZE]> own]>
                    (participantKeys (this w)))
                 (set_keyId (Some (nextKeyId (now w / _ONE_DAY) (Some oldKeyId)))
                    (set_previousKeyId (Some oldKeyId) (this w))))) as Hthis.
  { unfold rotated. cbn [this set_this]. rewrite Hkey, Hown.
    destruct oldKeyId; [ done | reflexivity ]. }
  split_and!; [ done | done | ].
  unfold holds_sender_key. rewrite Hthis.
  cbn [ownHandle participantKeys keyId previousKeyId set_keyEncryptionCount
       set_participantKeys set_keyId set_previousKeyId].
  exists (<[nextKeyId (now w / _ONE_DAY) (Some oldKeyId) :=
             random_bytes w SECRET_KEY_SIZE]> own),
    (nextKeyId (now w / _ONE_DAY) (Some oldKeyId)),
    (random_bytes w SECRET_KEY_SIZE).
  split_and!;
    [ apply lookup_insert_eq | reflexivity | apply length_nextKeyId
    | apply lookup_insert_eq | apply length_random_bytes
    | done | exists oldKey; by rewrite lookup_insert_ne ].
Qed.

End Sending.

(** ** The small instance of the primitives obeys the laws *)

Module ToyLaws.
Import strongvelope Spec Run.

Lemma imap_involutive {A} (f : nat → A → A) (l : list A) :
  (∀ i x, f i (f i x) = x) → imap f (imap f l) = l.
Proof.
  revert f. induction l as [ | x l IH ]; intros f Hf; [ done | ].
  cbn [imap]. rewrite Hf. f_equal. apply IH. intros i y. apply Hf.
Qed.

Lemma xor_stream_involutive key iv data :
  Toy.xor_stream key iv (Toy.xor_stream key iv data) = data.
Proof.
  apply imap_involutive. intros i x.
  by rewrite Z.lxor_assoc, Z.lxor_nilpotent, Z.lxor_0_r.
Qed.

Lemma length_xor_stream key iv data :
  length (Toy.xor_stream key iv data) = length data.
Proof. apply length_imap. Qed.

Lemma toy_ctr_inverts : ctr_inverts (H := Toy.primitives).
Proof.
  intros data key nonce c. cbn. unfold Toy.stream_cipher.
  case_bool_decide; [ | done ]. intros [= <-].
  by rewrite xor_stream_involutive, length_xor_stream.
Qed.

Lemma toy_cbc_inverts : cbc_inverts (H := Toy.primitives).
Proof.
  intros data key iv c. cbn. unfold Toy.block_cipher.
  destruct (bool_decide (length key = 16%nat) && bool_decide (length iv = 16%nat))
    eqn:Hsizes; cbn [andb]; [ | done ].
  destruct (bool_decide (length data `mod` 16 = 0)%nat) eqn:Hlen; [ | done ].
  intros [= <-]. rewrite length_xor_stream, Hlen.
  by rewrite xor_stream_involutive.
Qed.

Lemma ascii_of_byte_of_ascii a : Toy.ascii_of_byte (Toy.byte_of_ascii a) = a.
Proof.
  unfold Toy.ascii_of_byte, Toy.byte_of_ascii.
  by rewrite N2Z.id, Ascii.ascii_N_embedding.
Qed.

Lemma byte_of_ascii_range a : 0 ≤ Toy.byte_of_ascii a < 256.
Proof.
  unfold Toy.byte_of_ascii. pose proof (Ascii.N_ascii_bounded a). lia.
Qed.

Lemma two_byte_sequence c :
  128 ≤ c < 256 →
  ¬ 0 ≤ 192 + c / 64 < 128
  ∧ 194 ≤ 192 + c / 64 ≤ 195
  ∧ 128 ≤ 128 + c mod 64 < 192
  ∧ 64 * (192 + c / 64 - 192) + (128 + c mod 64 - 128) = c.
Proof. intros Hc. Z.div_mod_to_equations. lia. Qed.

Lemma toy_utf8_inverts : utf8_inverts (H := Toy.primitives).
Proof.
  intros text. cbn. induction text as [ | a text IH ]; [ done | ].
  cbn [Toy.encode_text]. pose proof (byte_of_ascii_range a) as Ha.
  case_bool_decide as Hsmall; cbn [Toy.decode_text].
  - rewrite bool_decide_eq_true_2 by lia.
    by rewrite IH, ascii_of_byte_of_ascii.
  - destruct (two_byte_sequence (Toy.byte_of_ascii a))
      as (Hlead & Hfirst & Hsecond & Hvalue); [ lia | ].
    rewrite (bool_decide_eq_false_2 _ Hlead).
    rewrite (bool_decide_eq_true_2 _ Hfirst).
    rewrite (bool_decide_eq_true_2 _ Hsecond).
    cbn [andb]. rewrite IH, Hvalue. cbn.
    by rewrite ascii_of_byte_of_ascii.
Qed.

Lemma length_digest s : length (Toy.digest s) = 32%nat.
Proof. unfold Toy.digest. by rewrite length_fmap, length_seq. Qed.

(** A private and a public half of 32 bytes each make a signing pair. *)
Lemma toy_signing_pair priv pub :
  length priv = 32%nat → length pub = 32%nat →
  signing_pair (H := Toy.primitives) priv pub.
Proof.
  intros Hpriv Hpub message signature. cbn. unfold Toy.sign, Toy.verify.
  rewrite bool_decide_eq_true_2 by (rewrite length_app; lia).
  intros [= <-].
  assert (drop 32 (priv ++ pub) = pub) as ->
    by (by rewrite <- Hpriv, drop_app_length).
  assert (length (Toy.tag message pub) = 64%nat) as Hlen
    by (unfold Toy.tag; rewrite length_app, !length_digest; lia).
  rewrite Hlen, !bool_decide_eq_true_2 by done. split; [ done | lia ].
Qed.

End ToyLaws.

(** ** Rotation of the sender key *)

Module Rotation.
Import strongvelope Spec Run KeyIdFacts Derivation Sending.

(** When the count of encryptions under the current key has reached
    [rotateKeyEvery] and the key has been sent, [encryptTo] rotates
    before it encrypts, and the message is a keyed one under the new
    key. *)
Lemma rotation_when_due `{Primitives}
    (message : Text) (destination : jsstring) (w : World)
    (wire : jsstring) (w' : World) :
  cbc_inverts →
  holds_sender_key w →
  _sentKeyId (this w) = keyId (this w) →
  _keyEncryptionCount (this w) = rotateKeyEvery (this w) →
  0 ≤ now w / _ONE_DAY < 65536 →
  encryptTo message destination w = (Ok wire, w') →
  ∃ oldKeyId newKeyId signature nonce encryptedKeys ciphertext,
    keyId (this w) = Some oldKeyId
    ∧ newKeyId = nextKeyId (now w / _ONE_DAY) (Some oldKeyId)
    ∧ newKeyId ≠ oldKeyId
    ∧ keyId (this w') = Some newKeyId
    ∧ previousKeyId (this w') = Some oldKeyId
    ∧ cached_key w' (ownHandle (this w)) newKeyId
      = Some (random_bytes w SECRET_KEY_SIZE)
    ∧ length (random_bytes w SECRET_KEY_SIZE) = 16%nat
    ∧ _keyEncryptionCount (this w') = 1
    ∧ _sentKeyId (this (_updateSenderKey w).2) = Some oldKeyId
    ∧ _sentKeyId (this w') = Some newKeyId
    ∧ wire = wire_message PROTOCOL_VERSION
               ((TLV_TYPES.SIGNATURE, signature)
                :: keyed_records nonce (base64urldecode destination)
                     encryptedKeys (newKeyId ++ oldKeyId) ciphertext).
Proof.
  intros Hcbc Hholds Hsent Hcount Hday.
  destruct (rotated_holds_sender_key w Hholds Hday)
    as (own & oldKeyId & oldKey & Hown & Hkey & Hold & Hfresh & Hthis & _).
  cbv zeta in Hfresh, Hthis.
  set (newKeyId := nextKeyId (now w / _ONE_DAY) (Some oldKeyId)) in *.
  set (newKey := random_bytes w SECRET_KEY_SIZE) in *.
  assert (length newKey = 16%nat) as Hlen by apply length_random_bytes.
  assert (oldKeyId ≠ []) as Hne.
  { destruct Hholds as (? & k & ? & _ & Hk & Hl & _).
    rewrite Hkey in Hk. injection Hk as <-. by destruct oldKeyId. }
  rewrite encryptTo_run by (by rewrite Hown).
  rewrite updateSenderKey_run by (by rewrite Hown).
  unfold rotation_checked. rewrite bool_decide_eq_true_2 by lia.
  intros Hrun.
  apply (encrypt_with_current_key_inv _ _ _ _ _
           (<[newKeyId := newKey]> own) newKeyId newKey) in Hrun;
    [ | rewrite Hthis; apply lookup_insert_eq | by rewrite Hthis
      | apply lookup_insert_eq | by destruct newKey ].
  destruct Hrun as (c & signature & records & _ & _ & -> & Hshape).
  rewrite decide_False in Hshape
    by (rewrite Hthis; cbn; rewrite Hsent, Hkey; congruence).
  destruct Hshape as (pubKey & kek & encryptedKeys & _ & _ & _ & Hwrap & Hshape).
  apply Hcbc in Hwrap as [_ Hwrapped].
  destruct Hshape as [-> Hthis'].
  { intros ->. rewrite length_app in Hwrapped. cbn in Hwrapped. lia. }
  assert (previous_id (this (rotated w)) = oldKeyId) as ->.
  { unfold previous_id. rewrite Hthis. cbn. by destruct oldKeyId. }
  exists oldKeyId, newKeyId, signature, (random_bytes (rotated w) NONCE_SIZE),
    encryptedKeys, c.
  assert (_sentKeyId (this (rotated w)) = Some oldKeyId) as Hkept
    by (rewrite Hthis; cbn [_sentKeyId set_keyEncryptionCount
          set_participantKeys set_keyId set_previousKeyId]; congruence).
  split_and!; try done.
  - by rewrite Hthis', Hthis.
  - by rewrite Hthis', Hthis.
  - unfold cached_key. rewrite Hthis', Hthis.
    cbn [participantKeys set_keyEncryptionCount set_sentKeyId
           set_participantKeys set_keyId set_previousKeyId].
    rewrite lookup_insert_eq. cbn [mbind option_bind].
    apply lookup_insert_eq.
  - by rewrite Hthis', Hthis.
  - by rewrite Hthis'.
Qed.

(** A call of [encryptTo] that returns while no rotation is due counts
    one encryption more under the same key, which has been sent
    afterwards. *)
Lemma encryptTo_counts `{Primitives} message destination w wire w' :
  cbc_inverts →
  holds_sender_key w →
  _keyEncryptionCount (this w) < rotateKeyEvery (this w) →
  encryptTo message destination w = (Ok wire, w') →
  holds_sender_key w'
  ∧ _keyEncryptionCount (this w') = _keyEncryptionCount (this w) + 1
  ∧ rotateKeyEvery (this w') = rotateKeyEvery (this w)
  ∧ keyId (this w') = keyId (this w)
  ∧ _sentKeyId (this w') = keyId (this w').
Proof.
  intros Hcbc Hholds Hcount.
  pose proof Hholds
    as (own & cur & sk & Hown & Hkey & Hcur & Hsk & Hsklen & Hprev).
  rewrite encryptTo_run by (by rewrite Hown).
  unfold rotation_checked. rewrite bool_decide_eq_false_2 by lia.
  intros Hrun.
  apply (encrypt_with_current_key_inv _ _ _ _ _ own cur sk) in Hrun;
    [ | done | done | done | by destruct sk ].
  destruct Hrun as (c & signature & records & _ & _ & _ & Hshape).
  assert (this w' = set_keyEncryptionCount (_keyEncryptionCount (this w) + 1)
                      (set_sentKeyId (Some cur) (this w))) as Hthis'.
  { destruct (decide (_sentKeyId (this w) = Some cur)) as [Hsent | Hsent].
    - destruct Hshape as [_ ->]. by rewrite <- Hsent; destruct (this w).
    - destruct Hshape as (pubKey & kek & encryptedKeys & _ & _ & _ & Hwrap
                          & Hshape).
      apply Hcbc in Hwrap as [_ Hwrapped]. apply Hshape.
      intros ->. rewrite length_app in Hwrapped. cbn in Hwrapped. lia. }
  unfold holds_sender_key. rewrite Hthis'.
  cbn [participantKeys ownHandle keyId previousKeyId _keyEncryptionCount
       rotateKeyEvery _sentKeyId set_keyEncryptionCount set_sentKeyId].
  split_and!; [ | done .. ].
  exists own, cur, sk. split_and!; done.
Qed.

(** So do as many calls as are left until the rotation is due. *)
Lemma encryptTo_all_counts `{Primitives} calls w wires w' :
  cbc_inverts →
  holds_sender_key w →
  _keyEncryptionCount (this w) + Z.of_nat (length calls)
  ≤ rotateKeyEvery (this w) →
  encryptTo_all calls w = (Ok wires, w') →
  holds_sender_key w'
  ∧ _keyEncryptionCount (this w')
    = _keyEncryptionCount (this w) + Z.of_nat (length calls)
  ∧ rotateKeyEvery (this w') = rotateKeyEvery (this w)
  ∧ keyId (this w') = keyId (this w)
  ∧ (calls ≠ [] ∨ _sentKeyId (this w) = keyId (this w) →
     _sentKeyId (this w') = keyId (this w')).
Proof.
  intros Hcbc. revert w wires.
  induction calls as [ | [message destination] calls IH ];
    intros w wires Hholds Hcount Hrun.
  - apply ret_ok_inv in Hrun as [_ <-].
    split_and!; [ done | cbn; lia | done | done | by intros [ | ] ].
  - cbn [encryptTo_all] in Hrun. cbn [length] in Hcount.
    apply bind_ok_inv in Hrun as (wire & w1 & Hfirst & Hrun).
    apply bind_ok_inv in Hrun as (wires' & w2 & Hrest & Hrun).
    apply ret_ok_inv in Hrun as [_ <-].
    apply encryptTo_counts in Hfirst
      as (Hholds1 & Hcount1 & Hevery1 & Hkey1 & Hsent1); [ | done | done | lia ].
    apply IH in Hrest as (Hholds2 & Hcount2 & Hevery2 & Hkey2 & Hsent2);
      [ | done | lia ].
    split_and!; [ done | cbn [length]; lia | congruence | congruence | ].
    intros _. apply Hsent2. by right.
Qed.

(** C3, as amended.  After exactly [rotateKeyEvery] successful calls of
    [encryptTo] on a handler that holds a sender key under which nothing
    was encrypted yet, the next call rotates before it encrypts: the key
    ID that follows the current one becomes current, 16 bytes from the
    random source are stored as the sender key under it, the old key ID
    becomes the previous one, and the count starts again (and counts
    this message).  [_sentKeyId] is not cleared: the rotation leaves the
    old key ID in it, which is no longer the current one, so the message
    is a keyed one, and it is the new key ID afterwards.  The KEY_IDS
    record of the message is the new key ID followed by the old one, the
    one of the calls before. *)
Theorem rotation_on_the_next_call `{Primitives}
    (calls : list (Text * jsstring)) (w0 : World) (wires : list jsstring)
    (message : Text) (destination : jsstring) (w : World)
    (wire : jsstring) (w' : World) :
  cbc_inverts →
  holds_sender_key w0 →
  _keyEncryptionCount (this w0) = 0 →
  0 < rotateKeyEvery (this w0) →
  Z.of_nat (length calls) = rotateKeyEvery (this w0) →
  encryptTo_all calls w0 = (Ok wires, w) →
  0 ≤ now w / _ONE_DAY < 65536 →
  encryptTo message destination w = (Ok wire, w') →
  ∃ oldKeyId newKeyId signature nonce encryptedKeys ciphertext,
    keyId (this w0) = Some oldKeyId
    ∧ keyId (this w) = Some oldKeyId
    ∧ newKeyId = nextKeyId (now w / _ONE_DAY) (Some oldKeyId)
    ∧ newKeyId ≠ oldKeyId
    ∧ keyId (this w') = Some newKeyId
    ∧ previousKeyId (this w') = Some oldKeyId
    ∧ cached_key w' (ownHandle (this w)) newKeyId
      = Some (random_bytes w SECRET_KEY_SIZE)
    ∧ length (random_bytes w SECRET_KEY_SIZE) = 16%nat
    ∧ _keyEncryptionCount (this w') = 1
    ∧ _sentKeyId (this (_updateSenderKey w).2) = Some oldKeyId
    ∧ _sentKeyId (this w') = Some newKeyId
    ∧ wire = wire_message PROTOCOL_VERSION
               ((TLV_TYPES.SIGNATURE, signature)
                :: keyed_records nonce (base64urldecode destination)
                     encryptedKeys (newKeyId ++ oldKeyId) ciphertext).
Proof.
  intros Hcbc Hholds Hzero Hevery Hcalls Hsent Hday Hrun.
  apply encryptTo_all_counts in Hsent
    as (Hholds' & Hcount & Hevery' & Hkey & Hsent); [ | done | done | lia ].
  apply rotation_when_due in Hrun; [ | done | done | | lia | done ].
  - destruct Hrun as (oldKeyId & newKeyId & signature & nonce & encryptedKeys
                      & ciphertext & Hold & Hrest).
    exists oldKeyId, newKeyId, signature, nonce, encryptedKeys, ciphertext.
    split; [ congruence | by split ].
  - apply Hsent. left. intros ->. cbn in Hcalls. lia.
Qed.

(** A run that returned, as its message and the world it left. *)
Lemma returned (r : outcome jsstring * World) :
  Scenario.succeeded r.1 = true → r = (Ok (Scenario.sent r.1), r.2).
Proof. by destruct r as [[wire | e] w]. Qed.

(** The messages of the conversation as successive calls. *)
Lemma send_all_returned messages w :
  forallb Scenario.succeeded (Scenario.send_all messages w).1 = true →
  encryptTo_all (H := Toy.primitives)
    ((λ text : string, (text : @Text Toy.primitives, Scenario.handleB))
       <$> messages) w
  = (Ok (Scenario.sent <$> (Scenario.send_all messages w).1),
     (Scenario.send_all messages w).2).
Proof.
  revert w. induction messages as [ | message messages IH ]; intros w; [ done | ].
  cbn [Scenario.send_all fmap list_fmap encryptTo_all].
  rewrite run_bind.
  destruct (encryptTo (H := Toy.primitives) message Scenario.handleB w)
    as [[wire | e] w1];
    destruct (Scenario.send_all messages w1) as [rs w2] eqn:Hrest;
    cbn [fst snd forallb Scenario.succeeded andb]; [ | done ].
  intros Hall. specialize (IH w1). rewrite Hrest in IH.
  rewrite run_bind, (IH Hall). reflexivity.
Qed.

Lemma toy_holds_sender_key_keyedA : holds_sender_key Scenario.keyedA.
Proof.
  exists (default ∅ (participantKeys (this Scenario.keyedA)
                     !! Scenario.handleA)),
    Scenario.keyId0,
    [3; 10; 17; 24; 31; 38; 45; 52; 59; 66; 73; 80; 87; 94; 101; 108].
  split_and!; [ by_evaluation .. | ].
  assert (previousKeyId (this Scenario.keyedA) = None) as -> by by_evaluation.
  done.
Qed.

Lemma rotation_on_the_next_call_witness :
  ∃ oldKeyId newKeyId signature nonce encryptedKeys ciphertext,
    keyId (this Scenario.keyedA) = Some oldKeyId
    ∧ keyId (this Scenario.afterSixteen) = Some oldKeyId
    ∧ newKeyId = nextKeyId (now Scenario.afterSixteen / _ONE_DAY) (Some oldKeyId)
    ∧ newKeyId ≠ oldKeyId
    ∧ keyId (this Scenario.afterSeventeen) = Some newKeyId
    ∧ previousKeyId (this Scenario.afterSeventeen) = Some oldKeyId
    ∧ cached_key Scenario.afterSeventeen
        (ownHandle (this Scenario.afterSixteen)) newKeyId
      = Some (random_bytes Scenario.afterSixteen SECRET_KEY_SIZE)
    ∧ length (random_bytes Scenario.afterSixteen SECRET_KEY_SIZE) = 16%nat
    ∧ _keyEncryptionCount (this Scenario.afterSeventeen) = 1
    ∧ _sentKeyId (this (_updateSenderKey Scenario.afterSixteen).2)
      = Some oldKeyId
    ∧ _sentKeyId (this Scenario.afterSeventeen) = Some newKeyId
    ∧ Scenario.sent Scenario.seventeenth
      = wire_message PROTOCOL_VERSION
          ((TLV_TYPES.SIGNATURE, signature)
           :: keyed_records nonce
                (base64urldecode (Primitives := Toy.primitives) Scenario.handleB)
                encryptedKeys (newKeyId ++ oldKeyId) ciphertext).
Proof.
  apply (rotation_on_the_next_call (H := Toy.primitives)
           ((λ text : string, (text : @Text Toy.primitives, Scenario.handleB))
              <$> Scenario.sixteen)
           Scenario.keyedA
           (Scenario.sent
              <$> (Scenario.send_all Scenario.sixteen Scenario.keyedA).1)
           "17" Scenario.handleB Scenario.afterSixteen
           (Scenario.sent Scenario.seventeenth) Scenario.afterSeventeen).
  - apply ToyLaws.toy_cbc_inverts.
  - apply toy_holds_sender_key_keyedA.
  - by_evaluation.
  - vm_compute. reflexivity.
  - by_evaluation.
  - apply send_all_returned. by_evaluation.
  - vm_compute. split; [ discriminate | reflexivity ].
  - apply returned. by_evaluation.
Defined.

(** C3 fails on the code: after sixteen successful calls the
    seventeenth rotates, and [_sentKeyId] is not cleared, neither by the
    rotation, which leaves the old key ID in it, nor by the call, after
    which it is the new one. *)
Lemma rotation_keeps_sentKeyId :
  forallb Scenario.succeeded (Scenario.send_all Scenario.sixteen Scenario.keyedA).1
  = true
  ∧ length Scenario.sixteen = 16%nat
  ∧ rotateKeyEvery (this Scenario.keyedA) = 16
  ∧ _keyEncryptionCount (this Scenario.keyedA) = 0
  ∧ _keyEncryptionCount (this Scenario.afterSixteen) = 16
  ∧ keyId (this Scenario.afterSixteen) = Some Scenario.keyId0
  ∧ Scenario.succeeded Scenario.seventeenth = true
  ∧ keyId (this Scenario.afterSeventeen) = Some Scenario.keyId1
  ∧ _sentKeyId (this (_updateSenderKey Scenario.afterSixteen).2)
    = Some Scenario.keyId0
  ∧ _sentKeyId (this Scenario.afterSeventeen) = Some Scenario.keyId1.
Proof. split_and!; by_evaluation. Qed.

End Rotation.

(** ** The receiving side, run forward *)

Module Receiving.
Import strongvelope Spec Run Parser Cache Bindings.

(** The loop that cuts a string into pieces needs no more rounds than
    the string has characters. *)
Lemma chunks_go_fuel n fuel fuel' s :
  (0 < n)%nat → (length s ≤ fuel)%nat → (length s ≤ fuel')%nat →
  Js.chunks_go fuel n s = Js.chunks_go fuel' n s.
Proof.
  intros Hn. revert fuel' s.
  induction fuel as [ | fuel IH ]; intros fuel' s Hf Hf'.
  - destruct s; [ by destruct fuel' | cbn in Hf; lia ].
  - destruct s as [ | c s ]; [ by destruct fuel' | ].
    destruct fuel' as [ | fuel' ]; [ cbn in Hf'; lia | ].
    cbn [Js.chunks_go]. f_equal.
    unfold Js.substring_from. cbn [length] in Hf, Hf'.
    apply IH; rewrite length_drop; cbn [length]; lia.
Qed.

Lemma chunks_nil n : Js.chunks n [] = [].
Proof. reflexivity. Qed.

Lemma chunks_app n piece s :
  (0 < n)%nat → length piece = n →
  Js.chunks n (piece ++ s) = piece :: Js.chunks n s.
Proof.
  intros Hn Hpiece. unfold Js.chunks.
  destruct piece as [ | c piece ]; [ cbn in Hpiece; lia | ].
  cbn [app length Js.chunks_go]. f_equal.
  - unfold Js.substring_to. rewrite app_comm_cons.
    by rewrite take_app_length' by done.
  - unfold Js.substring_from. rewrite app_comm_cons.
    rewrite drop_app_length' by done.
    apply chunks_go_fuel; [ done | rewrite length_app; lia | lia ].
Qed.

Section receiving.
Context `{Primitives}.

(** The parser on the records of a message in ascending order. *)
Lemma parseMessageContent_records version records w :
  Forall fits_record records →
  ascending_from (-1) records.*1 = true →
  let parsed :=
    store_records records
      {| protocolVersion := Num version;
         signature := None; signedContent := None; type := None;
         nonce := None; recipients := []; keys := []; keyIds := [];
         payload := None; undefined_slot := None |} in
  length (recipients parsed) = length (keys parsed) →
  _parseMessageContent (wire_message version records) w = (Ok (Some parsed), w).
Proof.
  intros Hfits Hasc parsed Hlen.
  unfold _parseMessageContent, wire_message.
  change (Js.substring_from (version :: encode_records records) 1)
    with (encode_records records).
  change (Js.charCodeAt (version :: encode_records records) 0) with (Num version).
  cbv zeta. rewrite run_bind.
  rewrite parse_records_encode by done. rewrite Hasc.
  fold parsed. cbv beta iota.
  rewrite (bool_decide_eq_false_2 (length (recipients parsed) ≠ _)) by auto.
  by rewrite andb_false_r.
Qed.

Lemma verifyMessage_run content signature pubKey verified w :
  sign_detached_verify content signature pubKey = Some verified →
  _verifyMessage (Some content) (Some signature) (Some pubKey) w
  = (Ok verified, w).
Proof. intros Hv. unfold _verifyMessage. run_monad. by rewrite Hv. Qed.

Lemma symmetricDecryptMessage_run cipher key nonce data text w :
  AES_CTR_decrypt cipher key (take NONCE_SIZE nonce) = Some data →
  utf8_decode data = Some text →
  _symmetricDecryptMessage (Some cipher) (Some key) (Some nonce) w
  = (Ok (Some text), w).
Proof.
  intros Hd Hu. unfold _symmetricDecryptMessage, Js.substring_to. run_monad.
  by rewrite Hd, Hu.
Qed.

(** [decryptFrom] on a message that parses, of the right version and
    with a signature that verifies: the sender key is found and the
    payload decrypted. *)
Lemma decryptFrom_verified message sender w parsed content signed pubKey :
  _parseMessageContent message w = (Ok (Some parsed), w) →
  protocolVersion parsed = Num PROTOCOL_VERSION →
  signedContent parsed = Some content →
  signature parsed = Some signed →
  global_pubEd25519 w !! sender = Some pubKey →
  sign_detached_verify content signed pubKey = Some true →
  decryptFrom message sender w
  = match get_sender_key parsed sender w with
    | (Ok (Some senderKey), w1) =>
        match _symmetricDecryptMessage (payload parsed) senderKey
                (nonce parsed) w1 with
        | (Ok (Some cleartext), w2) =>
            (Ok (RMessage {| sender := sender; msg_type := type parsed;
                             msg_payload := cleartext |}), w2)
        | (Ok None, w2) => (Ok RFalse, w2)
        | (Throw e, w2) => (Throw e, w2)
        end
    | (Ok None, w1) => (Ok RFalse, w1)
    | (Throw e, w1) => (Throw e, w1)
    end.
Proof.
  intros Hparse Hversion Hcontent Hsigned Hpub Hverify.
  unfold decryptFrom. rewrite run_bind, Hparse. cbv beta iota.
  rewrite bool_decide_eq_false_2 by (by rewrite Hversion; intros []).
  rewrite run_bind. cbn [get_world]. cbv beta iota.
  rewrite Hcontent, Hsigned, Hpub, run_bind.
  rewrite (verifyMessage_run _ _ _ true) by done.
  cbn [negb]. cbv beta iota. rewrite run_bind.
  destruct (get_sender_key parsed sender w) as [[[senderKey | ] | e] w1];
    [ | done | done ].
  rewrite run_bind.
  by destruct (_symmetricDecryptMessage _ _ _ w1) as [[[cleartext | ] | e] w2].
Qed.

(** The sender key of a message without a KEYS record is the one the
    receiver caches under the key ID of the message. *)
Lemma get_sender_key_cached parsed sender w senderKey :
  keys parsed = [] →
  cached_key w sender (Js.undefined_key (keyIds parsed !! 0%nat))
  = Some senderKey →
  senderKey ≠ [] →
  get_sender_key parsed sender w = (Ok (Some (Some senderKey)), w).
Proof.
  intros Hkeys Hcached Hne. unfold get_sender_key. rewrite Hkeys.
  rewrite run_bind. cbn [get_this]. cbv beta iota.
  unfold cached_key in Hcached. rewrite Hcached.
  by destruct senderKey.
Qed.

(** The receiver unwraps the keys with the IV of its own handle and the
    key-encryption key it shares with the sender. *)
Lemma decryptKeysFor_run encryptedKeys nonce sender w pubKey kek clear :
  global_pubCu25519 w !! sender = Some pubKey →
  pubKey ≠ [] →
  key_encryption_key (privCu25519 (this w)) pubKey = Some kek →
  AES_CBC_decrypt encryptedKeys kek
    (key_encryption_iv (ownHandle (this w)) nonce) = Some clear →
  (length clear `mod` KEY_SIZE = 0)%nat →
  _decryptKeysFor encryptedKeys (Some nonce) (Some sender) false w
  = (Ok (Js.chunks KEY_SIZE clear), w).
Proof.
  intros Hpub Hne Hkek Hclear Hlen.
  unfold key_encryption_key in Hkek.
  destruct (scalarMult _ _) as [sharedSecret | ] eqn:Hsm; [ | done ].
  injection Hkek as <-.
  unfold _decryptKeysFor, _computeSymmetricKey, key_encryption_iv in *.
  run_monad. cbn [Js.undefined_key]. rewrite Hpub.
  destruct pubKey as [ | c pubKey ]; [ done | ]. cbn [Js.truthy negb].
  rewrite Hsm. unfold Js.substring_to. rewrite Hclear.
  by rewrite bool_decide_eq_true_2 by done.
Qed.


(** Keys that are the sender's own under their IDs contradict nothing in
    a cache whose non-empty keys are the sender's own. *)
Lemma write_keys_consistent (own : gmap jsstring jsstring) keyIds
    decryptedKeys i cached :
  (∀ j key, decryptedKeys !! j = Some key →
     own !! Js.undefined_key (keyIds !! (i + j)%nat) = Some key) →
  (∀ id key, cached !! id = Some key → key ≠ [] → own !! id = Some key) →
  (write_keys keyIds i decryptedKeys cached).1 = true.
Proof.
  revert i cached.
  induction decryptedKeys as [ | key decryptedKeys IH ];
    intros i cached Hown Hcached; [ done | ].
  cbn [write_keys]. cbv zeta.
  pose proof (Hown 0%nat key eq_refl) as Hkey. rewrite Nat.add_0_r in Hkey.
  destruct (Js.truthy (cached !! _) && bool_decide (cached !! _ ≠ Some key))
    eqn:Hconflict.
  - apply andb_prop in Hconflict as [Htruthy Hdiffers].
    apply bool_decide_eq_true in Hdiffers.
    destruct (cached !! Js.undefined_key (keyIds !! i))
      as [ [ | c k ] | ] eqn:Hc; [ done | | done ].
    apply Hcached in Hc; [ | done ]. congruence.
  - apply IH.
    + intros j k Hk.
      replace (S i + j)%nat with (i + S j)%nat by lia. apply (Hown (S j)), Hk.
    + intros id k. destruct (decide (id = Js.undefined_key (keyIds !! i)))
        as [-> | Hid].
      * rewrite lookup_insert_eq. intros [= <-] _. exact Hkey.
      * rewrite lookup_insert_ne by done. apply Hcached.
Qed.

End receiving.

End Receiving.

(** ** The round trip *)

Module RoundTrip.
Import strongvelope Spec Run Parser Cache Bindings Sending Receiving Rotation.

Lemma chunks_one n s : (0 < n)%nat → length s = n → Js.chunks n s = [s].
Proof.
  intros Hn Hs. rewrite <- (app_nil_r s) at 1. by rewrite chunks_app.
Qed.

Lemma chunks_two n s t :
  (0 < n)%nat → length s = n → length t = n → Js.chunks n (s ++ t) = [s; t].
Proof.
  intros Hn Hs Ht. rewrite chunks_app by done. by rewrite chunks_one.
Qed.

Lemma cached_key_default w handle id :
  default ∅ (participantKeys (this w) !! handle) !! id = cached_key w handle id.
Proof.
  unfold cached_key. by destruct (participantKeys (this w) !! handle).
Qed.

(** Closes the side condition that a record of a message fits. *)
Ltac fits :=
  cbv [fst snd TLV_TYPES.SIGNATURE TLV_TYPES.MESSAGE_TYPE TLV_TYPES.NONCE
       TLV_TYPES.RECIPIENT TLV_TYPES.KEYS TLV_TYPES.KEY_IDS TLV_TYPES.PAYLOAD
       NONCE_SIZE] in *;
  cbn [length]; lia.

Section round_trip.
Context `{Primitives}.

(** What the parser makes of a follow-up message and of a keyed one. *)
Lemma parse_followup signed nonce currentKeyId c w :
  Z.of_nat (length signed) < 65536 →
  length nonce = NONCE_SIZE →
  length currentKeyId = 4%nat →
  Z.of_nat (length c) < 65536 →
  _parseMessageContent
    (wire_message PROTOCOL_VERSION
       ((TLV_TYPES.SIGNATURE, signed)
        :: followup_records nonce currentKeyId c)) w
  = (Ok (Some
      {| protocolVersion := Num PROTOCOL_VERSION;
         signature := Some signed;
         signedContent :=
           Some (encode_records (followup_records nonce currentKeyId c));
         type := Some (Num MESSAGE_TYPES.GROUP_FOLLOWUP);
         nonce := Some nonce; recipients := []; keys := [];
         keyIds := [currentKeyId];
         payload := Some c; undefined_slot := None |}), w).
Proof.
  intros Hsigned Hnonce Hid Hc.
  rewrite parseMessageContent_records.
  - assert (Js.chunks _KEY_ID_SIZE currentKeyId = [currentKeyId]) as <-
      by (apply chunks_one; [ unfold _KEY_ID_SIZE; lia | done ]).
    reflexivity.
  - unfold followup_records, fits_record.
    repeat apply Forall_cons_2; try apply Forall_nil; fits.
  - reflexivity.
  - reflexivity.
Qed.

Lemma parse_keyed signed nonce recipient encryptedKeys ids c w :
  Z.of_nat (length signed) < 65536 →
  length nonce = NONCE_SIZE →
  Z.of_nat (length recipient) < 65536 →
  Z.of_nat (length encryptedKeys) < 65536 →
  Z.of_nat (length ids) < 65536 →
  Z.of_nat (length c) < 65536 →
  _parseMessageContent
    (wire_message PROTOCOL_VERSION
       ((TLV_TYPES.SIGNATURE, signed)
        :: keyed_records nonce recipient encryptedKeys ids c)) w
  = (Ok (Some
      {| protocolVersion := Num PROTOCOL_VERSION;
         signature := Some signed;
         signedContent :=
           Some (encode_records
                   (keyed_records nonce recipient encryptedKeys ids c));
         type := Some (Num MESSAGE_TYPES.GROUP_KEYED);
         nonce := Some nonce;
         recipients := [base64urlencode recipient];
         keys := [encryptedKeys];
         keyIds := Js.chunks _KEY_ID_SIZE ids;
         payload := Some c; undefined_slot := None |}), w).
Proof.
  intros Hsigned Hnonce Hrecipient Hkeys Hids Hc.
  rewrite parseMessageContent_records.
  - reflexivity.
  - unfold keyed_records, fits_record.
    repeat apply Forall_cons_2; try apply Forall_nil; fits.
  - reflexivity.
  - reflexivity.
Qed.

(** The world in which [encryptTo] encrypts holds a sender key if the
    one it is called in does, and the same key material. *)
Lemma rotation_checked_holds w :
  holds_sender_key w → 0 ≤ now w / _ONE_DAY < 65536 →
  holds_sender_key (rotation_checked w)
  ∧ ownHandle (this (rotation_checked w)) = ownHandle (this w)
  ∧ privCu25519 (this (rotation_checked w)) = privCu25519 (this w)
  ∧ privEd25519 (this (rotation_checked w)) = privEd25519 (this w)
  ∧ pubEd25519 (this (rotation_checked w)) = pubEd25519 (this w)
  ∧ global_pubCu25519 (rotation_checked w) = global_pubCu25519 w.
Proof.
  intros Hholds Hday. unfold rotation_checked. case_bool_decide; [ | done ].
  destruct (rotated_holds_sender_key w Hholds Hday)
    as (own & oldKeyId & oldKey & _ & Hkey & _ & _ & _ & Hrotated).
  split; [ exact Hrotated | ].
  unfold rotated. rewrite Hkey. by destruct oldKeyId.
Qed.


End round_trip.

Lemma toy_chat_keys_agree :
  chat_keys_agree (H := Toy.primitives)
    Scenario.privCuA (Toy.public_of Scenario.privCuB)
    Scenario.privCuB (Toy.public_of Scenario.privCuA).
Proof.
  intros sharedSecret Hshared.
  assert (scalarMult (Primitives := Toy.primitives)
            Scenario.privCuB (Toy.public_of Scenario.privCuA)
          = scalarMult (Primitives := Toy.primitives)
              Scenario.privCuA (Toy.public_of Scenario.privCuB)) as ->
    by by_evaluation.
  exact Hshared.
Qed.




End RoundTrip.

(** ** What a failure of [decryptFrom] looks like to the caller *)

Module Reported.
Import strongvelope Spec Run Parser Cache Logs Bindings Failures Causes Receiving.
Import RoundTrip.

(** A key that contradicts a non-empty key of the cache stops the loop
    over the keys, at that key or before. *)
Lemma write_keys_conflict keyIds decryptedKeys i cached j key cachedKey :
  decryptedKeys !! j = Some key →
  cached !! Js.undefined_key (keyIds !! (i + j)%nat) = Some cachedKey →
  cachedKey ≠ [] → cachedKey ≠ key →
  (write_keys keyIds i decryptedKeys cached).1 = false.
Proof.
  intros Hkey Hcached Hne Hdiffers. revert i j cached Hkey Hcached.
  induction decryptedKeys as [ | k ks IH ]; intros i j cached Hkey Hcached;
    [ done | ].
  cbn [write_keys]. cbv zeta.
  destruct (Js.truthy (cached !! Js.undefined_key (keyIds !! i))
            && bool_decide (cached !! Js.undefined_key (keyIds !! i) ≠ Some k))
    eqn:Hconflict; [ done | ].
  destruct j as [ | j ].
  - exfalso. rewrite Nat.add_0_r in Hcached. injection Hkey as ->.
    rewrite Hcached in Hconflict.
    rewrite bool_decide_eq_true_2 in Hconflict by congruence.
    by destruct cachedKey.
  - apply (IH (S i) j); [ exact Hkey | ].
    replace (S i + j)%nat with (i + S j)%nat by lia.
    destruct (decide (Js.undefined_key (keyIds !! i)
                      = Js.undefined_key (keyIds !! (i + S j)%nat)))
      as [Heq | Hother]; [ | by rewrite lookup_insert_ne ].
    rewrite <- Heq in *. rewrite lookup_insert_eq. rewrite Hcached in Hconflict.
    destruct cachedKey as [ | c cachedKey ]; [ done | ].
    cbn [Js.truthy andb] in Hconflict.
    apply bool_decide_eq_false in Hconflict. apply dec_stable in Hconflict.
    by rewrite Hconflict.
Qed.

Section reported.
Context `{Primitives}.

(** The parser logs only when it gives up. *)
Lemma parse_records_quiet fuel rest lastTlvType parsedContent w parsed w' :
  parse_records fuel rest lastTlvType parsedContent w = (Ok (Some parsed), w') →
  w' = w.
Proof.
  revert rest lastTlvType parsedContent.
  induction fuel as [ | fuel IH ]; intros rest lastTlvType parsedContent;
    cbn [parse_records].
  - by intros [_ <-]%ret_ok_inv.
  - case_bool_decide; [ | by intros [_ <-]%ret_ok_inv ].
    destruct (tlvstore.splitSingleTlvRecord rest) as [part | ];
      [ | intros ?; simplify_eq ].
    destruct (js_lt _ _); [ run_monad; intros ?; simplify_eq | apply IH ].
Qed.

Lemma parseMessageContent_quiet message w parsed w' :
  _parseMessageContent message w = (Ok (Some parsed), w') → w' = w.
Proof.
  unfold _parseMessageContent. cbv zeta. intros Hrun.
  apply bind_ok_inv in Hrun as (r & w1 & Hrecords & Hrun).
  destruct r as [parsedContent | ]; [ | apply ret_ok_inv in Hrun as [? _]; done ].
  apply parse_records_quiet in Hrecords as ->.
  destruct (_ && _); [ | by apply ret_ok_inv in Hrun as [_ <-] ].
  revert Hrun. run_monad. intros ?; simplify_eq.
Qed.

Lemma symmetricDecryptMessage_garbled cipher key nonce data w :
  AES_CTR_decrypt cipher key (take NONCE_SIZE nonce) = Some data →
  utf8_decode data = None →
  _symmetricDecryptMessage (Some cipher) (Some key) (Some nonce) w
  = (Ok None, after_logging [CouldNotDecrypt] w).
Proof.
  intros Hd Hu. unfold _symmetricDecryptMessage, Js.substring_to. run_monad.
  by rewrite Hd, Hu.
Qed.

End reported.

(** C6, as amended.  [decryptFrom] reports each failure it detects to
    the caller as the boolean [false], whatever the cause, and logs the
    error of that cause last: 'Incoming message not usable.' for a
    message the parser gives up on, 'Message not compatible with current
    protocol version.' for another version, 'Message signature invalid.'
    for a signature that does not verify, "Mismatching statement on
    sender's previous key." for a key that contradicts a cached one,
    'Encryption key ... unavailable.' for a follow-up message under a
    key the receiver does not hold, and 'Could not decrypt message,
    probably a wrong key/nonce.' for a payload that does not decrypt to
    a text.  These are six different errors, and whenever [false] is
    returned the error logged last is one of them. *)
Theorem failure_is_false_and_logged `{Primitives}
    (message sender : jsstring) (w : World) :
  let result := decryptFrom message sender w in
  (∀ w1, _parseMessageContent message w = (Ok None, w1) →
     result = (Ok RFalse, after_logging [MessageNotUsable] w1))
  ∧ (∀ parsed w1, _parseMessageContent message w = (Ok (Some parsed), w1) →
       (protocolVersion parsed ≠ Num PROTOCOL_VERSION →
          result = (Ok RFalse, after_logging [IncompatibleVersion] w1))
       ∧ ∀ content signed pubKey,
           protocolVersion parsed = Num PROTOCOL_VERSION →
           signedContent parsed = Some content →
           signature parsed = Some signed →
           global_pubEd25519 w1 !! sender = Some pubKey →
           (sign_detached_verify content signed pubKey = Some false →
              result = (Ok RFalse, after_logging [SignatureInvalid] w1))
           ∧ (sign_detached_verify content signed pubKey = Some true →
                (∀ encryptedKeys rest decryptedKeys w2 i key cachedKey,
                   let isOwnMessage := bool_decide (sender = ownHandle (this w1)) in
                   let otherHandle :=
                     if isOwnMessage then recipients parsed !! 0%nat
                     else Some sender in
                   keys parsed = encryptedKeys :: rest →
                   _decryptKeysFor encryptedKeys (nonce parsed) otherHandle
                     isOwnMessage w1 = (Ok decryptedKeys, w2) →
                   decryptedKeys !! i = Some key →
                   cached_key w2 sender (Js.undefined_key (keyIds parsed !! i))
                   = Some cachedKey →
                   cachedKey ≠ [] → cachedKey ≠ key →
                   ∃ w', result = (Ok RFalse, w')
                         ∧ logged w' = logged w2 ++ [MismatchingSenderKey])
                ∧ (let keyId := Js.undefined_key (keyIds parsed !! 0%nat) in
                   keys parsed = [] →
                   Js.truthy (cached_key w1 sender keyId) = false →
                   result
                   = (Ok RFalse,
                      after_logging
                        [KeyUnavailable sender (base64urlencode keyId)] w1))
                ∧ (∀ senderKey w2 cipher baseNonce data,
                     get_sender_key parsed sender w1
                     = (Ok (Some (Some senderKey)), w2) →
                     payload parsed = Some cipher →
                     nonce parsed = Some baseNonce →
                     AES_CTR_decrypt cipher senderKey
                       (take NONCE_SIZE baseNonce) = Some data →
                     utf8_decode data = None →
                     result
                     = (Ok RFalse, after_logging [CouldNotDecrypt] w2))))
  ∧ (∀ sender' keyId,
       NoDup [MessageNotUsable; IncompatibleVersion; SignatureInvalid;
              MismatchingSenderKey; KeyUnavailable sender' keyId;
              CouldNotDecrypt])
  ∧ (∀ w', result = (Ok RFalse, w') →
       ∃ entries cause,
         failure_cause cause ∧ logged w' = logged w ++ entries ++ [cause]).
Proof.
  cbv zeta. split_and!.
  - intros w1 Hparse. unfold decryptFrom. by rewrite run_bind, Hparse.
  - intros parsed w1 Hparse. split.
    { intros Hversion. unfold decryptFrom. rewrite run_bind, Hparse.
      cbv beta iota. by rewrite bool_decide_eq_true_2. }
    intros content signed pubKey Hversion Hcontent Hsigned Hpub.
    pose proof (parseMessageContent_quiet _ _ _ _ Hparse) as ->.
    split.
    { intros Hverify. unfold decryptFrom. rewrite run_bind, Hparse.
      cbv beta iota.
      rewrite bool_decide_eq_false_2 by (by rewrite Hversion; intros []).
      rewrite run_bind. cbn [get_world]. cbv beta iota.
      rewrite Hcontent, Hsigned, Hpub, run_bind.
      by rewrite (verifyMessage_run _ _ _ false) by done. }
    intros Hverify.
    rewrite (decryptFrom_verified _ _ _ _ _ _ _
               Hparse Hversion Hcontent Hsigned Hpub Hverify).
    split_and!.
    + intros encryptedKeys rest decryptedKeys w2 i key cachedKey Hkeys Hunwrap
        Hkey Hcached Hne Hdiffers.
      rewrite (get_sender_key_keyed_run _ _ _ _ _ Hkeys). cbv zeta.
      rewrite Hunwrap.
      unfold cached_key in Hcached.
      destruct (participantKeys (this w2) !! sender) as [cached | ] eqn:Hc;
        [ | done ].
      cbn [default mbind option_bind] in *.
      rewrite (write_keys_conflict _ _ 0 _ i key cachedKey) by done.
      eexists. split; [ reflexivity | reflexivity ].
    + intros Hkeys Hnokey. unfold get_sender_key. rewrite Hkeys.
      rewrite run_bind. cbn [get_this]. cbv beta iota.
      unfold cached_key in Hnokey. by rewrite Hnokey.
    + intros senderKey w2 cipher baseNonce data Hget Hpayload Hnonce Hdata
        Hdecode.
      rewrite Hget, Hpayload, Hnonce.
      by rewrite (symmetricDecryptMessage_garbled _ _ _ data).
  - intros sender' keyId.
    repeat (apply NoDup_cons_2;
            [ rewrite ?not_elem_of_cons; split_and?;
              (discriminate || apply not_elem_of_nil) | ]).
    apply NoDup_nil_2.
  - intros w' Hrun. unfold decryptFrom in Hrun.
    apply bind_ok_inv in Hrun as (parsed & w1 & Hparse & Hrun).
    apply logs_of_run in Hparse; [ | apply logs_parseMessageContent ].
    eapply ends_with_cause_after; [ by apply only_logged_log_grows | ].
    clear Hparse.
    destruct parsed as [parsedMessage | ];
      [ | eapply logger_error_cause; [ exact Hrun | exact I ] ].
    case_bool_decide;
      [ eapply logger_error_cause; [ exact Hrun | exact I ] | ].
    apply bind_ok_inv in Hrun as (w1' & w2 & [= <- <-] & Hrun).
    apply bind_ok_inv in Hrun as (verified & w3 & Hverify & Hrun).
    apply logs_of_run in Hverify; [ | apply logs_verifyMessage ].
    eapply ends_with_cause_after; [ by apply only_logged_log_grows | ].
    clear Hverify.
    destruct verified; cbn [negb] in Hrun;
      [ | eapply logger_error_cause; [ exact Hrun | exact I ] ].
    apply bind_ok_inv in Hrun as (senderKey & w4 & Hget & Hrun).
    destruct senderKey as [senderKey | ].
    + apply bind_ok_inv in Hrun as (cleartext & w5 & Hdecrypt & Hrun).
      destruct cleartext; [ done | ].
      apply ret_ok_inv in Hrun as [_ <-].
      eapply ends_with_cause_after;
        [ | by eapply symmetricDecryptMessage_none ].
      eapply run_preserved; [ apply grows_get_sender_key | exact Hget ].
    + apply ret_ok_inv in Hrun as [_ <-]. by eapply get_sender_key_none.
Qed.

Lemma failure_is_false_and_logged_witness :
  let decrypt message w :=
    decryptFrom (H := Toy.primitives) message Scenario.handleA w in
  decrypt Scenario.key_ids_before_nonce Scenario.heardHello
  = (Ok RFalse,
     after_logging [MessageNotUsable]
       (after_logging [UnexpectedTlvType] Scenario.heardHello))
  ∧ decrypt Scenario.version_one Scenario.heardHello
    = (Ok RFalse, after_logging [IncompatibleVersion] Scenario.heardHello)
  ∧ decrypt Scenario.tampered Scenario.worldB
    = (Ok RFalse, after_logging [SignatureInvalid] Scenario.worldB)
  ∧ (∃ w', decrypt Scenario.helloWire Scenario.heardOther = (Ok RFalse, w')
           ∧ logged w' = logged Scenario.heardOther ++ [MismatchingSenderKey])
  ∧ decrypt Scenario.worldWire Scenario.worldB
    = (Ok RFalse,
       after_logging
         [KeyUnavailable Scenario.handleA
            (base64urlencode (Primitives := Toy.primitives) Scenario.keyId0)]
         Scenario.worldB)
  ∧ decrypt Scenario.garbled Scenario.heardHello
    = (Ok RFalse, after_logging [CouldNotDecrypt] Scenario.heardHello).
Proof.
  cbv zeta.
  pose proof (failure_is_false_and_logged (H := Toy.primitives)
                Scenario.key_ids_before_nonce Scenario.handleA
                Scenario.heardHello) as (Hmalformed & _).
  pose proof (failure_is_false_and_logged (H := Toy.primitives)
                Scenario.version_one Scenario.handleA Scenario.heardHello)
    as (_ & Hversion & _).
  pose proof (failure_is_false_and_logged (H := Toy.primitives)
                Scenario.tampered Scenario.handleA Scenario.worldB)
    as (_ & Htampered & _).
  pose proof (failure_is_false_and_logged (H := Toy.primitives)
                Scenario.helloWire Scenario.handleA Scenario.heardOther)
    as (_ & Hrepeated & _).
  pose proof (failure_is_false_and_logged (H := Toy.primitives)
                Scenario.worldWire Scenario.handleA Scenario.worldB)
    as (_ & Hunheard & _).
  pose proof (failure_is_false_and_logged (H := Toy.primitives)
                Scenario.garbled Scenario.handleA Scenario.heardHello)
    as (_ & Hgarbled & _).
  cbv zeta in *.
  split; [ | split; [ | split; [ | split; [ | split ] ] ] ].
  - apply Hmalformed. by_evaluation.
  - refine (proj1 (Hversion _ _ _) _).
    + apply (parseMessageContent_records (H := Toy.primitives) 1 []);
        [ apply Forall_nil_2 | reflexivity | reflexivity ].
    + cbn. unfold PROTOCOL_VERSION. intros [= ].
  - pose proof (parse_keyed (H := Toy.primitives)
                  Scenario.helloSignature Scenario.helloNonce Scenario.handleB
                  Scenario.helloKeys Scenario.keyId0 [1; 2; 3] Scenario.worldB)
      as Hparse.
    refine (proj1 (proj2 (Htampered _ _ (Hparse _ _ _ _ _ _))
                     _ _ (pubEd25519 Scenario.freshA) _ _ _ _) _);
      [ vm_compute; reflexivity .. | | | | | ].
    + reflexivity.
    + reflexivity.
    + reflexivity.
    + by_evaluation.
    + by_evaluation.
  - pose proof (parse_keyed (H := Toy.primitives)
                  Scenario.helloSignature Scenario.helloNonce Scenario.handleB
                  Scenario.helloKeys Scenario.keyId0 Scenario.helloPayload
                  Scenario.heardOther) as Hparse.
    refine (proj1 (proj2 (proj2 (Hrepeated _ _ (Hparse _ _ _ _ _ _))
                            _ _ (pubEd25519 Scenario.freshA) _ _ _ _) _)
              Scenario.helloKeys [] [Scenario.senderKey0] Scenario.heardOther
              0%nat Scenario.senderKey0 Scenario.otherSenderKey0 _ _ _ _ _ _);
      [ vm_compute; reflexivity .. | | | | | | | | | | | ].
    + reflexivity.
    + reflexivity.
    + reflexivity.
    + by_evaluation.
    + by_evaluation.
    + reflexivity.
    + cbn [nonce recipients].
      rewrite (bool_decide_eq_false_2 (Scenario.handleA = _)) by (by vm_compute).
      apply (decryptKeysFor_run (H := Toy.primitives) _ _ _ _
               (Toy.public_of Scenario.privCuA)
               (take KEY_SIZE
                  (Toy.digest (default [] (Toy.agree Scenario.privCuB
                                             (Toy.public_of Scenario.privCuA)))))
               Scenario.senderKey0).
      * by_evaluation.
      * vm_compute. discriminate.
      * by_evaluation.
      * by_evaluation.
      * reflexivity.
    + reflexivity.
    + by_evaluation.
    + discriminate.
    + vm_compute. discriminate.
  - pose proof (parse_followup (H := Toy.primitives)
                  Scenario.worldSignature Scenario.worldNonce Scenario.keyId0
                  Scenario.worldPayload Scenario.worldB) as Hparse.
    refine (proj1 (proj2 (proj2 (proj2 (Hunheard _ _ (Hparse _ _ _ _))
                                   _ _ (pubEd25519 Scenario.freshA) _ _ _ _) _))
              _ _);
      [ vm_compute; reflexivity .. | | | | | | | ].
    + reflexivity.
    + reflexivity.
    + reflexivity.
    + by_evaluation.
    + by_evaluation.
    + reflexivity.
    + reflexivity.
  - pose proof (parse_followup (H := Toy.primitives)
                  (Toy.tag (encode_records Scenario.garbled_content)
                     (pubEd25519 Scenario.freshA))
                  [1; 2; 3; 4; 5; 6; 7; 8; 9; 10; 11; 12] Scenario.keyId0
                  [255; 255] Scenario.heardHello) as Hparse.
    refine (proj2 (proj2 (proj2 (proj2 (Hgarbled _ _ (Hparse _ _ _ _))
                                   _ _ (pubEd25519 Scenario.freshA) _ _ _ _) _))
              Scenario.senderKey0 Scenario.heardHello [255; 255]
              [1; 2; 3; 4; 5; 6; 7; 8; 9; 10; 11; 12] [253; 246] _ _ _ _ _);
      [ vm_compute; reflexivity .. | | | | | | | | | | ].
    + reflexivity.
    + reflexivity.
    + reflexivity.
    + by_evaluation.
    + by_evaluation.
    + apply (get_sender_key_cached (H := Toy.primitives) _ _ _
               Scenario.senderKey0); [ reflexivity | by_evaluation | discriminate ].
    + reflexivity.
    + reflexivity.
    + by_evaluation.
    + by_evaluation.
Defined.

End Reported.

(** * Further properties of the module *)

(** ** Key identifiers *)

Module KeyIds.
Import strongvelope Spec Run KeyIdFacts Derivation.

(** X1.  A date stamp and a counter of 16 bits each make a key ID of four
    characters, from which [_splitKeyId] reads them back; this holds for
    date stamps from 32768 on as well, where the 32-bit number of the
    key ID is negative. *)
Theorem keyId_round_trip (dateStamp counter : Z) :
  0 ≤ dateStamp < 65536 → 0 ≤ counter < 65536 →
  length (_encodeKeyId dateStamp counter) = _KEY_ID_SIZE
  ∧ _splitKeyId (_encodeKeyId dateStamp counter) = (dateStamp, counter).
Proof. intros Hd Hc. split; [ reflexivity | by apply split_encode ]. Qed.

Lemma keyId_round_trip_witness :
  length (_encodeKeyId 40000 65535) = _KEY_ID_SIZE
  ∧ _splitKeyId (_encodeKeyId 40000 65535) = (40000, 65535).
Proof. apply keyId_round_trip; lia. Defined.

(** X2.  Whatever the string, [_splitKeyId] returns a date stamp and a
    counter of 16 bits. *)
Theorem splitKeyId_in_16_bits (keyId : jsstring) :
  0 ≤ (_splitKeyId keyId).1 < 65536 ∧ 0 ≤ (_splitKeyId keyId).2 < 65536.
Proof. apply split_range. Qed.

Lemma nextKeyId_same_day day counter :
  0 ≤ day < 65536 → 0 ≤ counter < 65536 →
  nextKeyId day (Some (_encodeKeyId day counter))
  = _encodeKeyId day ((counter + 1) mod 65536).
Proof.
  intros Hd Hc. unfold nextKeyId, nextKeyIdComponents.
  change (Js.truthy (Some (_encodeKeyId day counter))) with true.
  cbn [Js.null_key]. cbv iota. rewrite split_encode by done.
  rewrite decide_False by (by intros []).
  by rewrite counter_step.
Qed.

(** X3.  Rotations on one day count the key IDs up from the one they start
    at, in 16 bits: after [n] of them the counter is [counter + n]
    modulo 65536, so that the key ID of the day that was used 65536
    rotations before is used again. *)
Theorem key_ids_of_a_day (day counter : Z) (n : nat) :
  0 ≤ day < 65536 → 0 ≤ counter < 65536 →
  Nat.iter n (λ keyId, nextKeyId day (Some keyId)) (_encodeKeyId day counter)
  = _encodeKeyId day ((counter + Z.of_nat n) mod 65536).
Proof.
  intros Hd Hc. induction n as [ | n IH ].
  - cbn [Nat.iter Z.of_nat]. by rewrite Z.add_0_r, Z.mod_small.
  - rewrite Nat.iter_succ, IH.
    rewrite nextKeyId_same_day by (done || (apply Z.mod_pos_bound; lia)).
    f_equal. rewrite Zplus_mod_idemp_l. f_equal. lia.
Qed.

Lemma key_ids_of_a_day_witness :
  Nat.iter 2 (λ keyId, nextKeyId 20394 (Some keyId)) (_encodeKeyId 20394 65534)
  = _encodeKeyId 20394 ((65534 + Z.of_nat 2) mod 65536).
Proof. apply key_ids_of_a_day; lia. Defined.

End KeyIds.

(** ** Symmetric encryption of a message *)

Module Symmetric.
Import strongvelope Spec Run Sending Receiving.

Section symmetric.
Context `{Primitives}.

(** What [_symmetricEncryptMessage] returns: the key and the nonce it was
    given, the nonce cut to [NONCE_SIZE], or fresh random bytes in
    their place, and the text encrypted under them. *)
Lemma symmetricEncryptMessage_inv message k nonce w em w' :
  _symmetricEncryptMessage message k nonce w = (Ok em, w') →
  let w1 := if Js.truthy k then w else set_drawn (drawn w + KEY_SIZE) w in
  key em = (if Js.truthy k then Js.null_key k else random_bytes w KEY_SIZE)
  ∧ em_nonce em = (if Js.truthy nonce then take NONCE_SIZE (Js.null_key nonce)
                   else random_bytes w1 NONCE_SIZE)
  ∧ AES_CTR_encrypt (utf8_encode message) (key em) (em_nonce em)
    = Some (ciphertext em)
  ∧ w' = (if Js.truthy nonce then w1 else set_drawn (drawn w1 + NONCE_SIZE) w1).
Proof.
  unfold _symmetricEncryptMessage, Js.substring_to.
  destruct k as [ [ | c k ] | ], nonce as [ [ | d nonce ] | ];
    cbn [Js.truthy Js.null_key]; run_monad;
    match goal with
    | |- context [AES_CTR_encrypt ?a ?b ?c] => destruct (AES_CTR_encrypt a b c) eqn:E
    end;
    intros ?; simplify_eq; done.
Qed.

(** X4.  What [_symmetricEncryptMessage] returns is decrypted by
    [_symmetricDecryptMessage] to the message, under the key and the
    nonce of the object returned, whether they were given or drawn. *)
Theorem symmetric_round_trip (message : Text) (k nonce : option jsstring)
    (w w' wr : World) (em : EncryptedMessage) :
  ctr_inverts → utf8_inverts →
  _symmetricEncryptMessage message k nonce w = (Ok em, w') →
  _symmetricDecryptMessage (Some (ciphertext em)) (Some (key em))
    (Some (em_nonce em)) wr
  = (Ok (Some message), wr).
Proof.
  intros Hctr Hutf Hrun.
  apply symmetricEncryptMessage_inv in Hrun as (_ & Hnonce & Hc & _).
  apply Hctr in Hc as [Hclear _].
  apply (symmetricDecryptMessage_run _ _ _ (utf8_encode message));
    [ | apply Hutf ].
  rewrite <- Hclear. f_equal. rewrite Hnonce.
  destruct (Js.truthy nonce).
  - by rewrite take_take, Nat.min_id.
  - by rewrite take_ge by (by rewrite length_random_bytes).
Qed.

(** X5.  A nonce longer than [NONCE_SIZE] counts up to there, in
    encryption and in decryption. *)
Theorem nonce_is_truncated (message : Text) (cipher k : option jsstring)
    (nonce : jsstring) (w : World) :
  _symmetricEncryptMessage message k (Some nonce) w
  = _symmetricEncryptMessage message k (Some (take NONCE_SIZE nonce)) w
  ∧ _symmetricDecryptMessage cipher k (Some nonce) w
    = _symmetricDecryptMessage cipher k (Some (take NONCE_SIZE nonce)) w.
Proof.
  unfold _symmetricEncryptMessage, _symmetricDecryptMessage, Js.substring_to.
  split.
  - destruct nonce as [ | c nonce ]; [ done | ].
    change (Js.truthy (Some (take NONCE_SIZE (c :: nonce)))) with true.
    cbn [Js.truthy]. run_monad. by rewrite take_take, Nat.min_id.
  - run_monad. by rewrite take_take, Nat.min_id.
Qed.

End symmetric.

Lemma symmetric_round_trip_witness :
  _symmetricDecryptMessage (H := Toy.primitives)
    (Some [91; 95; 77; 68; 64]) (Some (Js.str "0123456789abcdef"))
    (Some [3; 10; 17; 24; 31; 38; 45; 52; 59; 66; 73; 80]) Scenario.worldB
  = (Ok (Some ("hello" : @Text Toy.primitives)), Scenario.worldB).
Proof.
  apply (symmetric_round_trip (H := Toy.primitives) "hello"
           (Some (Js.str "0123456789abcdef")) None Scenario.worldA
           (set_drawn 12 Scenario.worldA) Scenario.worldB
           {| ciphertext := [91; 95; 77; 68; 64];
              key := Js.str "0123456789abcdef";
              em_nonce := [3; 10; 17; 24; 31; 38; 45; 52; 59; 66; 73; 80] |}).
  - apply ToyLaws.toy_ctr_inverts.
  - apply ToyLaws.toy_utf8_inverts.
  - by_evaluation.
Defined.

End Symmetric.

(** ** Transport of the sender keys *)

Module KeyTransport.
Import strongvelope Spec Run Sending Receiving RoundTrip.

Lemma chunks_concat n (pieces : list jsstring) :
  (0 < n)%nat → Forall (λ piece, length piece = n) pieces →
  Js.chunks n (concat pieces) = pieces.
Proof.
  intros Hn. induction 1 as [ | piece pieces Hpiece _ IH ]; [ done | ].
  cbn [concat]. by rewrite chunks_app, IH.
Qed.

Lemma length_concat_mod n (pieces : list jsstring) :
  (0 < n)%nat → Forall (λ piece, length piece = n) pieces →
  (length (concat pieces) `mod` n = 0)%nat.
Proof.
  intros Hn. induction 1 as [ | piece pieces Hpiece _ IH ].
  - cbn. by apply Nat.Div0.mod_0_l.
  - cbn [concat]. rewrite length_app, Hpiece.
    rewrite <- Nat.Div0.add_mod_idemp_l, Nat.Div0.mod_same. exact IH.
Qed.

(** X6.  Keys of [KEY_SIZE] characters that [_encryptKeysFor] wraps for a
    destination are what [_decryptKeysFor] unwraps, one by one and in
    order: for the destination, with the public chat key it holds of the
    sender, and for the sender itself, reading its own message. *)
Theorem keys_round_trip `{Primitives} (keys : list jsstring)
    (nonce destination : jsstring) (ws ws' wr : World)
    (encryptedKeys pubR pubS : jsstring) :
  cbc_inverts →
  global_pubCu25519 ws !! destination = Some pubR →
  global_pubCu25519 wr !! ownHandle (this ws) = Some pubS →
  pubS ≠ [] →
  chat_keys_agree (privCu25519 (this ws)) pubR (privCu25519 (this wr)) pubS →
  ownHandle (this wr) = destination →
  Forall (λ k, length k = KEY_SIZE) keys →
  _encryptKeysFor (Some <$> keys) nonce destination ws
  = (Ok encryptedKeys, ws') →
  _decryptKeysFor encryptedKeys (Some nonce) (Some (ownHandle (this ws)))
    false wr
  = (Ok keys, wr)
  ∧ _decryptKeysFor encryptedKeys (Some nonce) (Some destination) true ws'
    = (Ok keys, ws').
Proof.
  intros Hcbc HpubR HpubS HneS Hagree Hdest Hkeys Hrun.
  apply encryptKeysFor_inv in Hrun
    as (-> & pubKey & kek & HpubKey & Hne & Hkek & Hwrap).
  rewrite HpubR in HpubKey. injection HpubKey as <-.
  assert (Js.undefined_key <$> (Some <$> keys) = keys) as Hclear.
  { rewrite <- list_fmap_compose. apply list_fmap_id. }
  rewrite Hclear in Hwrap. apply Hcbc in Hwrap as [Hunwrap _].
  assert (Js.chunks KEY_SIZE (concat keys) = keys) as Hchunks
    by (apply chunks_concat; [ cbv; lia | done ]).
  split.
  - erewrite (decryptKeysFor_run _ _ _ _ pubS kek);
      [ by rewrite Hchunks | done | done | | | ].
    + unfold key_encryption_key in *.
      destruct (scalarMult (privCu25519 (this ws)) pubR) as [shared | ] eqn:Hsm;
        [ | done ].
      by rewrite (Hagree _ Hsm).
    + by rewrite Hdest.
    + apply length_concat_mod; [ cbv; lia | done ].
  - unfold _decryptKeysFor, _computeSymmetricKey. run_monad.
    cbn [Js.undefined_key]. rewrite HpubR.
    destruct pubR as [ | c pubR ]; [ done | ]. cbn [Js.truthy negb].
    unfold key_encryption_key in Hkek.
    destruct (scalarMult _ _) as [shared | ]; [ | done ].
    injection Hkek as <-. unfold Js.substring_to.
    unfold key_encryption_iv in Hunwrap. rewrite Hunwrap.
    rewrite bool_decide_eq_true_2
      by (apply length_concat_mod; [ cbv; lia | done ]).
    by rewrite Hchunks.
Qed.

Lemma keys_round_trip_witness :
  let keys := [Js.str "0123456789abcdef"; Js.str "fedcba9876543210"] in
  let wrapped :=
    [198; 218; 42; 38; 254; 138; 138; 158; 102; 106; 97; 31; 17; 3; 225; 247;
     128; 158; 108; 102; 184; 206; 149; 129; 121; 117; 37; 89; 81; 69; 165;
     177] in
  _decryptKeysFor (H := Toy.primitives) wrapped (Some (Js.str "nonce-of-12b"))
    (Some (ownHandle (this Scenario.worldA))) false Scenario.worldB
  = (Ok keys, Scenario.worldB)
  ∧ _decryptKeysFor (H := Toy.primitives) wrapped (Some (Js.str "nonce-of-12b"))
      (Some Scenario.handleB) true Scenario.worldA
    = (Ok keys, Scenario.worldA).
Proof.
  cbv zeta.
  apply (keys_round_trip (H := Toy.primitives) _ _ _ Scenario.worldA _ _ _
           (Toy.public_of Scenario.privCuB) (Toy.public_of Scenario.privCuA)).
  - apply ToyLaws.toy_cbc_inverts.
  - by_evaluation.
  - by_evaluation.
  - vm_compute. discriminate.
  - apply toy_chat_keys_agree.
  - reflexivity.
  - repeat apply Forall_cons_2; try apply Forall_nil_2; reflexivity.
  - by_evaluation.
Defined.

End KeyTransport.

(** ** What the parser accepts *)

Module Parsing.
Import strongvelope Spec Run Parser Logs Receiving.

Section parsing.
Context `{Primitives}.

(** The fields a record leaves alone. *)
Lemma store_record_version tlvType part parsedContent :
  protocolVersion (store_record tlvType part parsedContent)
  = protocolVersion parsedContent.
Proof. unfold store_record. by repeat case_decide. Qed.

Lemma store_record_recipients (tlvType : Z) part parsedContent :
  recipients (store_record (Num tlvType) part parsedContent)
  = recipients parsedContent
    ++ (if decide (tlvType = TLV_TYPES.RECIPIENT)
        then [base64urlencode (tlvstore.record part).2] else []).
Proof.
  unfold store_record.
  repeat case_decide; simplify_eq; cbn; by rewrite ?app_nil_r.
Qed.

Lemma store_record_keys (tlvType : Z) part parsedContent :
  keys (store_record (Num tlvType) part parsedContent)
  = keys parsedContent
    ++ (if decide (tlvType = TLV_TYPES.KEYS)
        then [(tlvstore.record part).2] else []).
Proof.
  unfold store_record.
  repeat case_decide; simplify_eq; cbn; by rewrite ?app_nil_r.
Qed.

Lemma store_record_signed (tlvType : Z) part parsedContent :
  tlvType ≠ TLV_TYPES.SIGNATURE →
  signedContent (store_record (Num tlvType) part parsedContent)
  = signedContent parsedContent.
Proof.
  intros Hne. unfold store_record. by repeat case_decide; simplify_eq.
Qed.

Lemma store_records_version records parsedContent :
  protocolVersion (store_records records parsedContent)
  = protocolVersion parsedContent.
Proof.
  revert parsedContent.
  induction records as [ | [tlvType value] records IH ]; intros parsedContent;
    [ done | ].
  cbn [store_records]. by rewrite IH, store_record_version.
Qed.

Lemma store_records_recipients records parsedContent :
  recipients (store_records records parsedContent)
  = recipients parsedContent
    ++ (base64urlencode <$> values_of TLV_TYPES.RECIPIENT records).
Proof.
  revert parsedContent.
  induction records as [ | [tlvType value] records IH ]; intros parsedContent.
  - cbn. by rewrite app_nil_r.
  - cbn [store_records]. rewrite IH, store_record_recipients.
    unfold values_of. rewrite filter_cons. cbn [fst snd tlvstore.record].
    case_decide; cbn; by rewrite <- ?app_assoc, ?app_nil_r.
Qed.

Lemma store_records_keys records parsedContent :
  keys (store_records records parsedContent)
  = keys parsedContent ++ values_of TLV_TYPES.KEYS records.
Proof.
  revert parsedContent.
  induction records as [ | [tlvType value] records IH ]; intros parsedContent.
  - cbn. by rewrite app_nil_r.
  - cbn [store_records]. rewrite IH, store_record_keys.
    unfold values_of. rewrite filter_cons. cbn [fst snd tlvstore.record].
    case_decide; cbn; by rewrite <- ?app_assoc, ?app_nil_r.
Qed.

Lemma store_records_signed records parsedContent :
  TLV_TYPES.SIGNATURE ∉ records.*1 →
  signedContent (store_records records parsedContent)
  = signedContent parsedContent.
Proof.
  revert parsedContent.
  induction records as [ | [tlvType value] records IH ]; intros parsedContent;
    [ done | ].
  cbn [fmap list_fmap fst]. intros Hnot.
  apply not_elem_of_cons in Hnot as [Hne Hnot].
  cbn [store_records]. rewrite IH by done. by apply store_record_signed.
Qed.

(** X7.  Of a message whose records are in ascending order, the parser
    collects the RECIPIENT records (encoded) and the KEYS records, each
    in order, and then compares their numbers, but only if there is a
    recipient: it gives up on recipients without as many keys, and
    accepts keys without any recipient. *)
Theorem parser_counts_keys_and_recipients (version : Z)
    (records : list (Z * jsstring)) (w : World) :
  Forall fits_record records →
  ascending_from (-1) records.*1 = true →
  let recipients_sent := values_of TLV_TYPES.RECIPIENT records in
  let keys_sent := values_of TLV_TYPES.KEYS records in
  match _parseMessageContent (wire_message version records) w with
  | (Ok (Some parsed), w') =>
      w' = w
      ∧ (recipients_sent = [] ∨ length recipients_sent = length keys_sent)
      ∧ protocolVersion parsed = Num version
      ∧ recipients parsed = base64urlencode <$> recipients_sent
      ∧ keys parsed = keys_sent
  | (Ok None, w') =>
      w' = after_logging [KeysRecipientsMismatch] w
      ∧ recipients_sent ≠ []
      ∧ length recipients_sent ≠ length keys_sent
  | (Throw _, _) => False
  end.
Proof.
  intros Hfits Hasc recipients_sent keys_sent.
  unfold _parseMessageContent, wire_message.
  change (Js.substring_from (version :: encode_records records) 1)
    with (encode_records records).
  change (Js.charCodeAt (version :: encode_records records) 0) with (Num version).
  cbv zeta. rewrite run_bind.
  rewrite parse_records_encode by done. rewrite Hasc. cbv beta iota.
  rewrite store_records_recipients, store_records_keys.
  cbn [recipients keys app]. rewrite length_fmap.
  fold recipients_sent keys_sent.
  destruct (bool_decide (0 < length recipients_sent)%nat) eqn:Hsome;
    [ apply bool_decide_eq_true in Hsome | apply bool_decide_eq_false in Hsome ].
  - destruct (bool_decide (length recipients_sent ≠ length keys_sent)) eqn:Hne;
      [ apply bool_decide_eq_true in Hne | apply bool_decide_eq_false in Hne ];
      cbn [andb].
    + split_and!; [ done | | done ]. intros Hnil. rewrite Hnil in Hsome.
      cbn in Hsome. lia.
    + rewrite run_ret, store_records_version, store_records_recipients,
        store_records_keys.
      split_and!; [ done | right; lia | done .. ].
  - cbn [andb].
    rewrite run_ret, store_records_version, store_records_recipients,
      store_records_keys.
    split_and!; [ done | left | done .. ].
    destruct recipients_sent; [ done | cbn in Hsome; lia ].
Qed.

End parsing.

Lemma parser_counts_keys_and_recipients_witness :
  let records :=
    [(TLV_TYPES.KEYS, Js.str "0123456789abcdef");
     (TLV_TYPES.KEYS, Js.str "fedcba9876543210")] in
  match _parseMessageContent (H := Toy.primitives) (wire_message 0 records)
          Scenario.worldB with
  | (Ok (Some parsed), w') =>
      w' = Scenario.worldB
      ∧ (values_of TLV_TYPES.RECIPIENT records = []
         ∨ length (values_of TLV_TYPES.RECIPIENT records)
           = length (values_of TLV_TYPES.KEYS records))
      ∧ protocolVersion parsed = Num 0
      ∧ recipients parsed
        = base64urlencode (Primitives := Toy.primitives)
            <$> values_of TLV_TYPES.RECIPIENT records
      ∧ keys parsed = values_of TLV_TYPES.KEYS records
  | (Ok None, w') =>
      w' = after_logging [KeysRecipientsMismatch] Scenario.worldB
      ∧ values_of TLV_TYPES.RECIPIENT records ≠ []
      ∧ length (values_of TLV_TYPES.RECIPIENT records)
        ≠ length (values_of TLV_TYPES.KEYS records)
  | (Throw _, _) => False
  end.
Proof.
  cbv zeta.
  apply (parser_counts_keys_and_recipients (H := Toy.primitives)).
  - repeat apply Forall_cons_2; try apply Forall_nil_2;
      (split; [ vm_compute; split; [ discriminate | reflexivity ]
              | vm_compute; reflexivity ]).
  - reflexivity.
Defined.

End Parsing.

(** ** Messages [decryptFrom] turns down, and how *)

Module Rejects.
Import strongvelope Spec Run Parser Logs Receiving Parsing Bindings.

Section rejects.
Context `{Primitives}.

Lemma parse_records_version fuel rest lastTlvType parsedContent w parsed w' :
  parse_records fuel rest lastTlvType parsedContent w = (Ok (Some parsed), w') →
  protocolVersion parsed = protocolVersion parsedContent.
Proof.
  revert rest lastTlvType parsedContent w.
  induction fuel as [ | fuel IH ]; intros rest lastTlvType parsedContent w;
    cbn [parse_records].
  - by intros [[= <-] _]%ret_ok_inv.
  - case_bool_decide; [ | by intros [[= <-] _]%ret_ok_inv ].
    destruct (tlvstore.splitSingleTlvRecord rest) as [part | ];
      [ | intros ?; simplify_eq ].
    destruct (js_lt _ _).
    + run_monad. intros ?; simplify_eq.
    + intros Hrun. apply IH in Hrun. by rewrite store_record_version in Hrun.
Qed.

(** The version the parser reports is the first character of the
    message. *)
Lemma parseMessageContent_version message w parsed w' :
  _parseMessageContent message w = (Ok (Some parsed), w') →
  protocolVersion parsed = Js.charCodeAt message 0.
Proof.
  unfold _parseMessageContent. cbv zeta. intros Hrun.
  apply bind_ok_inv in Hrun as ([parsed' | ] & w1 & Hloop & Hrun);
    [ | by apply ret_ok_inv in Hrun as [? _] ].
  apply parse_records_version in Hloop. cbn [protocolVersion] in Hloop.
  destruct (_ && _) in Hrun.
  - run_in Hrun. cbv [logger_error] in Hrun. simplify_eq.
  - apply ret_ok_inv in Hrun as [[= <-] _]. exact Hloop.
Qed.

(** X8.  A message that does not start with the character of the protocol
    version, the empty message among them, is parsed and nothing more:
    [decryptFrom] returns [false] after logging, or raises where the
    parser does, before it looks at a signature or a key. *)
Theorem decryptFrom_other_version (message sender : jsstring) (w : World) :
  Js.charCodeAt message 0 ≠ Num PROTOCOL_VERSION →
  decryptFrom message sender w
  = match _parseMessageContent message w with
    | (Ok (Some _), w') => (Ok RFalse, after_logging [IncompatibleVersion] w')
    | (Ok None, w') => (Ok RFalse, after_logging [MessageNotUsable] w')
    | (Throw e, w') => (Throw e, w')
    end.
Proof.
  intros Hversion. unfold decryptFrom. rewrite run_bind.
  destruct (_parseMessageContent message w) as [[[parsed | ] | e] w'] eqn:Hparse;
    [ | done | done ].
  apply parseMessageContent_version in Hparse.
  by rewrite bool_decide_eq_true_2 by (by rewrite Hparse).
Qed.

(** X9.  A message of the protocol version that parses, but has no
    SIGNATURE record, or is of a sender whose public signing key is not
    cached, makes [decryptFrom] raise a [TypeError] (it does not return
    [false]): the missing value reaches the conversion to bytes. *)
Theorem decryptFrom_raises_without_signature (message sender : jsstring)
    (w w' : World) (parsed : ParsedContent) :
  _parseMessageContent message w = (Ok (Some parsed), w') →
  protocolVersion parsed = Num PROTOCOL_VERSION →
  signedContent parsed = None ∨ signature parsed = None
  ∨ global_pubEd25519 w' !! sender = None →
  decryptFrom message sender w = (Throw TypeError, w').
Proof.
  intros Hparse Hversion Hmissing. unfold decryptFrom.
  rewrite run_bind, Hparse. cbv beta iota.
  rewrite bool_decide_eq_false_2 by (by rewrite Hversion; intros []).
  rewrite run_bind. cbn [get_world]. cbv beta iota. rewrite run_bind.
  unfold _verifyMessage. run_monad.
  destruct Hmissing as [-> | [Hsig | Hkey]]; [ done | | ].
  - rewrite Hsig. by destruct (signedContent parsed).
  - rewrite Hkey. by destruct (signedContent parsed), (signature parsed).
Qed.

(** X10.  A message with a verified signature and a KEYS record, of a
    sender other than the handler's own user whose public chat key is
    not cached, makes [decryptFrom] raise (it does not return [false]),
    after the error is logged. *)
Theorem decryptFrom_raises_without_chat_key (message sender : jsstring)
    (w w' : World) (parsed : ParsedContent) :
  _parseMessageContent message w = (Ok (Some parsed), w') →
  protocolVersion parsed = Num PROTOCOL_VERSION →
  _verifyMessage (signedContent parsed) (signature parsed)
    (global_pubEd25519 w' !! sender) w' = (Ok true, w') →
  keys parsed ≠ [] →
  sender ≠ ownHandle (this w') →
  Js.truthy (global_pubCu25519 w' !! sender) = false →
  decryptFrom message sender w
  = (Throw NoChatKeyError, after_logging [NoCachedChatKey sender] w').
Proof.
  intros Hparse Hversion Hverify Hkeys Hother Hnokey. unfold decryptFrom.
  rewrite run_bind, Hparse. cbv beta iota.
  rewrite bool_decide_eq_false_2 by (by rewrite Hversion; intros []).
  rewrite run_bind. cbn [get_world]. cbv beta iota.
  rewrite run_bind, Hverify. cbn [negb]. cbv beta iota. rewrite run_bind.
  destruct (keys parsed) as [ | encryptedKeys rest ] eqn:Hk; [ done | ].
  rewrite (get_sender_key_keyed_run _ _ encryptedKeys rest) by done.
  cbv zeta. rewrite bool_decide_eq_false_2 by done.
  unfold _decryptKeysFor, _computeSymmetricKey. run_monad.
  cbn [Js.undefined_key]. by rewrite Hnokey.
Qed.

End rejects.

Lemma decryptFrom_other_version_witness :
  decryptFrom (H := Toy.primitives) Scenario.version_one Scenario.handleA
    Scenario.worldB
  = match _parseMessageContent (H := Toy.primitives) Scenario.version_one
            Scenario.worldB with
    | (Ok (Some _), w') => (Ok RFalse, after_logging [IncompatibleVersion] w')
    | (Ok None, w') => (Ok RFalse, after_logging [MessageNotUsable] w')
    | (Throw e, w') => (Throw e, w')
    end.
Proof. apply decryptFrom_other_version. vm_compute. discriminate. Defined.

Lemma decryptFrom_raises_without_signature_witness :
  decryptFrom (H := Toy.primitives) (wire_message PROTOCOL_VERSION [])
    Scenario.handleA Scenario.worldB
  = (Throw TypeError, Scenario.worldB).
Proof.
  apply (decryptFrom_raises_without_signature (H := Toy.primitives) _ _ _ _
           (store_records (H := Toy.primitives) []
              {| protocolVersion := Num PROTOCOL_VERSION;
                 signature := None; signedContent := None; type := None;
                 nonce := None; recipients := []; keys := []; keyIds := [];
                 payload := None; undefined_slot := None |})).
  - by apply parseMessageContent_records.
  - reflexivity.
  - by left.
Defined.

Lemma decryptFrom_raises_without_chat_key_witness :
  decryptFrom (H := Toy.primitives) Scenario.empty_keys Scenario.handleA
    Scenario.forgetfulB
  = (Throw NoChatKeyError,
     after_logging [NoCachedChatKey Scenario.handleA] Scenario.forgetfulB).
Proof.
  apply (decryptFrom_raises_without_chat_key (H := Toy.primitives) _ _ _ _
           (store_records (H := Toy.primitives)
              ((TLV_TYPES.SIGNATURE,
                Toy.tag (Spec.encode_records Scenario.empty_keys_content)
                  (pubEd25519 Scenario.freshA))
               :: Scenario.empty_keys_content)
              {| protocolVersion := Num PROTOCOL_VERSION;
                 signature := None; signedContent := None; type := None;
                 nonce := None; recipients := []; keys := []; keyIds := [];
                 payload := None; undefined_slot := None |})).
  - apply (parseMessageContent_records (H := Toy.primitives)).
    + repeat apply Forall_cons_2; try apply Forall_nil_2;
        (split; [ vm_compute; split; [ discriminate | reflexivity ]
                | vm_compute; reflexivity ]).
    + reflexivity.
    + reflexivity.
  - reflexivity.
  - by_evaluation.
  - vm_compute. discriminate.
  - vm_compute. discriminate.
  - reflexivity.
Defined.

End Rejects.

(** ** What sending leaves alone *)

Module SendingFrame.
Import strongvelope Spec Run Sending.

#[export] Instance receiving_state_kept_preorder : PreOrder receiving_state_kept.
Proof.
  split.
  - intros w. split; first [ reflexivity | intros; reflexivity | done ].
  - intros w1 w2 w3 H12 H23.
    pose proof (still_ownHandle _ _ H12) as Hown.
    split;
      lazymatch goal with
      | |- ∀ handle, _ ≠ _ → _ =>
          intros handle Hne;
          rewrite (still_participantKeys _ _ H23) by congruence;
          by apply (still_participantKeys _ _ H12)
      | |- ∀ id, is_Some _ → _ =>
          intros id Hid; rewrite <- Hown; apply (still_own_keys _ _ H23);
          rewrite Hown; by apply (still_own_keys _ _ H12)
      | |- (_ ≤ _)%nat =>
          pose proof (still_drawn _ _ H12); pose proof (still_drawn _ _ H23);
          lia
      | _ => etrans; [ apply H23 | apply H12 ]
      end.
Qed.

(** A step of a run, knowing what the first part returned. *)
Lemma related_bind {A B} (R : relation World) `{!PreOrder R}
    (m : M A) (f : A → M B) w :
  R w (m w).2 →
  (∀ a w1, m w = (Ok a, w1) → R w1 (f a w1).2) →
  R w ((m ≫= f) w).2.
Proof.
  intros Hm Hf. rewrite run_bind.
  destruct (m w) as [[a | e] w1] eqn:Hrun; [ | exact Hm ].
  etrans; [ exact Hm | by apply Hf ].
Qed.

(** One step of a proof that a run keeps a relation: [leaf] closes the
    steps that are particular to the relation; the handler that
    [get_this] returns is the one of the world. *)
Ltac related_step leaf :=
  first
    [ reflexivity
    | leaf
    | apply related_bind;
        [ apply _ | | intros ? ? ?;
                      try match goal with
                          | Hrun : get_this _ = _ |- _ =>
                              injection Hrun as <- <-
                          end ]
    | match goal with
      | |- _ _ ((if ?b then _ else _) _).2 => destruct b
      | |- _ _ ((match ?x with _ => _ end) _).2 => destruct x
      | |- _ _ ((let '(_, _) := ?x in _) _).2 => destruct x
      end ].

Section frame.
Context `{Primitives}.

(** Closes the goal that a world built from [w] by the setters is
    related to [w]. *)
Ltac still :=
  split; cbn;
    first [ reflexivity
          | lia
          | intros handle Hne; by rewrite ?lookup_insert_ne
          | idtac ].

Lemma still_updateSenderKey w : receiving_state_kept w (_updateSenderKey w).2.
Proof.
  unfold _updateSenderKey, _dateStampNow. run_monad.
  destruct (Js.truthy (keyId (this w))); cbn;
    destruct (participantKeys (this w) !! ownHandle (this w)) as [own | ] eqn:Hown;
    still.
  all: unfold cached_key; cbn; rewrite ?Hown, ?lookup_insert_eq; cbn;
    intros id Hid; try done.
  all: destruct (decide (id = nextKeyId (now w / _ONE_DAY) (keyId (this w))))
         as [-> | Hne];
    [ by rewrite lookup_insert_eq | by rewrite lookup_insert_ne ].
Qed.

Lemma still_logger_error entry w :
  receiving_state_kept w (logger_error entry w).2.
Proof. still. Qed.

Lemma still_getRandomValues n w :
  receiving_state_kept w (getRandomValues n w).2.
Proof. still. Qed.

Lemma still_set_sentKeyId v w :
  receiving_state_kept w (update_this (set_sentKeyId v) w).2.
Proof. still. Qed.

Lemma still_set_keyEncryptionCount v w :
  receiving_state_kept w (put_this (set_keyEncryptionCount v (this w)) w).2.
Proof. still. Qed.

(** One step of a proof that a run leaves the receiving state alone. *)
Ltac still_step :=
  related_step
    ltac:(first [ apply still_logger_error
                | apply still_getRandomValues
                | apply still_set_sentKeyId
                | apply still_set_keyEncryptionCount ]).

Lemma still_encrypt_with_current_key message destination w :
  receiving_state_kept w (encrypt_with_current_key message destination w).2.
Proof.
  unfold encrypt_with_current_key, _symmetricEncryptMessage, _encryptKeysFor,
    _computeSymmetricKey, _signMessage, participant, library, defined.
  repeat still_step.
Qed.

Lemma still_encryptTo message destination w :
  receiving_state_kept w (encryptTo message destination w).2.
Proof.
  unfold encryptTo.
  apply related_bind; [ apply _ | reflexivity | ].
  intros h w1 [= <- <-].
  apply related_bind; [ apply _ | | ].
  - case_bool_decide; [ apply still_updateSenderKey | reflexivity ].
  - intros _ w1 _. apply still_encrypt_with_current_key.
Qed.


End frame.

#[export] Instance keys_unchanged_preorder : PreOrder keys_unchanged.
Proof.
  split.
  - by intros w.
  - intros w1 w2 w3 (? & ? & ? & ?) (? & ? & ? & ?).
    split_and!; congruence.
Qed.

Section sender_key.
Context `{Primitives}.

Lemma unchanged_encrypt_with_current_key message destination w :
  keys_unchanged w (encrypt_with_current_key message destination w).2.
Proof.
  unfold encrypt_with_current_key, _symmetricEncryptMessage, _encryptKeysFor,
    _computeSymmetricKey, _signMessage, participant, library, defined.
  repeat related_step ltac:(done).
Qed.

Lemma keys_unchanged_holds w w' :
  keys_unchanged w w' → holds_sender_key w → holds_sender_key w'.
Proof.
  intros (Hown & Hkey & Hprevious & Hkeys). unfold holds_sender_key.
  by rewrite Hown, Hkey, Hprevious, Hkeys.
Qed.

(** X12.  A handler that holds a sender key (and the previous one, if it
    has rotated) holds one after [_updateSenderKey], after [encryptTo],
    whether it returns or raises, and after [decryptFrom] on a message
    of anybody else, whatever the message. *)
Theorem sender_key_is_kept (message : Text) (destination sender wire : jsstring)
    (w : World) :
  holds_sender_key w →
  0 ≤ now w / _ONE_DAY < 65536 →
  holds_sender_key (_updateSenderKey w).2
  ∧ holds_sender_key (encryptTo message destination w).2
  ∧ (sender ≠ ownHandle (this w) →
     holds_sender_key (decryptFrom wire sender w).2).
Proof.
  intros Hholds Hday.
  pose proof Hholds as (own & cur & sk & Hown & _).
  split_and!.
  - rewrite updateSenderKey_run by (by rewrite Hown).
    by destruct (rotated_holds_sender_key w Hholds Hday)
      as (? & ? & ? & _ & _ & _ & _ & _ & Hrotated).
  - rewrite encryptTo_run by (by rewrite Hown).
    eapply keys_unchanged_holds; [ apply unchanged_encrypt_with_current_key | ].
    by apply RoundTrip.rotation_checked_holds.
  - intros Hother.
    pose proof (Frame.kept_decryptFrom sender wire w) as Hkept.
    unfold holds_sender_key.
    rewrite (kept_ownHandle _ _ _ Hkept), (kept_keyId _ _ _ Hkept),
      (kept_previousKeyId _ _ _ Hkept).
    by rewrite (kept_participantKeys _ _ _ Hkept) by done.
Qed.


End sender_key.

Lemma sender_key_is_kept_witness :
  holds_sender_key (_updateSenderKey Scenario.keyedA).2
  ∧ holds_sender_key
      (encryptTo (H := Toy.primitives) "hello" Scenario.handleB
         Scenario.keyedA).2
  ∧ (Scenario.handleB ≠ ownHandle (this Scenario.keyedA) →
     holds_sender_key
       (decryptFrom (H := Toy.primitives) Scenario.empty_keys Scenario.handleB
          Scenario.keyedA).2).
Proof.
  apply (sender_key_is_kept (H := Toy.primitives)).
  - apply Rotation.toy_holds_sender_key_keyedA.
  - vm_compute. split; [ discriminate | reflexivity ].
Defined.


End SendingFrame.

(** ** Messages [decryptFrom] accepts *)

Module Delivered.
Import strongvelope Spec Run Parser Cache Bindings Sending Receiving RoundTrip.

Section delivered.
Context `{Primitives}.

(** [decryptFrom] on a signed follow-up message. *)
Lemma followup_message_run (sender signed baseNonce currentKeyId c
    : jsstring)
    (senderKey pubKey data : jsstring) (text : Text) (w : World) :
  Z.of_nat (length signed) < 65536 →
  length baseNonce = NONCE_SIZE →
  length currentKeyId = 4%nat →
  Z.of_nat (length c) < 65536 →
  global_pubEd25519 w !! sender = Some pubKey →
  sign_detached_verify
    (encode_records (followup_records baseNonce currentKeyId c)) signed pubKey
  = Some true →
  cached_key w sender currentKeyId = Some senderKey →
  senderKey ≠ [] →
  AES_CTR_decrypt c senderKey baseNonce = Some data →
  utf8_decode data = Some text →
  decryptFrom
    (wire_message PROTOCOL_VERSION
       ((TLV_TYPES.SIGNATURE, signed)
        :: followup_records baseNonce currentKeyId c)) sender w
  = (Ok (RMessage {| sender := sender;
                     msg_type := Some (Num MESSAGE_TYPES.GROUP_FOLLOWUP);
                     msg_payload := text |}), w).
Proof.
  intros Hsigned Hnonce Hid Hc Hpub Hverify Hcached Hne Hdata Htext.
  erewrite decryptFrom_verified;
    [ | by apply parse_followup
      | reflexivity | reflexivity | reflexivity | exact Hpub | exact Hverify ].
  cbn [keys keyIds payload nonce type].
  erewrite get_sender_key_cached; [ | reflexivity | exact Hcached | exact Hne ].
  erewrite symmetricDecryptMessage_run; [ reflexivity | | exact Htext ].
  by rewrite take_ge by lia.
Qed.

(** [decryptFrom] on a signed keyed message, of another user or of the
    handler's own. *)
Lemma keyed_message_run (sender signed baseNonce recipient : jsstring)
    (encryptedKeys ids c senderKey pubKey data : jsstring)
    (unwrapped : list jsstring) (text : Text) (w : World) :
  Z.of_nat (length signed) < 65536 →
  length baseNonce = NONCE_SIZE →
  Z.of_nat (length recipient) < 65536 →
  Z.of_nat (length encryptedKeys) < 65536 →
  Z.of_nat (length ids) < 65536 →
  Z.of_nat (length c) < 65536 →
  global_pubEd25519 w !! sender = Some pubKey →
  sign_detached_verify
    (encode_records (keyed_records baseNonce recipient encryptedKeys ids c))
    signed pubKey
  = Some true →
  let isOwnMessage := bool_decide (sender = ownHandle (this w)) in
  _decryptKeysFor encryptedKeys (Some baseNonce)
    (if isOwnMessage then Some (base64urlencode recipient) else Some sender)
    isOwnMessage w
  = (Ok (senderKey :: unwrapped), w) →
  let cached := default ∅ (participantKeys (this w) !! sender) in
  let written :=
    write_keys (Js.chunks _KEY_ID_SIZE ids) 0 (senderKey :: unwrapped) cached in
  written.1 = true →
  AES_CTR_decrypt c senderKey baseNonce = Some data →
  utf8_decode data = Some text →
  decryptFrom
    (wire_message PROTOCOL_VERSION
       ((TLV_TYPES.SIGNATURE, signed)
        :: keyed_records baseNonce recipient encryptedKeys ids c)) sender w
  = (Ok (RMessage {| sender := sender;
                     msg_type := Some (Num MESSAGE_TYPES.GROUP_KEYED);
                     msg_payload := text |}),
     set_cache sender
       (<[Js.undefined_key (Js.chunks _KEY_ID_SIZE ids !! 0%nat) := senderKey]>
          written.2) w).
Proof.
  intros Hsigned Hnonce Hrecipient Hkeys Hids Hc Hpub Hverify isOwnMessage
    Hunwrap cached written Hwritten Hdata Htext.
  erewrite decryptFrom_verified;
    [ | by apply parse_keyed
      | reflexivity | reflexivity | reflexivity | exact Hpub | exact Hverify ].
  cbn [keys keyIds payload nonce type recipients].
  rewrite (get_sender_key_keyed_run _ _ encryptedKeys []) by reflexivity.
  cbv zeta. cbn [keys keyIds payload nonce type recipients lookup list_lookup].
  fold isOwnMessage. rewrite Hunwrap. fold cached. fold written.
  rewrite Hwritten. cbn [lookup list_lookup Js.js_assign].
  erewrite symmetricDecryptMessage_run; [ reflexivity | | exact Htext ].
  by rewrite take_ge by lia.
Qed.

(** X14.  A signed follow-up message is decrypted under the key that the
    receiver caches for the sender under the key ID of the message, and
    the call changes nothing, neither the cache of keys nor the log. *)
Theorem decryptFrom_followup_message (sender signed baseNonce currentKeyId c
    : jsstring)
    (senderKey pubKey data : jsstring) (text : Text) (w : World) :
  Z.of_nat (length signed) < 65536 →
  length baseNonce = NONCE_SIZE →
  length currentKeyId = 4%nat →
  Z.of_nat (length c) < 65536 →
  global_pubEd25519 w !! sender = Some pubKey →
  sign_detached_verify
    (encode_records (followup_records baseNonce currentKeyId c)) signed pubKey
  = Some true →
  cached_key w sender currentKeyId = Some senderKey →
  senderKey ≠ [] →
  AES_CTR_decrypt c senderKey baseNonce = Some data →
  utf8_decode data = Some text →
  decryptFrom
    (wire_message PROTOCOL_VERSION
       ((TLV_TYPES.SIGNATURE, signed)
        :: followup_records baseNonce currentKeyId c)) sender w
  = (Ok (RMessage {| sender := sender;
                     msg_type := Some (Num MESSAGE_TYPES.GROUP_FOLLOWUP);
                     msg_payload := text |}), w).
Proof. apply followup_message_run. Qed.

(** X15.  A signed keyed message for the receiver, of another user, whose
    KEYS record unwraps to keys that contradict none of the non-empty
    keys cached for the sender, is decrypted under the first of them,
    and the unwrapped keys are cached for the sender, each under its key
    ID of the message. *)
Theorem decryptFrom_keyed_message (sender signed baseNonce recipient : jsstring)
    (encryptedKeys ids c senderKey pubKey data : jsstring)
    (unwrapped : list jsstring) (text : Text) (w : World) :
  Z.of_nat (length signed) < 65536 →
  length baseNonce = NONCE_SIZE →
  Z.of_nat (length recipient) < 65536 →
  Z.of_nat (length encryptedKeys) < 65536 →
  Z.of_nat (length ids) < 65536 →
  Z.of_nat (length c) < 65536 →
  global_pubEd25519 w !! sender = Some pubKey →
  sign_detached_verify
    (encode_records (keyed_records baseNonce recipient encryptedKeys ids c))
    signed pubKey
  = Some true →
  sender ≠ ownHandle (this w) →
  _decryptKeysFor encryptedKeys (Some baseNonce) (Some sender) false w
  = (Ok (senderKey :: unwrapped), w) →
  let cached := default ∅ (participantKeys (this w) !! sender) in
  let written :=
    write_keys (Js.chunks _KEY_ID_SIZE ids) 0 (senderKey :: unwrapped) cached in
  written.1 = true →
  AES_CTR_decrypt c senderKey baseNonce = Some data →
  utf8_decode data = Some text →
  decryptFrom
    (wire_message PROTOCOL_VERSION
       ((TLV_TYPES.SIGNATURE, signed)
        :: keyed_records baseNonce recipient encryptedKeys ids c)) sender w
  = (Ok (RMessage {| sender := sender;
                     msg_type := Some (Num MESSAGE_TYPES.GROUP_KEYED);
                     msg_payload := text |}),
     set_cache sender
       (<[Js.undefined_key (Js.chunks _KEY_ID_SIZE ids !! 0%nat) := senderKey]>
          written.2) w).
Proof.
  intros Hsigned Hnonce Hrecipient Hkeys Hids Hc Hpub Hverify Hother Hunwrap.
  apply (keyed_message_run _ _ _ _ _ _ _ _ pubKey); try done.
  by rewrite bool_decide_eq_false_2 by done.
Qed.

End delivered.

(** The first two messages of "A" to "B", record by record. *)
Lemma messages_of_A :
  Scenario.sent Scenario.hello
  = wire_message PROTOCOL_VERSION
      ((TLV_TYPES.SIGNATURE, Scenario.helloSignature)
       :: keyed_records Scenario.helloNonce Scenario.handleB Scenario.helloKeys
            Scenario.keyId0 Scenario.helloPayload)
  ∧ Scenario.sent Scenario.world
    = wire_message PROTOCOL_VERSION
        ((TLV_TYPES.SIGNATURE, Scenario.worldSignature)
         :: followup_records Scenario.worldNonce Scenario.keyId0
              Scenario.worldPayload).
Proof. split; by_evaluation. Qed.

Lemma decryptFrom_followup_message_witness :
  decryptFrom (H := Toy.primitives)
    (wire_message PROTOCOL_VERSION
       ((TLV_TYPES.SIGNATURE, Scenario.worldSignature)
        :: followup_records Scenario.worldNonce Scenario.keyId0
             Scenario.worldPayload)) Scenario.handleA Scenario.heardHello
  = (Ok (RMessage {| sender := Scenario.handleA;
                     msg_type := Some (Num MESSAGE_TYPES.GROUP_FOLLOWUP);
                     msg_payload := ("world" : @Text Toy.primitives) |}),
     Scenario.heardHello).
Proof.
  apply (decryptFrom_followup_message (H := Toy.primitives) _ _ _ _ _
           Scenario.senderKey0 (pubEd25519 Scenario.freshA)
           (Js.str "world")).
  - vm_compute. reflexivity.
  - reflexivity.
  - reflexivity.
  - vm_compute. reflexivity.
  - by_evaluation.
  - by_evaluation.
  - by_evaluation.
  - discriminate.
  - by_evaluation.
  - by_evaluation.
Defined.

Lemma decryptFrom_keyed_message_witness :
  let cached :=
    default ∅ (participantKeys (this Scenario.worldB) !! Scenario.handleA) in
  let written :=
    write_keys (Js.chunks _KEY_ID_SIZE Scenario.keyId0) 0
      [Scenario.senderKey0] cached in
  decryptFrom (H := Toy.primitives)
    (wire_message PROTOCOL_VERSION
       ((TLV_TYPES.SIGNATURE, Scenario.helloSignature)
        :: keyed_records Scenario.helloNonce Scenario.handleB Scenario.helloKeys
             Scenario.keyId0 Scenario.helloPayload))
    Scenario.handleA Scenario.worldB
  = (Ok (RMessage {| sender := Scenario.handleA;
                     msg_type := Some (Num MESSAGE_TYPES.GROUP_KEYED);
                     msg_payload := ("hello" : @Text Toy.primitives) |}),
     set_cache Scenario.handleA
       (<[Js.undefined_key
            (Js.chunks _KEY_ID_SIZE Scenario.keyId0 !! 0%nat)
          := Scenario.senderKey0]> written.2) Scenario.worldB).
Proof.
  apply (decryptFrom_keyed_message (H := Toy.primitives) _ _ _ _ _ _ _
           Scenario.senderKey0 (pubEd25519 Scenario.freshA)
           (Js.str "hello") []).
  - vm_compute. reflexivity.
  - reflexivity.
  - vm_compute. reflexivity.
  - vm_compute. reflexivity.
  - vm_compute. reflexivity.
  - vm_compute. reflexivity.
  - by_evaluation.
  - by_evaluation.
  - vm_compute. discriminate.
  - by_evaluation.
  - by_evaluation.
  - by_evaluation.
  - by_evaluation.
Defined.

End Delivered.

(** ** Conversations *)

Module Conversation.
Import strongvelope Spec Run Parser Cache Bindings Sending Receiving RoundTrip.
Import Rotation SendingFrame Delivered.

Section conversation.
Context `{Primitives}.
Hypothesis Hctr : ctr_inverts.
Hypothesis Hcbc : cbc_inverts.

(** After the loop over keys that are the sender's own, the non-empty
    keys of the cache are still the sender's own. *)
Lemma write_keys_own (own : gmap jsstring jsstring) keyIds decryptedKeys i
    cached :
  (∀ j key, decryptedKeys !! j = Some key →
     own !! Js.undefined_key (keyIds !! (i + j)%nat) = Some key) →
  (∀ id key, cached !! id = Some key → key ≠ [] → own !! id = Some key) →
  ∀ id key,
    (write_keys keyIds i decryptedKeys cached).2 !! id = Some key →
    key ≠ [] → own !! id = Some key.
Proof.
  revert i cached.
  induction decryptedKeys as [ | k decryptedKeys IH ];
    intros i cached Hown Hcached; [ exact Hcached | ].
  cbn [write_keys]. cbv zeta.
  pose proof (Hown 0%nat k eq_refl) as Hk. rewrite Nat.add_0_r in Hk.
  destruct (Js.truthy (cached !! _) && bool_decide (cached !! _ ≠ Some k));
    [ exact Hcached | ].
  apply IH.
  - intros j key Hkey.
    replace (S i + j)%nat with (i + S j)%nat by lia. apply (Hown (S j)), Hkey.
  - intros id key.
    destruct (decide (id = Js.undefined_key (keyIds !! i))) as [-> | Hid].
    + rewrite lookup_insert_eq. intros [= <-] _. exact Hk.
    + rewrite lookup_insert_ne by done. apply Hcached.
Qed.

(** The key IDs and the keys of a keyed message, cut into pieces: the
    current ones first, each key the handler's own under its key ID. *)
Lemma sender_keys_chunks w own cur sk :
  participantKeys (this w) !! ownHandle (this w) = Some own →
  keyId (this w) = Some cur →
  own !! cur = Some sk →
  holds_sender_key w →
  ∃ ids unwrapped,
    Js.chunks _KEY_ID_SIZE (cur ++ previous_id (this w)) = cur :: ids
    ∧ Js.chunks KEY_SIZE (sk ++ previous_key own (this w)) = sk :: unwrapped
    ∧ (length (previous_id (this w)) ≤ 4)%nat
    ∧ (length (sk ++ previous_key own (this w)) `mod` KEY_SIZE = 0)%nat
    ∧ (length (previous_key own (this w)) ≤ 16)%nat
    ∧ length cur = 4%nat ∧ length sk = 16%nat
    ∧ ∀ j key, (sk :: unwrapped) !! j = Some key →
        own !! Js.undefined_key ((cur :: ids) !! (0 + j)%nat) = Some key.
Proof.
  intros Hown Hkey Hsk (own' & cur' & sk' & Hown' & Hkey' & Hcur & Hsk' & Hsklen
                        & Hprev).
  simplify_eq. unfold previous_id, previous_key.
  destruct (previousKeyId (this w)) as [previous | ].
  - destruct Hprev as (Hplen & previousKey & Hpkey & Hpklen).
    assert (Js.truthy (Some previous) = true) as -> by (by destruct previous).
    cbn [Js.null_key]. rewrite Hpkey. cbn [Js.undefined_key].
    exists [previous], [previousKey].
    rewrite !chunks_two by (done || (cbv; lia)).
    rewrite length_app, Hsklen, Hpklen, Hplen.
    split_and!; [ done | done | lia | done | lia | done | done | ].
    intros [ | [ | j ] ] key; cbn; intros [= <-]; done.
  - cbn [Js.truthy]. exists [], [].
    rewrite !app_nil_r, !chunks_one by (done || (cbv; lia)).
    rewrite Hsklen.
    split_and!; [ done | done | cbn; lia | done | cbn; lia | done | done | ].
    intros [ | j ] key; cbn; intros [= <-]; done.
Qed.

(** What a call of [encryptTo] that returns has made and left: the
    message, decrypted by the sender key and verified by the public
    signing key, and the handler with the key marked as sent. *)
Lemma encryptTo_inv message destination ws wire ws1 :
  signing_pair (privEd25519 (this ws)) (pubEd25519 (this ws)) →
  holds_sender_key ws →
  0 ≤ now ws / _ONE_DAY < 65536 →
  encryptTo message destination ws = (Ok wire, ws1) →
  let wk := rotation_checked ws in
  let baseNonce := random_bytes wk NONCE_SIZE in
  ∃ own cur sk c signed records,
    participantKeys (this ws1) !! ownHandle (this ws) = Some own
    ∧ keyId (this ws1) = Some cur
    ∧ own !! cur = Some sk
    ∧ holds_sender_key ws1
    ∧ keys_unchanged wk ws1
    ∧ _sentKeyId (this ws1) = Some cur
    ∧ _keyEncryptionCount (this ws1) = _keyEncryptionCount (this wk) + 1
    ∧ AES_CTR_decrypt c sk baseNonce = Some (utf8_encode message)
    ∧ length c = length (utf8_encode message)
    ∧ sign_detached_verify (encode_records records) signed
        (pubEd25519 (this ws)) = Some true
    ∧ Z.of_nat (length signed) < 65536
    ∧ wire = wire_message PROTOCOL_VERSION
               ((TLV_TYPES.SIGNATURE, signed) :: records)
    ∧ if decide (_sentKeyId (this wk) = keyId (this wk)) then
        records = followup_records baseNonce cur c
      else
        ∃ pubKey kek encryptedKeys,
          global_pubCu25519 ws !! destination = Some pubKey
          ∧ pubKey ≠ []
          ∧ key_encryption_key (privCu25519 (this ws)) pubKey = Some kek
          ∧ AES_CBC_decrypt encryptedKeys kek
              (key_encryption_iv destination baseNonce)
            = Some (sk ++ previous_key own (this ws1))
          ∧ length encryptedKeys = length (sk ++ previous_key own (this ws1))
          ∧ records = keyed_records baseNonce (base64urldecode destination)
                        encryptedKeys (cur ++ previous_id (this ws1)) c.
Proof.
  intros Hsign Hholds Hday Hrun wk baseNonce.
  destruct (rotation_checked_holds ws Hholds Hday)
    as (Hholds' & Hhandle & HprivCu & HprivEd & HpubEd & HpubCu).
  pose proof Hholds as (own0 & _ & _ & Hown0 & _).
  rewrite encryptTo_run in Hrun by (by rewrite Hown0).
  fold wk in Hrun, Hholds', Hhandle, HprivCu, HprivEd, HpubEd, HpubCu.
  pose proof (unchanged_encrypt_with_current_key message destination wk)
    as Hunchanged.
  rewrite Hrun in Hunchanged. cbn [snd] in Hunchanged.
  pose proof Hunchanged as (Hown1 & Hkey1 & Hprev1 & Hkeys1).
  pose proof Hholds'
    as (own & cur & sk & Hown & Hkey & Hcur & Hsk & Hsklen & Hprev).
  assert (sk ≠ []) as Hskne by (by destruct sk).
  apply (encrypt_with_current_key_inv _ _ _ _ _ own cur sk) in Hrun;
    [ | done .. ].
  destruct Hrun as (c & signed & records & Hc & Hsigned & -> & Hshape).
  rewrite HprivEd, HpubEd in Hsigned.
  apply Hsign in Hsigned as [Hverify Hsignedlen].
  apply Hctr in Hc as [Hclear Hclen].
  assert (previous_key own (this ws1) = previous_key own (this wk)) as Hpk
    by (unfold previous_key; by rewrite Hprev1).
  assert (previous_id (this ws1) = previous_id (this wk)) as Hpid
    by (unfold previous_id; by rewrite Hprev1).
  exists own, cur, sk, c, signed, records.
  rewrite Hkey in *. rewrite Hpk, Hpid.
  assert (this ws1
          = set_keyEncryptionCount (_keyEncryptionCount (this wk) + 1)
              (set_sentKeyId (Some cur) (this wk))
          ∧ if decide (_sentKeyId (this wk) = Some cur) then
              records = followup_records baseNonce cur c
            else
              ∃ pubKey kek encryptedKeys,
                global_pubCu25519 ws !! destination = Some pubKey
                ∧ pubKey ≠ []
                ∧ key_encryption_key (privCu25519 (this ws)) pubKey = Some kek
                ∧ AES_CBC_decrypt encryptedKeys kek
                    (key_encryption_iv destination baseNonce)
                  = Some (sk ++ previous_key own (this wk))
                ∧ length encryptedKeys
                  = length (sk ++ previous_key own (this wk))
                ∧ records = keyed_records baseNonce
                              (base64urldecode destination) encryptedKeys
                              (cur ++ previous_id (this wk)) c)
    as [Hthis1 Hrecords].
  { destruct (decide (_sentKeyId (this wk) = Some cur)) as [Hsent | Hsent].
    - destruct Hshape as [-> ->]. split; [ | done ].
      rewrite <- Hsent. by destruct (this wk).
    - destruct Hshape as (pubKey & kek & encryptedKeys & HpubKey & Hpubne & Hkek
                          & Hwrap & Hshape).
      apply Hcbc in Hwrap as [Hunwrap Hwraplen].
      destruct Hshape as [-> ->].
      { intros ->. rewrite length_app in Hwraplen. cbn in Hwraplen. lia. }
      split; [ done | ].
      exists pubKey, kek, encryptedKeys.
      rewrite <- HpubCu, <- HprivCu. split_and!; done. }
  split_and!; try done.
  - by rewrite Hkeys1, <- Hhandle.
  - eapply keys_unchanged_holds; done.
  - by rewrite Hthis1.
  - by rewrite Hthis1.
Qed.

(** Successive calls leave the receiving state alone, and, as long as
    no rotation is due, the keys and the key IDs of the handler. *)
Lemma still_encryptTo_all calls w :
  receiving_state_kept w (encryptTo_all calls w).2.
Proof.
  revert w. induction calls as [ | [message destination] calls IH ]; intros w;
    [ reflexivity | ].
  cbn [encryptTo_all].
  apply related_bind; [ apply _ | apply still_encryptTo | ].
  intros wire w1 _.
  apply related_bind; [ apply _ | apply IH | ]. reflexivity.
Qed.

Lemma unchanged_encryptTo message destination w :
  _keyEncryptionCount (this w) < rotateKeyEvery (this w) →
  keys_unchanged w (encryptTo message destination w).2.
Proof.
  intros Hcount. unfold encryptTo. rewrite run_bind. cbn [get_this].
  rewrite bool_decide_eq_false_2 by lia. rewrite run_bind, run_ret.
  apply unchanged_encrypt_with_current_key.
Qed.

Lemma unchanged_encryptTo_all calls w wires w' :
  holds_sender_key w →
  _keyEncryptionCount (this w) + Z.of_nat (length calls)
  ≤ rotateKeyEvery (this w) →
  encryptTo_all calls w = (Ok wires, w') →
  keys_unchanged w w'.
Proof.
  revert w wires.
  induction calls as [ | [message destination] calls IH ];
    intros w wires Hholds Hcount Hrun.
  - by apply ret_ok_inv in Hrun as [_ <-].
  - cbn [encryptTo_all] in Hrun. cbn [length] in Hcount.
    apply bind_ok_inv in Hrun as (wire & w1 & Hfirst & Hrun).
    apply bind_ok_inv in Hrun as (wires' & w2 & Hrest & Hrun).
    apply ret_ok_inv in Hrun as [_ <-].
    pose proof (unchanged_encryptTo message destination w) as Hstep.
    rewrite Hfirst in Hstep. cbn [snd] in Hstep.
    apply encryptTo_counts in Hfirst
      as (Hholds1 & Hcount1 & Hevery1 & _); [ | done | done | lia ].
    etrans; [ apply Hstep; lia | ].
    apply (IH w1 wires'); [ done | lia | done ].
Qed.

Hypothesis Hutf : utf8_inverts.

(** The receiver of a keyed message made by [encryptTo] decrypts it and
    caches the sender key. *)
Lemma keyed_message_received (text : Text) (destination : jsstring)
    (ws ws1 wr : World) (wire pubR pubS : jsstring) :
  let sender := ownHandle (this ws) in
  signing_pair (privEd25519 (this ws)) (pubEd25519 (this ws)) →
  global_pubEd25519 wr !! sender = Some (pubEd25519 (this ws)) →
  global_pubCu25519 ws !! destination = Some pubR →
  global_pubCu25519 wr !! sender = Some pubS →
  pubS ≠ [] →
  chat_keys_agree (privCu25519 (this ws)) pubR (privCu25519 (this wr)) pubS →
  holds_sender_key ws →
  0 ≤ now ws / _ONE_DAY < 65536 →
  ownHandle (this wr) = destination →
  sender ≠ destination →
  Z.of_nat (length (utf8_encode text)) < 65536 →
  Z.of_nat (length (base64urldecode destination)) < 65536 →
  _sentKeyId (this (rotation_checked ws)) ≠ keyId (this (rotation_checked ws)) →
  encryptTo text destination ws = (Ok wire, ws1) →
  (∀ id key, cached_key wr sender id = Some key → key ≠ [] →
     cached_key ws1 sender id = Some key) →
  ∃ cached,
    decryptFrom wire sender wr
    = (Ok (RMessage {| sender := sender;
                       msg_type := Some (Num MESSAGE_TYPES.GROUP_KEYED);
                       msg_payload := text |}),
       set_cache sender cached wr)
    ∧ (∀ id, keyId (this ws1) = Some id →
         cached !! id = cached_key ws1 sender id)
    ∧ (∀ id key, cached !! id = Some key → key ≠ [] →
         cached_key ws1 sender id = Some key).
Proof.
  intros sender Hsign HpubEd HpubR HpubS HneS Hagree Hholds Hday Hdest Hother
    Hsize HsizeD Hkeyed Hrun Hcache.
  subst sender.
  apply encryptTo_inv in Hrun
    as (own & cur & sk & c & signed & records & Hown & Hkey & Hsk & Hholds1
        & Hunchanged & Hsent & Hcount & Hclear & Hclen & Hverify & Hsignedlen
        & -> & Hrecords); [ | done .. ].
  rewrite decide_False in Hrecords by done.
  destruct Hrecords as (pubKey & kek & encryptedKeys & HpubKey & _ & Hkek
                        & Hunwrap & Hwraplen & ->).
  rewrite HpubR in HpubKey. injection HpubKey as <-.
  pose proof (still_encryptTo text destination ws) as Hstill.
  assert (ownHandle (this ws1) = ownHandle (this ws)) as Hhandle1.
  { destruct Hunchanged as (-> & _).
    by destruct (rotation_checked_holds ws Hholds Hday) as (_ & -> & _). }
  assert (∀ id, cached_key ws1 (ownHandle (this ws)) id = own !! id) as Hown1
    by (intros id; unfold cached_key; by rewrite Hown).
  rewrite <- Hhandle1 in Hown.
  destruct (sender_keys_chunks ws1 own cur sk Hown Hkey Hsk Hholds1)
    as (ids & unwrapped & Hids & Hunwrapped & Hpid & Hmod & Hpk & Hcur & Hsklen
        & Hpairs).
  assert (key_encryption_key (privCu25519 (this wr)) pubS = Some kek) as Hkek'.
  { unfold key_encryption_key in *.
    destruct (scalarMult (privCu25519 (this ws)) pubR) as [shared | ] eqn:Hsm;
      [ | done ].
    by rewrite (Hagree _ Hsm). }
  assert (length (random_bytes (rotation_checked ws) NONCE_SIZE) = NONCE_SIZE)
    as Hnonce by apply length_random_bytes.
  eexists. split_and!.
  - erewrite (keyed_message_run (ownHandle (this ws)) _ _ _ _ _ _ sk _
                (utf8_encode text) unwrapped);
      [ reflexivity | done | done | done
      | rewrite Hwraplen, length_app; lia
      | rewrite length_app; lia | lia | exact HpubEd | exact Hverify
      | | | exact Hclear | apply Hutf ].
    + rewrite bool_decide_eq_false_2 by (by rewrite Hdest).
      erewrite decryptKeysFor_run;
        [ by rewrite Hunwrapped | exact HpubS | exact HneS | exact Hkek'
          | rewrite Hdest; exact Hunwrap | exact Hmod ].
    + rewrite Hids. apply (write_keys_consistent own); [ exact Hpairs | ].
      intros id key. rewrite cached_key_default, <- Hown1. apply Hcache.
  - intros id Hid. rewrite Hkey in Hid. injection Hid as <-.
    rewrite Hids. cbn [lookup list_lookup Js.undefined_key].
    by rewrite lookup_insert_eq, Hown1.
  - intros id key. rewrite Hids. cbn [lookup list_lookup Js.undefined_key].
    rewrite Hown1.
    destruct (decide (id = cur)) as [-> | Hne].
    + rewrite lookup_insert_eq. intros [= <-] _. exact Hsk.
    + rewrite lookup_insert_ne by done.
      apply (write_keys_own own); [ exact Hpairs | ].
      intros id' key'. rewrite cached_key_default, <- Hown1. apply Hcache.
Qed.

(** X16.  Once the receiver has decrypted the keyed message of a sender,
    it decrypts every message the sender encrypts afterwards, as long as
    the sender does not rotate its key: the message sent after any
    number of further calls of [encryptTo], to whatever destinations, is
    a follow-up message, and the receiver, in the state the keyed
    message left it in, returns its text and stays as it is. *)
Theorem followups_after_keyed (first text : Text)
    (destination destination' : jsstring) (calls : list (Text * jsstring))
    (ws ws1 ws2 ws3 wr : World) (wire1 wire pubR pubS : jsstring)
    (wires : list jsstring) :
  let sender := ownHandle (this ws) in
  signing_pair (privEd25519 (this ws)) (pubEd25519 (this ws)) →
  global_pubEd25519 wr !! sender = Some (pubEd25519 (this ws)) →
  global_pubCu25519 ws !! destination = Some pubR →
  global_pubCu25519 wr !! sender = Some pubS →
  pubS ≠ [] →
  chat_keys_agree (privCu25519 (this ws)) pubR (privCu25519 (this wr)) pubS →
  holds_sender_key ws →
  0 ≤ now ws / _ONE_DAY < 65536 →
  ownHandle (this wr) = destination →
  sender ≠ destination →
  Z.of_nat (length (utf8_encode first)) < 65536 →
  Z.of_nat (length (utf8_encode text)) < 65536 →
  Z.of_nat (length (base64urldecode destination)) < 65536 →
  _sentKeyId (this (rotation_checked ws)) ≠ keyId (this (rotation_checked ws)) →
  encryptTo first destination ws = (Ok wire1, ws1) →
  (∀ id key, cached_key wr sender id = Some key → key ≠ [] →
     cached_key ws1 sender id = Some key) →
  encryptTo_all calls ws1 = (Ok wires, ws2) →
  _keyEncryptionCount (this ws1) + Z.of_nat (length calls)
  < rotateKeyEvery (this ws1) →
  encryptTo text destination' ws2 = (Ok wire, ws3) →
  let wr1 := (decryptFrom wire1 sender wr).2 in
  decryptFrom wire1 sender wr
  = (Ok (RMessage {| sender := sender;
                     msg_type := Some (Num MESSAGE_TYPES.GROUP_KEYED);
                     msg_payload := first |}), wr1)
  ∧ decryptFrom wire sender wr1
    = (Ok (RMessage {| sender := sender;
                       msg_type := Some (Num MESSAGE_TYPES.GROUP_FOLLOWUP);
                       msg_payload := text |}), wr1).
Proof.
  intros sender Hsign HpubEd HpubR HpubS HneS Hagree Hholds Hday Hdest Hother
    Hsize1 Hsize HsizeD Hkeyed Hrun1 Hcache Hcalls Hcount Hrun wr1.
  subst sender.
  (* the keyed message *)
  destruct (keyed_message_received first destination ws ws1 wr wire1 pubR pubS)
    as (cached & Hreceived & Hcurrent & _); [ done .. | ].
  subst wr1. rewrite Hreceived. cbn [snd]. split; [ done | ].
  (* the sender, up to the message *)
  pose proof (still_encryptTo first destination ws) as Hstill1.
  rewrite Hrun1 in Hstill1. cbn [snd] in Hstill1.
  pose proof (still_encryptTo_all calls ws1) as Hstill2.
  rewrite Hcalls in Hstill2. cbn [snd] in Hstill2.
  apply encryptTo_inv in Hrun1
    as (own & cur & sk & _ & _ & _ & Hown1 & Hkey1 & Hsk & Hholds1 & _ & Hsent1
        & _); [ | done .. ].
  pose proof (unchanged_encryptTo_all calls ws1 wires ws2 Hholds1) as Hkeys2.
  destruct Hkeys2 as (Hhandle2 & Hkey2 & Hprev2 & Hkeys2); [ lia | done | ].
  apply encryptTo_all_counts in Hcalls
    as (Hholds2 & Hcount2 & Hevery2 & _ & Hsent2); [ | done | done | lia ].
  assert (rotation_checked ws2 = ws2) as Hchecked.
  { unfold rotation_checked. rewrite bool_decide_eq_false_2; [ done | lia ]. }
  assert (ownHandle (this ws2) = ownHandle (this ws)) as Hhandle
    by (by rewrite (still_ownHandle _ _ Hstill2), (still_ownHandle _ _ Hstill1)).
  apply encryptTo_inv in Hrun
    as (own3 & cur3 & sk3 & c & signed & records & Hown3 & Hkey3 & Hsk3 & _
        & Hunchanged3 & _ & _ & Hclear & Hclen & Hverify & Hsignedlen & ->
        & Hrecords).
  2: by rewrite (still_privEd25519 _ _ Hstill2), (still_pubEd25519 _ _ Hstill2),
       (still_privEd25519 _ _ Hstill1), (still_pubEd25519 _ _ Hstill1).
  2: done.
  2: by rewrite (still_now _ _ Hstill2), (still_now _ _ Hstill1).
  rewrite Hchecked in *.
  rewrite decide_True in Hrecords
    by (apply Hsent2; right; by rewrite Hsent1, Hkey1).
  subst records.
  destruct Hunchanged3 as (_ & Hkey3' & _ & Hkeys3).
  assert (cur3 = cur) as -> by congruence.
  assert (own3 = own) as ->.
  { rewrite Hkeys3, Hkeys2, Hhandle, <- (still_ownHandle _ _ Hstill1) in Hown3.
    rewrite (still_ownHandle _ _ Hstill1) in Hown3. congruence. }
  assert (sk3 = sk) as -> by congruence.
  pose proof Hholds1
    as (own' & cur' & sk' & Hown' & Hkey' & Hcur & Hsk' & Hsklen & _).
  rewrite (still_ownHandle _ _ Hstill1) in Hown'.
  assert (own' = own) as -> by congruence.
  assert (cur' = cur) as -> by congruence.
  assert (sk' = sk) as -> by congruence.
  rewrite (still_pubEd25519 _ _ Hstill2), (still_pubEd25519 _ _ Hstill1)
    in Hverify.
  apply (followup_message_run _ _ _ _ _ sk (pubEd25519 (this ws))
           (utf8_encode text));
    [ done | apply length_random_bytes | done | lia | exact HpubEd
    | exact Hverify | | by destruct sk | exact Hclear | apply Hutf ].
  unfold cached_key. rewrite set_cache_lookup. cbn [mbind option_bind].
  rewrite (Hcurrent cur Hkey1). unfold cached_key.
  by rewrite Hown1.
Qed.

End conversation.

Lemma followups_after_keyed_witness :
  let later := (Scenario.send_all ["world"; "again"]%string Scenario.afterHello).2 in
  let wire :=
    Scenario.sent
      (encryptTo (H := Toy.primitives) "bye" Scenario.handleB later).1 in
  decryptFrom (H := Toy.primitives) (Scenario.sent Scenario.hello)
    Scenario.handleA Scenario.worldB
  = (Ok (RMessage {| sender := Scenario.handleA;
                     msg_type := Some (Num MESSAGE_TYPES.GROUP_KEYED);
                     msg_payload := ("hello" : @Text Toy.primitives) |}),
     Scenario.heardHello)
  ∧ decryptFrom (H := Toy.primitives) wire Scenario.handleA Scenario.heardHello
    = (Ok (RMessage {| sender := Scenario.handleA;
                       msg_type := Some (Num MESSAGE_TYPES.GROUP_FOLLOWUP);
                       msg_payload := ("bye" : @Text Toy.primitives) |}),
       Scenario.heardHello).
Proof.
  cbv zeta.
  apply (followups_after_keyed (H := Toy.primitives)
           ToyLaws.toy_ctr_inverts ToyLaws.toy_cbc_inverts
           ToyLaws.toy_utf8_inverts
           "hello" "bye" Scenario.handleB Scenario.handleB
           ((λ text : string, (text : @Text Toy.primitives, Scenario.handleB))
              <$> ["world"; "again"]%string)
           Scenario.keyedA Scenario.afterHello
           (Scenario.send_all ["world"; "again"]%string Scenario.afterHello).2
           (encryptTo (H := Toy.primitives) "bye" Scenario.handleB
              (Scenario.send_all ["world"; "again"]%string
                 Scenario.afterHello).2).2
           Scenario.worldB (Scenario.sent Scenario.hello) _
           (Toy.public_of Scenario.privCuB) (Toy.public_of Scenario.privCuA)
           (Scenario.sent
              <$> (Scenario.send_all ["world"; "again"]%string
                     Scenario.afterHello).1)).
  - apply ToyLaws.toy_signing_pair; by_evaluation.
  - by_evaluation.
  - by_evaluation.
  - by_evaluation.
  - vm_compute. discriminate.
  - apply toy_chat_keys_agree.
  - apply toy_holds_sender_key_keyedA.
  - vm_compute. split; [ discriminate | reflexivity ].
  - reflexivity.
  - vm_compute. discriminate.
  - vm_compute. reflexivity.
  - vm_compute. reflexivity.
  - vm_compute. reflexivity.
  - vm_compute. discriminate.
  - apply returned. by_evaluation.
  - intros id key Hcached. exfalso. revert Hcached. unfold cached_key.
    assert (participantKeys (this Scenario.worldB)
            !! ownHandle (this Scenario.keyedA) = None) as -> by by_evaluation.
    discriminate.
  - apply send_all_returned. by_evaluation.
  - vm_compute. reflexivity.
  - apply returned. by_evaluation.
Defined.

Section replay.
Context `{Primitives}.
Hypothesis Hctr : ctr_inverts.
Hypothesis Hcbc : cbc_inverts.
Hypothesis Hutf : utf8_inverts.

(** X17.  [decryptFrom] keeps no record of the messages it has seen: the
    receiver of a keyed message, in the state the message left it in,
    decrypts the same message again, to the same result. *)
Theorem keyed_message_again (text : Text) (destination : jsstring)
    (ws ws1 wr : World) (wire pubR pubS : jsstring) :
  let sender := ownHandle (this ws) in
  signing_pair (privEd25519 (this ws)) (pubEd25519 (this ws)) →
  global_pubEd25519 wr !! sender = Some (pubEd25519 (this ws)) →
  global_pubCu25519 ws !! destination = Some pubR →
  global_pubCu25519 wr !! sender = Some pubS →
  pubS ≠ [] →
  chat_keys_agree (privCu25519 (this ws)) pubR (privCu25519 (this wr)) pubS →
  holds_sender_key ws →
  0 ≤ now ws / _ONE_DAY < 65536 →
  ownHandle (this wr) = destination →
  sender ≠ destination →
  Z.of_nat (length (utf8_encode text)) < 65536 →
  Z.of_nat (length (base64urldecode destination)) < 65536 →
  _sentKeyId (this (rotation_checked ws)) ≠ keyId (this (rotation_checked ws)) →
  encryptTo text destination ws = (Ok wire, ws1) →
  (∀ id key, cached_key wr sender id = Some key → key ≠ [] →
     cached_key ws1 sender id = Some key) →
  let received :=
    Ok (RMessage {| sender := sender;
                    msg_type := Some (Num MESSAGE_TYPES.GROUP_KEYED);
                    msg_payload := text |}) in
  (decryptFrom wire sender wr).1 = received
  ∧ (decryptFrom wire sender (decryptFrom wire sender wr).2).1 = received.
Proof.
  intros sender Hsign HpubEd HpubR HpubS HneS Hagree Hholds Hday Hdest Hother
    Hsize HsizeD Hkeyed Hrun Hcache received.
  subst sender received.
  destruct (keyed_message_received Hctr Hcbc Hutf text destination ws ws1 wr
              wire pubR pubS)
    as (cached & Hreceived & _ & Hcached); [ done .. | ].
  rewrite Hreceived. cbn [fst snd]. split; [ done | ].
  destruct (keyed_message_received Hctr Hcbc Hutf text destination ws ws1
              (set_cache (ownHandle (this ws)) cached wr) wire pubR pubS)
    as (cached' & Hagain & _); [ done .. | | ].
  - intros id key. unfold cached_key at 1. rewrite set_cache_lookup.
    apply Hcached.
  - by rewrite Hagain.
Qed.

End replay.

Lemma keyed_message_again_witness :
  let received :=
    Ok (RMessage (H := Toy.primitives)
          {| sender := Scenario.handleA;
             msg_type := Some (Num MESSAGE_TYPES.GROUP_KEYED);
             msg_payload := ("hello" : @Text Toy.primitives) |}) in
  (decryptFrom (H := Toy.primitives) (Scenario.sent Scenario.hello)
     Scenario.handleA Scenario.worldB).1 = received
  ∧ (decryptFrom (H := Toy.primitives) (Scenario.sent Scenario.hello)
       Scenario.handleA Scenario.heardHello).1 = received.
Proof.
  cbv zeta.
  apply (keyed_message_again (H := Toy.primitives)
           ToyLaws.toy_ctr_inverts ToyLaws.toy_cbc_inverts
           ToyLaws.toy_utf8_inverts
           "hello" Scenario.handleB Scenario.keyedA Scenario.afterHello
           Scenario.worldB (Scenario.sent Scenario.hello)
           (Toy.public_of Scenario.privCuB) (Toy.public_of Scenario.privCuA)).
  - apply ToyLaws.toy_signing_pair; by_evaluation.
  - by_evaluation.
  - by_evaluation.
  - by_evaluation.
  - vm_compute. discriminate.
  - apply toy_chat_keys_agree.
  - apply toy_holds_sender_key_keyedA.
  - vm_compute. split; [ discriminate | reflexivity ].
  - reflexivity.
  - vm_compute. discriminate.
  - vm_compute. reflexivity.
  - vm_compute. reflexivity.
  - vm_compute. discriminate.
  - apply returned. by_evaluation.
  - intros id key Hcached. exfalso. revert Hcached. unfold cached_key.
    assert (participantKeys (this Scenario.worldB)
            !! ownHandle (this Scenario.keyedA) = None) as -> by by_evaluation.
    discriminate.
Defined.

End Conversation.

(** ** A handler reading its own messages *)

Module OwnMessages.
Import strongvelope Spec Run Parser Cache Bindings Sending Receiving RoundTrip.
Import Rotation SendingFrame Delivered Conversation.


Section own.
Context `{Primitives}.
Hypothesis Hctr : ctr_inverts.
Hypothesis Hcbc : cbc_inverts.
Hypothesis Hutf : utf8_inverts.


End own.


End OwnMessages.

(** ** Sending without the key of the destination *)

Module Undeliverable.
Import strongvelope Spec Run Sending RoundTrip Rotation.




End Undeliverable.

(** ** Cutting a record into pieces *)

Module Pieces.
Import strongvelope Spec Run Receiving.

Lemma chunks_cons n c s :
  (0 < n)%nat →
  Js.chunks n (c :: s) = take n (c :: s) :: Js.chunks n (drop n (c :: s)).
Proof.
  intros Hn. unfold Js.chunks at 1. cbn [length Js.chunks_go].
  unfold Js.substring_to, Js.substring_from. f_equal.
  apply chunks_go_fuel; [ done | | done ].
  rewrite length_drop. cbn [length]. lia.
Qed.

(** X20.  The loop that cuts the KEY_IDS record into key IDs, and the
    decrypted KEYS record into keys, comes to its end and loses nothing:
    the pieces put together are the record; every piece but the last is
    of the full size, and the last is not empty. *)
Theorem pieces_of_a_record (n : nat) (s : jsstring) :
  (0 < n)%nat →
  concat (Js.chunks n s) = s
  ∧ Forall (λ piece, (0 < length piece ≤ n)%nat) (Js.chunks n s)
  ∧ (∀ i piece, Js.chunks n s !! i = Some piece →
       (S i < length (Js.chunks n s))%nat → length piece = n)
  ∧ (length s ≤ n * length (Js.chunks n s) < length s + n)%nat.
Proof.
  intros Hn. remember (length s) as len eqn:Hlen. revert s Hlen.
  induction len as [len IH] using lt_wf_ind. intros s ->.
  destruct s as [ | c s ].
  - cbn. split; [ done | split; [ apply Forall_nil_2 | split ] ];
      [ by intros i piece [=] | lia ].
  - rewrite chunks_cons by done.
    destruct (IH (length (drop n (c :: s)))) with (s := drop n (c :: s))
      as (Hcat & Hall & Hfull & Hsize);
      [ rewrite length_drop; cbn [length]; lia | done | ].
    assert (Js.chunks n (drop n (c :: s)) ≠ [] → (n < length (c :: s))%nat)
      as Hrest.
    { intros Hne. destruct (decide (n < length (c :: s))%nat); [ done | ].
      rewrite drop_ge in Hne by lia. done. }
    split; [ | split; [ | split ] ].
    + cbn [concat]. rewrite Hcat. apply take_drop.
    + apply Forall_cons_2; [ rewrite length_take; cbn [length]; lia | done ].
    + intros [ | i ] piece; cbn [lookup list_lookup length].
      * intros [= <-] Hmore. rewrite length_take. apply Nat.min_l.
        apply Nat.lt_le_incl, Hrest. intros Hnil. rewrite Hnil in Hmore.
        cbn in Hmore. lia.
      * intros Hi Hmore. apply (Hfull i); [ done | lia ].
    + cbn [length]. rewrite length_drop in Hsize. cbn [length] in Hsize.
      rewrite Nat.mul_succ_r.
      destruct (Js.chunks n (drop n (c :: s))) as [ | piece pieces ] eqn:Hpieces.
      * cbn [length] in *. rewrite Nat.mul_0_r in *. lia.
      * specialize (Hrest ltac:(done)). cbn [length] in Hrest. lia.
Qed.

Lemma pieces_of_a_record_witness :
  let s := Scenario.keyId0 ++ Scenario.keyId1 ++ [79] in
  concat (Js.chunks _KEY_ID_SIZE s) = s
  ∧ Forall (λ piece, (0 < length piece ≤ _KEY_ID_SIZE)%nat)
      (Js.chunks _KEY_ID_SIZE s)
  ∧ (∀ i piece, Js.chunks _KEY_ID_SIZE s !! i = Some piece →
       (S i < length (Js.chunks _KEY_ID_SIZE s))%nat →
       length piece = _KEY_ID_SIZE)
  ∧ (length s ≤ _KEY_ID_SIZE * length (Js.chunks _KEY_ID_SIZE s)
     < length s + _KEY_ID_SIZE)%nat.
Proof. apply pieces_of_a_record. unfold _KEY_ID_SIZE. lia. Defined.

End Pieces.

(** ** Keys are cached from verified messages only *)

Module Verified.
Import strongvelope Spec Run Logs.

Section verified.
Context `{Primitives}.

Lemma only_logged_keys w w' :
  only_logged w w' → participantKeys (this w') = participantKeys (this w).
Proof. by intros [entries ->]. Qed.

(** X21.  [decryptFrom] caches no key of a message whose signature it has
    not verified: if [participantKeys] is not what it was, whether the
    call returned or raised, the message was parsed, it has a SIGNATURE
    record, the public signing key of the sender is cached, and the
    signature verifies under that key over the records that follow
    it. *)
Theorem keys_change_only_if_verified (message sender : jsstring) (w : World) :
  participantKeys (this (decryptFrom message sender w).2)
  ≠ participantKeys (this w) →
  ∃ parsed w' content signed pubKey,
    _parseMessageContent message w = (Ok (Some parsed), w')
    ∧ protocolVersion parsed = Num PROTOCOL_VERSION
    ∧ signedContent parsed = Some content
    ∧ signature parsed = Some signed
    ∧ global_pubEd25519 w !! sender = Some pubKey
    ∧ sign_detached_verify content signed pubKey = Some true.
Proof.
  unfold decryptFrom. rewrite run_bind.
  pose proof (logs_parseMessageContent message w) as Hparse.
  destruct (_parseMessageContent message w) as [[[parsed | ] | e] w'] eqn:Hrun;
    cbn [snd] in Hparse.
  2: { run_monad. intros Hchanged. exfalso. apply Hchanged.
       by apply only_logged_keys in Hparse. }
  2: { intros Hchanged. exfalso. apply Hchanged.
       by apply only_logged_keys in Hparse. }
  assert (global_pubEd25519 w' = global_pubEd25519 w) as Hglobal
    by (by destruct Hparse as [entries ->]).
  apply only_logged_keys in Hparse.
  case_bool_decide as Hversion.
  { run_monad. intros Hchanged. by destruct Hchanged. }
  rewrite run_bind. cbn [get_world]. cbv beta iota. rewrite run_bind.
  unfold _verifyMessage. run_monad. rewrite Hglobal.
  destruct (signedContent parsed) as [content | ] eqn:Hcontent;
    [ | intros Hchanged; by destruct Hchanged ].
  destruct (signature parsed) as [signed | ] eqn:Hsigned;
    [ | intros Hchanged; by destruct Hchanged ].
  destruct (global_pubEd25519 w !! sender) as [pubKey | ] eqn:Hpub;
    [ | intros Hchanged; by destruct Hchanged ].
  destruct (sign_detached_verify content signed pubKey) as [[ | ] | ] eqn:Hverify;
    [ | intros Hchanged; exfalso; apply Hchanged; cbn; exact Hparse .. ].
  intros _. exists parsed, w', content, signed, pubKey. split_and!; done.
Qed.

End verified.

Lemma keys_change_only_if_verified_witness :
  ∃ parsed w' content signed pubKey,
    _parseMessageContent (H := Toy.primitives) (Scenario.sent Scenario.hello)
      Scenario.worldB = (Ok (Some parsed), w')
    ∧ protocolVersion parsed = Num PROTOCOL_VERSION
    ∧ signedContent parsed = Some content
    ∧ signature parsed = Some signed
    ∧ global_pubEd25519 Scenario.worldB !! Scenario.handleA = Some pubKey
    ∧ sign_detached_verify (Primitives := Toy.primitives) content signed pubKey
      = Some true.
Proof.
  apply (keys_change_only_if_verified (H := Toy.primitives)).
  intros Hsame.
  apply (f_equal (λ cache, bool_decide (is_Some (cache !! Scenario.handleA))))
    in Hsame.
  vm_compute in Hsame. discriminate.
Defined.

End Verified.

(** ** Nonces *)

Module Nonces.
Import strongvelope Spec Run Sending RoundTrip Rotation SendingFrame.
Import Conversation.

Section nonces.
Context `{Primitives}.


Hypothesis Hctr : ctr_inverts.
Hypothesis Hcbc : cbc_inverts.


End nonces.



End Nonces.

(** ** Messages [decryptFrom] answers with [false] *)

Module Refused.
Import strongvelope Spec Run Parser Receiving RoundTrip.

Section refused.
Context `{Primitives}.

(** X23.  A message whose signature does not verify under the cached public
    signing key of the sender is refused with [false], after the error
    is logged, and nothing of it is kept: no key is cached. *)
Theorem decryptFrom_invalid_signature (message sender : jsstring)
    (w w' : World) (parsed : ParsedContent) (content signed pubKey : jsstring) :
  _parseMessageContent message w = (Ok (Some parsed), w') →
  protocolVersion parsed = Num PROTOCOL_VERSION →
  signedContent parsed = Some content →
  signature parsed = Some signed →
  global_pubEd25519 w' !! sender = Some pubKey →
  sign_detached_verify content signed pubKey = Some false →
  decryptFrom message sender w
  = (Ok RFalse, after_logging [SignatureInvalid] w').
Proof.
  intros Hparse Hversion Hcontent Hsigned Hpub Hverify. unfold decryptFrom.
  rewrite run_bind, Hparse. cbv beta iota.
  rewrite bool_decide_eq_false_2 by (by rewrite Hversion; intros []).
  rewrite run_bind. cbn [get_world]. cbv beta iota.
  rewrite Hcontent, Hsigned, Hpub, run_bind.
  by rewrite (verifyMessage_run _ _ _ false) by done.
Qed.

(** X24.  A signed follow-up message under a key ID for which the receiver
    caches no key, or an empty one, is refused with [false]: the error
    that is logged names the sender and the key ID, and nothing else
    changes. *)
Theorem decryptFrom_key_unavailable (sender signed baseNonce currentKeyId c
    pubKey : jsstring) (w : World) :
  Z.of_nat (length signed) < 65536 →
  length baseNonce = NONCE_SIZE →
  length currentKeyId = 4%nat →
  Z.of_nat (length c) < 65536 →
  global_pubEd25519 w !! sender = Some pubKey →
  sign_detached_verify
    (encode_records (followup_records baseNonce currentKeyId c)) signed pubKey
  = Some true →
  Js.truthy (cached_key w sender currentKeyId) = false →
  decryptFrom
    (wire_message PROTOCOL_VERSION
       ((TLV_TYPES.SIGNATURE, signed)
        :: followup_records baseNonce currentKeyId c)) sender w
  = (Ok RFalse,
     after_logging [KeyUnavailable sender (base64urlencode currentKeyId)] w).
Proof.
  intros Hsigned Hnonce Hid Hc Hpub Hverify Hnokey.
  erewrite decryptFrom_verified;
    [ | by apply parse_followup
      | reflexivity | reflexivity | reflexivity | exact Hpub | exact Hverify ].
  unfold get_sender_key. cbn [keys keyIds lookup list_lookup Js.undefined_key].
  rewrite run_bind. cbn [get_this]. cbv beta iota.
  unfold cached_key in Hnokey. by rewrite Hnokey.
Qed.

End refused.

Lemma decryptFrom_invalid_signature_witness :
  let tampered :=
    (TLV_TYPES.SIGNATURE, Scenario.helloSignature)
    :: keyed_records Scenario.helloNonce Scenario.handleB Scenario.helloKeys
         Scenario.keyId0 [1; 2; 3] in
  decryptFrom (H := Toy.primitives) (wire_message PROTOCOL_VERSION tampered)
    Scenario.handleA Scenario.worldB
  = (Ok RFalse, after_logging [SignatureInvalid] Scenario.worldB).
Proof.
  cbv zeta.
  eapply (decryptFrom_invalid_signature (H := Toy.primitives) _ _ _ _ _
            (encode_records
               (keyed_records Scenario.helloNonce Scenario.handleB
                  Scenario.helloKeys Scenario.keyId0 [1; 2; 3]))
            Scenario.helloSignature (pubEd25519 Scenario.freshA)).
  - apply (parse_keyed (H := Toy.primitives)); vm_compute; reflexivity.
  - reflexivity.
  - reflexivity.
  - reflexivity.
  - by_evaluation.
  - by_evaluation.
Defined.

Lemma decryptFrom_key_unavailable_witness :
  decryptFrom (H := Toy.primitives)
    (wire_message PROTOCOL_VERSION
       ((TLV_TYPES.SIGNATURE, Scenario.worldSignature)
        :: followup_records Scenario.worldNonce Scenario.keyId0
             Scenario.worldPayload)) Scenario.handleA Scenario.worldB
  = (Ok RFalse,
     after_logging
       [KeyUnavailable Scenario.handleA
          (base64urlencode (Primitives := Toy.primitives) Scenario.keyId0)]
       Scenario.worldB).
Proof.
  apply (decryptFrom_key_unavailable (H := Toy.primitives) _ _ _ _ _
           (pubEd25519 Scenario.freshA)).
  - vm_compute. reflexivity.
  - reflexivity.
  - reflexivity.
  - vm_compute. reflexivity.
  - by_evaluation.
  - by_evaluation.
  - reflexivity.
Defined.

End Refused.
